(** * Metrics averaging and report statistics of the ad-blocking benchmark

    A shallow embedding of [src/metrics-collector.ts] (the run averager),
    [src/report-generator/report-generator.ts] (domain reconciliation and the
    statistics aggregator) and of the request summary of
    [src/puppeteer-runner.ts], with the properties of the specification
    proved or refuted against it.

    Modelling conventions.
    - A JavaScript [number] is an IEEE 754 binary64 value.  A finite one is
      represented by the rational it denotes ([Qc], canonical fractions with
      Leibniz equality); the results of [+] and [/] on the averaged values
      and of [Number(x.toFixed(d))] are rounded to the nearest double, ties
      to even, with gradual underflow ([round64]).  The two zeros are not
      told apart: the code never divides by a zero it computed, prints them
      alike and compares them equal.  Results of magnitude 2^1024 and more,
      which a double replaces by an infinity, are outside the model; the
      metrics are counts of requests, bytes and milliseconds.  [NaN] arises
      in the modelled code only from [0 / 0]; the divisions that can produce
      it return [option Qc], [None] standing for [NaN].
    - Counters that are incremented by one or by the length of an array
      (the request counters of a page load, the numbers of keys) are whole
      numbers far below 2^53, on which [+] is exact; they are added
      exactly.
    - [Record<string, number>] and the other string-keyed objects are
      [gmap string _]; [Object.keys] / [Object.entries] enumerate
      [map_to_list], one order of the keys, where JavaScript follows the
      order of insertion.  Where the result depends on the order (the sums
      of doubles of [computeStatistics]) the enumeration is a parameter
      ([computeStatisticsFor]).  A [Set<string>] is a [gset string].
    - [throw] and [process.exit] are results of type [result].
    - [getDomain] and [parse] of the [tldts] package are parameters. *)

From Stdlib Require Import ZArith QArith Qcanon Qabs Qround Qpower Lia Lqa Ascii.
From stdpp Require Import gmap strings list fin_maps numbers sorting.

Local Open Scope Qc_scope.

(** ** Numbers *)

Module JsNumber.

Definition ofNat (n : nat) : Qc := Qc_of_Z (Z.of_nat n).

(** The binade of a rational [x <> 0]: the [e] with
    [2^(e-1) <= |x| < 2^e]. *)
Definition magnitude (x : Q) : Z :=
  let s := (Z.log2 (Z.abs (Qnum x)) - Z.log2 (Z.pos (Qden x)))%Z in
  if Qle_bool (2 ^ s)%Q (Qabs x) then (s + 1)%Z else s.

(** Nearest integer, ties to the even one. *)
Definition roundHalfEven (q : Q) : Z :=
  let f := Qfloor q in
  match Qcompare (q - inject_Z f)%Q (1 # 2)%Q with
  | Lt => f
  | Gt => (f + 1)%Z
  | Eq => if Z.even f then f else (f + 1)%Z
  end.

(** The exponent of the last place of the doubles of the binade of [x]: 53
    bits of precision, and no exponent below that of the subnormals. *)
Definition quantum (x : Q) : Z := Z.max (magnitude x - 53) (-1074).

(** The double nearest to [x], ties to the even significand. *)
Definition round64Q (x : Q) : Q :=
  (inject_Z (roundHalfEven (x / 2 ^ quantum x)) * 2 ^ quantum x)%Q.

Definition round64 (x : Qc) : Qc := Q2Qc (round64Q x).

(** [x + y] and [x / y] on doubles ([y] not zero). *)
Definition add (x y : Qc) : Qc := round64 (x + y).
Definition divide (x y : Qc) : Qc := round64 (x / y).

(** [values.reduce((sum, value) => sum + value, 0)] *)
Definition sum (values : list Qc) : Qc := foldl add 0 values.

(** Nearest integer, ties away from zero: the integer [n] that
    [Number.prototype.toFixed] picks ("let n be an integer for which
    n / 10^f - x is as close to zero as possible; if there are two such n,
    pick the larger", applied to the absolute value). *)
Definition roundHalfAway (q : Q) : Z :=
  let n := Qnum q in
  let d := Z.pos (Qden q) in
  if (0 <=? n)%Z then ((2 * n + d) / (2 * d))%Z
  else (- ((2 * (- n) + d) / (2 * d)))%Z.

(** The number read from the decimal numeral of [n / 10^digits]: the double
    nearest to it. *)
Definition decimalQ (digits : nat) (n : Z) : Q :=
  round64Q (inject_Z n / inject_Z (10 ^ Z.of_nat digits)).

Definition decimal (digits : nat) (n : Z) : Qc := Q2Qc (decimalQ digits n).

(** [Number(x.toFixed(digits))]: [toFixed] writes the exact value of the
    double [x] with [digits] decimals, and [Number] reads the numeral
    back. *)
Definition toFixedQ (digits : nat) (x : Q) : Q :=
  decimalQ digits (roundHalfAway (x * inject_Z (10 ^ Z.of_nat digits))).

Definition toFixed (digits : nat) (x : Qc) : Qc := Q2Qc (toFixedQ digits x).

(** [v || 0] for [v : number | undefined]. *)
Definition orZero (v : option Qc) : Qc :=
  match v with
  | Some x => x
  | None => 0
  end.

(** [x / n] for a length [n]; [None] is [NaN] (the numerators of the
    modelled divisions are [0] whenever [n] is). *)
Definition divLength (x : Qc) (n : nat) : option Qc :=
  match n with
  | O => None
  | S _ => Some (divide x (ofNat n))
  end.

(** The exact sum of a list of whole numbers. *)
Definition sumQc (l : list Qc) : Qc := foldr Qcplus 0 l.

End JsNumber.
Import JsNumber.

(** ** Exceptions and process termination *)

Inductive JsError : Type :=
  | Error (message : string)
  | TypeError (message : string)
  | ProcessExit (code : Z).

Inductive result (A : Type) : Type :=
  | Ok (value : A)
  | Throw (e : JsError).
Arguments Ok {A} value.
Arguments Throw {A} e.

Definition isOk {A} (r : result A) : bool :=
  match r with
  | Ok _ => true
  | Throw _ => false
  end.

(** ** Strings *)

Module JsString.

(** [s.split(sep)] for a one-character separator. *)
Fixpoint split (sep : Ascii.ascii) (s : string) : list string :=
  match s with
  | EmptyString => [EmptyString]
  | String c rest =>
      if Ascii.eqb c sep then EmptyString :: split sep rest
      else match split sep rest with
           | [] => [String c EmptyString]
           | label :: labels => String c label :: labels
           end
  end.

(** Truthiness of a [string | null | undefined]: the value when it is a
    non-empty string. *)
Definition truthy (v : option string) : option string :=
  match v with
  | Some s => if decide (s = EmptyString) then None else Some s
  | None => None
  end.

End JsString.

(** ** The run averager ([src/metrics-collector.ts]) *)

Module MetricsCollector.

Record Weight : Type := mkWeight {
  totalBytes : Qc;
  thirdPartyBytes : option Qc
}.

Record Requests : Type := mkRequests {
  totalRequests : Qc;
  blockedRequests : Qc;
  notBlockedRequests : Qc;
  thirdPartyRequests : Qc;
  thirdPartyBlockedRequests : Qc;
  thirdPartyNotBlockedRequests : Qc;
  hostnames : gmap string Qc;
  etldPlus1s : gmap string Qc
}.

Record Metrics : Type := mkMetrics {
  url : string;
  domain : string;
  measureTime : string;
  testEnv : string;
  method : string;
  domContentLoadTimeMs : option Qc;
  loadTimeMs : option Qc;
  weight : Weight;
  requests : Requests
}.

(** [MetricsData]: domain name to the entries recorded for it. *)
Abbreviation MetricsData := (gmap string (list Metrics)).

(** [Object.keys(record)]. *)
Definition objectKeys {V} (record : gmap string V) : list string :=
  (map_to_list record).*1.

Definition calculateAverage (metrics : list Metrics)
    (selector : Metrics → option Qc) : Qc :=
  let validMetrics := filter (λ m, is_Some (selector m)) metrics in
  if decide (length validMetrics = 0%nat) then 0
  else
    let sum :=
      foldl (λ acc metric, add acc (orZero (selector metric))) 0
            validMetrics in
    toFixed 2 (divide sum (ofNat (length validMetrics))).

Definition collectUniqueKeys {T} (array : list T)
    (selector : T → gmap string Qc) : gset string :=
  foldl (λ keys item,
           foldl (λ keys key, keys ∪ {[key]}) keys
                 (objectKeys (selector item)))
        ∅ array.

Definition computeAveragesForKeys (metricsArray : list Metrics)
    (keys : gset string)
    (valueSelector : Metrics → string → option Qc) : gmap string Qc :=
  foldl (λ averages key,
           let sum :=
             foldl (λ acc metric, add acc (orZero (valueSelector metric key)))
                   0 metricsArray in
           let average :=
             toFixed 2 (divide sum (ofNat (length metricsArray))) in
           if decide (0 < average) then <[key := average]> averages
           else averages)
        ∅ (elements keys).

Definition computeHostnameAverages (metricsArray : list Metrics)
    : gmap string Qc :=
  let allHostnames :=
    collectUniqueKeys metricsArray (λ m, hostnames (requests m)) in
  computeAveragesForKeys metricsArray allHostnames
    (λ m key, hostnames (requests m) !! key).

Definition computeEtldPlusOneAverages (metricsArray : list Metrics)
    : gmap string Qc :=
  let allEtlds :=
    collectUniqueKeys metricsArray (λ m, etldPlus1s (requests m)) in
  computeAveragesForKeys metricsArray allEtlds
    (λ m key, etldPlus1s (requests m) !! key).

Definition computeAverageMetrics (metricsArray : list Metrics)
    : result Metrics :=
  match metricsArray with
  | [] => Throw (Error "Cannot compute average of empty metrics array")
  | first :: _ =>
      let hostnamesAvg := computeHostnameAverages metricsArray in
      let etldPlus1sAvg := computeEtldPlusOneAverages metricsArray in
      Ok {|
        url := url first;
        domain := domain first;
        measureTime := measureTime first;
        testEnv := testEnv first;
        method := method first;
        domContentLoadTimeMs :=
          Some (calculateAverage metricsArray domContentLoadTimeMs);
        loadTimeMs := Some (calculateAverage metricsArray loadTimeMs);
        weight := {|
          totalBytes :=
            calculateAverage metricsArray (λ m, Some (totalBytes (weight m)));
          thirdPartyBytes :=
            Some (calculateAverage metricsArray
                    (λ m, thirdPartyBytes (weight m)))
        |};
        requests := {|
          totalRequests :=
            calculateAverage metricsArray
              (λ m, Some (totalRequests (requests m)));
          blockedRequests :=
            calculateAverage metricsArray
              (λ m, Some (blockedRequests (requests m)));
          notBlockedRequests :=
            calculateAverage metricsArray
              (λ m, Some (notBlockedRequests (requests m)));
          thirdPartyRequests :=
            calculateAverage metricsArray
              (λ m, Some (thirdPartyRequests (requests m)));
          thirdPartyBlockedRequests :=
            calculateAverage metricsArray
              (λ m, Some (thirdPartyBlockedRequests (requests m)));
          thirdPartyNotBlockedRequests :=
            calculateAverage metricsArray
              (λ m, Some (thirdPartyNotBlockedRequests (requests m)));
          hostnames := hostnamesAvg;
          etldPlus1s := etldPlus1sAvg
        |}
      |}
  end.

End MetricsCollector.

(** ** The report generator ([src/report-generator/report-generator.ts]) *)

Module TestEnvironment.
(** [src/types.ts] *)
Definition None : string := "none".
Definition Baseline : string := "baseline".
Definition DNS : string := "dns".
Definition Extension : string := "extension".
End TestEnvironment.

Module TrackerInfo.
Record t : Type := mk {
  name : string;
  categoryId : Z;
  url : option string;
  companyId : option string;
  source : option string
}.
End TrackerInfo.

Module TrackersData.
Record t : Type := mk {
  timeUpdated : string;
  categories : gmap string string;
  trackers : gmap string TrackerInfo.t;
  trackerDomains : gmap string string
}.
End TrackersData.

Module CompanyInfo.
Record t : Type := mk {
  name : string;
  websiteUrl : option string;
  description : option string;
  source : option string
}.
End CompanyInfo.

Module CompaniesData.
Record t : Type := mk {
  timeUpdated : string;
  companies : gmap string CompanyInfo.t
}.
End CompaniesData.

(** The object built by [initializeAggregatedData]. *)
Module AggregatedData.
Record t : Type := mk {
  totalDomContentLoadTime : Qc;
  totalLoadTime : Qc;
  totalBytes : Qc;
  totalRequests : Qc;
  totalThirdPartyRequests : Qc;
  totalBlockedRequests : Qc;
  totalHostnames : Qc;
  totalEtldPlus1s : Qc
}.
End AggregatedData.

(** The object built by [initializeCollectedData]. *)
Module CollectedData.
Record t : Type := mk {
  hostnamesData : gmap string Qc;
  etldPlus1Data : gmap string Qc;
  trackersData : gmap string Qc;
  companiesData : gmap string Qc;
  etldPlus1WebsitesData : gmap string (gset string);
  companiesWebsitesData : gmap string (gset string);
  trackersWebsitesData : gmap string (gset string)
}.
End CollectedData.

(** The object returned by [calculateAverages]; a field is [None] when the
    division is [0 / 0]. *)
Module Averages.
Record t : Type := mk {
  averageDomContentLoadTime : option Qc;
  averageLoadTime : option Qc;
  averageBytes : option Qc;
  averageRequests : option Qc;
  averageThirdPartyRequests : option Qc;
  averageBlockedRequests : option Qc;
  averageHostnames : option Qc;
  averageEtldPlus1s : option Qc
}.
End Averages.

Module ReportResult.
Record t : Type := mk {
  siteCount : nat;
  averageDomContentLoadTime : option Qc;
  averageLoadTime : option Qc;
  totalLoadTime : Qc;
  averageBytes : option Qc;
  totalBytes : Qc;
  averageRequests : option Qc;
  totalRequests : Qc;
  averageThirdPartyRequests : option Qc;
  totalThirdPartyRequests : Qc;
  averageBlockedRequests : option Qc;
  totalBlockedRequests : Qc;
  averageHostnames : option Qc;
  totalHostnames : Qc;
  averageEtldPlus1s : option Qc;
  totalEtldPlus1s : Qc;
  domainsData : gmap string (list MetricsCollector.Metrics);
  etldPlus1WebsitesData : gmap string nat;
  companiesWebsitesData : gmap string nat;
  trackersWebsitesData : gmap string nat;
  type : string
}.

(** [result.type = environmentType] *)
Definition setType (result : t) (environmentType : string) : t :=
  mk (siteCount result) (averageDomContentLoadTime result)
     (averageLoadTime result) (totalLoadTime result) (averageBytes result)
     (totalBytes result) (averageRequests result) (totalRequests result)
     (averageThirdPartyRequests result) (totalThirdPartyRequests result)
     (averageBlockedRequests result) (totalBlockedRequests result)
     (averageHostnames result) (totalHostnames result)
     (averageEtldPlus1s result) (totalEtldPlus1s result)
     (domainsData result) (etldPlus1WebsitesData result)
     (companiesWebsitesData result) (trackersWebsitesData result)
     environmentType.
End ReportResult.

Module ReportGenerator.
Import MetricsCollector.

(** Minimum number of requests to consider a domain in the report. *)
Definition MIN_REQUESTS_THRESHOLD : Qc := Qc_of_Z 20.

Definition initializeAggregatedData : AggregatedData.t :=
  AggregatedData.mk 0 0 0 0 0 0 0 0.

Definition initializeCollectedData : CollectedData.t :=
  CollectedData.mk ∅ ∅ ∅ ∅ ∅ ∅ ∅.

(** The required numeric fields are numbers, for which [x || 0] is [x]; the
    two optional load times default to [0]. *)
Definition aggregateBasicMetrics (entry : Metrics)
    (aggregatedData : AggregatedData.t) : AggregatedData.t :=
  AggregatedData.mk
    (add (AggregatedData.totalDomContentLoadTime aggregatedData)
       (orZero (domContentLoadTimeMs entry)))
    (add (AggregatedData.totalLoadTime aggregatedData)
       (orZero (loadTimeMs entry)))
    (add (AggregatedData.totalBytes aggregatedData) (totalBytes (weight entry)))
    (add (AggregatedData.totalRequests aggregatedData)
       (totalRequests (requests entry)))
    (add (AggregatedData.totalThirdPartyRequests aggregatedData)
       (thirdPartyRequests (requests entry)))
    (add (AggregatedData.totalBlockedRequests aggregatedData)
       (blockedRequests (requests entry)))
    (AggregatedData.totalHostnames aggregatedData)
    (AggregatedData.totalEtldPlus1s aggregatedData).

(** [id && table[id]]: the entry of a string-keyed table under a truthy id. *)
Definition lookupTruthy {V} (table : gmap string V) (id : option string)
    : option V :=
  match JsString.truthy id with
  | Some key => table !! key
  | None => None
  end.

(** [tally[name] = (tally[name] || 0) + count] *)
Definition addCount (tally : gmap string Qc) (name : string) (count : Qc)
    : gmap string Qc :=
  <[name := add (orZero (tally !! name)) count]> tally.

(** [if (!websites[name]) websites[name] = new Set(); websites[name].add(domain)] *)
Definition addWebsite (websites : gmap string (gset string))
    (name domain : string) : gmap string (gset string) :=
  <[name := default ∅ (websites !! name) ∪ {[domain]}]> websites.

(** [if (!tally[key]) tally[key] = count; else tally[key] += count] *)
Definition accumulateCount (tally : gmap string Qc) (key : string) (count : Qc)
    : gmap string Qc :=
  match tally !! key with
  | Some current =>
      if decide (current = 0) then <[key := count]> tally
      else <[key := add current count]> tally
  | None => <[key := count]> tally
  end.

(** An object reference is truthy, also when the object has no keys: the
    guards [if (entry.requests.hostnames)] and [if (entry.requests.etldPlus1s)]
    pass for every [Metrics] value. *)
Definition objectTruthy {V} (record : gmap string V) : bool := true.

Section WithGetDomain.

(** [getDomain] of [tldts]: the registrable domain of a hostname, or [null]. *)
Variable getDomain : string → option string.

(** The name under which the [forEach] callback of [processTrackers] tallies
    a hostname; [None] is the callback's early [return]. *)
Definition trackerNameFor (trackersInfo : TrackersData.t) (hostname : string)
    : option string :=
  let trackerId := TrackersData.trackerDomains trackersInfo !! hostname in
  match lookupTruthy (TrackersData.trackers trackersInfo) trackerId with
  | Some tracker => Some (TrackerInfo.name tracker)
  | None =>
      match JsString.truthy (getDomain hostname) with
      | Some etldPlus1 =>
          let etldTrackerId :=
            TrackersData.trackerDomains trackersInfo !! etldPlus1 in
          match lookupTruthy (TrackersData.trackers trackersInfo)
                             etldTrackerId with
          | Some tracker => Some (TrackerInfo.name tracker)
          | None => None
          end
      | None => Some hostname
      end
  end.

Definition processTrackers (hostnames : gmap string Qc)
    (trackersInfo : TrackersData.t)
    (trackersData : gmap string Qc)
    (trackersWebsitesData : gmap string (gset string))
    (domain : string)
    : gmap string Qc * gmap string (gset string) :=
  foldl (λ acc entry,
           match trackerNameFor trackersInfo entry.1 with
           | Some trackerName =>
               if decide (trackerName = EmptyString) then acc
               else (addCount acc.1 trackerName entry.2,
                     addWebsite acc.2 trackerName domain)
           | None => acc
           end)
        (trackersData, trackersWebsitesData) (map_to_list hostnames).

(** The name under which the [forEach] callback of [processCompanies] tallies
    a hostname; [None] is the callback's early [return]. *)
Definition companyNameFor (trackersInfo : TrackersData.t)
    (companiesInfo : CompaniesData.t) (hostname : string) : option string :=
  let companyName :=
    default hostname (JsString.truthy (getDomain hostname)) in
  let trackerId := TrackersData.trackerDomains trackersInfo !! hostname in
  match lookupTruthy (TrackersData.trackers trackersInfo) trackerId with
  | Some tracker =>
      let companyId := TrackerInfo.companyId tracker in
      match lookupTruthy (CompaniesData.companies companiesInfo) companyId with
      | Some company => Some (CompanyInfo.name company)
      | None => Some companyName
      end
  | None =>
      match JsString.truthy (getDomain hostname) with
      | Some etldPlus1 =>
          let etldTrackerId :=
            TrackersData.trackerDomains trackersInfo !! etldPlus1 in
          match lookupTruthy (TrackersData.trackers trackersInfo)
                             etldTrackerId with
          | Some tracker =>
              let companyId := TrackerInfo.companyId tracker in
              match lookupTruthy (CompaniesData.companies companiesInfo)
                                 companyId with
              | Some company => Some (CompanyInfo.name company)
              | None => Some companyName
              end
          | None =>
              let domainWithoutTLD :=
                default EmptyString (head (JsString.split "."%char etldPlus1)) in
              match CompaniesData.companies companiesInfo
                      !! domainWithoutTLD with
              | Some company => Some (CompanyInfo.name company)
              | None => None
              end
          end
      | None => Some companyName
      end
  end.

Definition processCompanies (domain : string) (hostnames : gmap string Qc)
    (trackersInfo : TrackersData.t) (companiesInfo : CompaniesData.t)
    (companiesData : gmap string Qc)
    (companiesWebsitesData : gmap string (gset string))
    : gmap string Qc * gmap string (gset string) :=
  foldl (λ acc entry,
           match companyNameFor trackersInfo companiesInfo entry.1 with
           | Some companyName =>
               if decide (companyName = EmptyString) then acc
               else (addCount acc.1 companyName entry.2,
                     addWebsite acc.2 companyName domain)
           | None => acc
           end)
        (companiesData, companiesWebsitesData) (map_to_list hostnames).

Definition processHostnameData (domain : string) (entry : Metrics)
    (trackersInfo : TrackersData.t) (companiesInfo : CompaniesData.t)
    (aggregatedData : AggregatedData.t) (collectedData : CollectedData.t)
    : AggregatedData.t * CollectedData.t :=
  let hostnameCount := length (objectKeys (hostnames (requests entry))) in
  let aggregatedData' :=
    AggregatedData.mk
      (AggregatedData.totalDomContentLoadTime aggregatedData)
      (AggregatedData.totalLoadTime aggregatedData)
      (AggregatedData.totalBytes aggregatedData)
      (AggregatedData.totalRequests aggregatedData)
      (AggregatedData.totalThirdPartyRequests aggregatedData)
      (AggregatedData.totalBlockedRequests aggregatedData)
      (AggregatedData.totalHostnames aggregatedData + ofNat hostnameCount)
      (AggregatedData.totalEtldPlus1s aggregatedData) in
  (* Aggregate hostname counts *)
  let hostnamesData' :=
    foldl (λ tally entry, accumulateCount tally entry.1 entry.2)
          (CollectedData.hostnamesData collectedData)
          (map_to_list (hostnames (requests entry))) in
  (* Process trackers *)
  let trackers' :=
    processTrackers (hostnames (requests entry)) trackersInfo
      (CollectedData.trackersData collectedData)
      (CollectedData.trackersWebsitesData collectedData) domain in
  (* Process companies *)
  let companies' :=
    processCompanies domain (hostnames (requests entry)) trackersInfo
      companiesInfo
      (CollectedData.companiesData collectedData)
      (CollectedData.companiesWebsitesData collectedData) in
  (* Associate hostnames with eTLD+1s for website tracking *)
  let etldPlus1WebsitesData' :=
    foldl (λ websites hostname,
             match JsString.truthy (getDomain hostname) with
             | Some etldPlus1 => addWebsite websites etldPlus1 domain
             | None => websites
             end)
          (CollectedData.etldPlus1WebsitesData collectedData)
          (objectKeys (hostnames (requests entry))) in
  (aggregatedData',
   CollectedData.mk hostnamesData'
     (CollectedData.etldPlus1Data collectedData)
     trackers'.1 companies'.1
     etldPlus1WebsitesData' companies'.2 trackers'.2).

Definition processEtldPlus1Data (entry : Metrics)
    (aggregatedData : AggregatedData.t) (collectedData : CollectedData.t)
    : AggregatedData.t * CollectedData.t :=
  let etldPlus1Count := length (objectKeys (etldPlus1s (requests entry))) in
  let aggregatedData' :=
    AggregatedData.mk
      (AggregatedData.totalDomContentLoadTime aggregatedData)
      (AggregatedData.totalLoadTime aggregatedData)
      (AggregatedData.totalBytes aggregatedData)
      (AggregatedData.totalRequests aggregatedData)
      (AggregatedData.totalThirdPartyRequests aggregatedData)
      (AggregatedData.totalBlockedRequests aggregatedData)
      (AggregatedData.totalHostnames aggregatedData)
      (AggregatedData.totalEtldPlus1s aggregatedData + ofNat etldPlus1Count) in
  let etldPlus1Data' :=
    foldl (λ tally entry, accumulateCount tally entry.1 entry.2)
          (CollectedData.etldPlus1Data collectedData)
          (map_to_list (etldPlus1s (requests entry))) in
  (aggregatedData',
   CollectedData.mk
     (CollectedData.hostnamesData collectedData)
     etldPlus1Data'
     (CollectedData.trackersData collectedData)
     (CollectedData.companiesData collectedData)
     (CollectedData.etldPlus1WebsitesData collectedData)
     (CollectedData.companiesWebsitesData collectedData)
     (CollectedData.trackersWebsitesData collectedData)).

(** The body of the inner [entries.forEach] of [processAllDomains]. *)
Definition processEntry (domain : string)
    (trackersInfo : TrackersData.t) (companiesInfo : CompaniesData.t)
    (state : AggregatedData.t * CollectedData.t) (entry : Metrics)
    : AggregatedData.t * CollectedData.t :=
  let state1 := (aggregateBasicMetrics entry state.1, state.2) in
  let state2 :=
    if objectTruthy (hostnames (requests entry))
    then processHostnameData domain entry trackersInfo companiesInfo
           state1.1 state1.2
    else state1 in
  if objectTruthy (etldPlus1s (requests entry))
  then processEtldPlus1Data entry state2.1 state2.2
  else state2.

(** [domains] are keys of [data], so [data[domain]] is defined; the default
    is never used on the lists [computeStatistics] passes. *)
Definition processAllDomains (domains : list string) (data : MetricsData)
    (trackersInfo : TrackersData.t) (companiesInfo : CompaniesData.t)
    (aggregatedData : AggregatedData.t) (collectedData : CollectedData.t)
    : AggregatedData.t * CollectedData.t :=
  foldl (λ state domain,
           let entries := default [] (data !! domain) in
           foldl (processEntry domain trackersInfo companiesInfo)
                 state entries)
        (aggregatedData, collectedData) domains.

Definition convertSetsToCountMaps (collectedData : CollectedData.t)
    : gmap string nat * gmap string nat * gmap string nat :=
  let etldPlus1WebsitesCounts :=
    size <$> CollectedData.etldPlus1WebsitesData collectedData in
  let companiesWebsitesCounts :=
    size <$> CollectedData.companiesWebsitesData collectedData in
  let trackersWebsitesCounts :=
    size <$> CollectedData.trackersWebsitesData collectedData in
  (etldPlus1WebsitesCounts, companiesWebsitesCounts, trackersWebsitesCounts).

Definition calculateAverages (aggregatedData : AggregatedData.t)
    (siteCount : nat) : Averages.t :=
  Averages.mk
    (divLength (AggregatedData.totalDomContentLoadTime aggregatedData) siteCount)
    (divLength (AggregatedData.totalLoadTime aggregatedData) siteCount)
    (divLength (AggregatedData.totalBytes aggregatedData) siteCount)
    (divLength (AggregatedData.totalRequests aggregatedData) siteCount)
    (divLength (AggregatedData.totalThirdPartyRequests aggregatedData) siteCount)
    (divLength (AggregatedData.totalBlockedRequests aggregatedData) siteCount)
    (divLength (AggregatedData.totalHostnames aggregatedData) siteCount)
    (divLength (AggregatedData.totalEtldPlus1s aggregatedData) siteCount).

Definition assembleResult (siteCount : nat)
    (aggregatedData : AggregatedData.t) (averages : Averages.t)
    (data : MetricsData)
    (etldPlus1WebsitesCounts companiesWebsitesCounts
       trackersWebsitesCounts : gmap string nat) : ReportResult.t :=
  {| ReportResult.siteCount := siteCount;
     ReportResult.averageDomContentLoadTime :=
       Averages.averageDomContentLoadTime averages;
     ReportResult.averageLoadTime := Averages.averageLoadTime averages;
     ReportResult.totalLoadTime := AggregatedData.totalLoadTime aggregatedData;
     ReportResult.averageBytes := Averages.averageBytes averages;
     ReportResult.totalBytes := AggregatedData.totalBytes aggregatedData;
     ReportResult.averageRequests := Averages.averageRequests averages;
     ReportResult.totalRequests :=
       toFixed 0 (AggregatedData.totalRequests aggregatedData);
     ReportResult.averageThirdPartyRequests :=
       Averages.averageThirdPartyRequests averages;
     ReportResult.totalThirdPartyRequests :=
       toFixed 0 (AggregatedData.totalThirdPartyRequests aggregatedData);
     ReportResult.averageBlockedRequests :=
       Averages.averageBlockedRequests averages;
     ReportResult.totalBlockedRequests :=
       toFixed 0 (AggregatedData.totalBlockedRequests aggregatedData);
     ReportResult.averageHostnames := Averages.averageHostnames averages;
     ReportResult.totalHostnames :=
       AggregatedData.totalHostnames aggregatedData;
     ReportResult.averageEtldPlus1s := Averages.averageEtldPlus1s averages;
     ReportResult.totalEtldPlus1s :=
       AggregatedData.totalEtldPlus1s aggregatedData;
     ReportResult.domainsData := data;
     ReportResult.etldPlus1WebsitesData := etldPlus1WebsitesCounts;
     ReportResult.companiesWebsitesData := companiesWebsitesCounts;
     ReportResult.trackersWebsitesData := trackersWebsitesCounts;
     ReportResult.type := TestEnvironment.Baseline |}.

(** The body of [computeStatistics] after [const domains = Object.keys(data)].
    [Object.keys] lists the keys in the order in which they were inserted,
    which a [gmap] does not record; the sums of doubles depend on that order,
    so the enumeration is a parameter here. *)
Definition computeStatisticsFor (domains : list string) (data : MetricsData)
    (trackersInfo : TrackersData.t) (companiesInfo : CompaniesData.t)
    : ReportResult.t :=
  let siteCount := length domains in
  let aggregatedData := initializeAggregatedData in
  let collectedData := initializeCollectedData in
  let processed :=
    processAllDomains domains data trackersInfo companiesInfo
      aggregatedData collectedData in
  let counts := convertSetsToCountMaps processed.2 in
  let averages := calculateAverages processed.1 siteCount in
  assembleResult siteCount processed.1 averages data
    counts.1.1 counts.1.2 counts.2.

Definition computeStatistics (data : MetricsData)
    (trackersInfo : TrackersData.t) (companiesInfo : CompaniesData.t)
    : ReportResult.t :=
  let domains := objectKeys data in
  computeStatisticsFor domains data trackersInfo companiesInfo.

End WithGetDomain.

(** The average number of requests per entry of a domain reaches the
    threshold ([NaN >= 20] is false). *)
Definition meetsThreshold (entries : list Metrics) : bool :=
  let totalRequests :=
    foldl (λ sum entry, add sum (totalRequests (requests entry))) 0 entries in
  let avgRequests := divLength totalRequests (length entries) in
  match avgRequests with
  | Some avg => bool_decide (MIN_REQUESTS_THRESHOLD ≤ avg)
  | None => false
  end.

(** The accumulator of the [reduce] starts as [null]; the test
    [!commonDomains] after it is true for [null] only, a [Set] being an
    object. *)
Definition findCommonDomains (allData : list MetricsData)
    : result (gset string) :=
  let commonDomains :=
    foldl (λ (acc : option (gset string)) (data : MetricsData),
             let validDomains :=
               (filter (λ entry, meetsThreshold entry.2 = true)
                       (map_to_list data)).*1 in
             let domains : gset string := list_to_set validDomains in
             match acc with
             | None => Some domains
             | Some acc =>
                 Some (list_to_set
                         (filter (λ domain, domain ∈ domains) (elements acc)))
             end)
          None allData in
  match commonDomains with
  | None => Throw (ProcessExit 1)
  | Some commonDomains => Ok commonDomains
  end.

Definition determineTestEnvironment (data : MetricsData) : string :=
  match objectKeys data with
  | [] => TestEnvironment.Baseline
  | firstDomain :: _ =>
      let firstEntry := data !! firstDomain ≫= head in
      match JsString.truthy (testEnv <$> firstEntry) with
      | None => TestEnvironment.Baseline
      | Some env =>
          if decide (env = "baseline") then TestEnvironment.Baseline
          else if decide (env = "dns") then TestEnvironment.DNS
          else if decide (env = "extension") then TestEnvironment.Extension
          else TestEnvironment.None
      end
  end.

Definition filterDataByCommonDomains (data : MetricsData)
    (commonDomains : gset string) : MetricsData :=
  foldl (λ (filteredData : MetricsData) domain,
           if decide (domain ∈ commonDomains)
           then match data !! domain with
                | Some entries => <[domain := entries]> filteredData
                | None => filteredData
                end
           else filteredData)
        ∅ (objectKeys data).

Section Assembly.

Variable getDomain : string → option string.

(** [path.basename] *)
Variable basename : string → string.

(** [trackersInfo] and [companiesInfo] are the two tables the function reads
    from [trackers.json] and [companies.json].  [allData[i]] is [undefined]
    beyond the end of [allData], and [Object.keys(undefined)] throws. *)
Definition generateReportResults (allData : list MetricsData)
    (commonDomains : gset string) (inputFiles : list string)
    (trackersInfo : TrackersData.t) (companiesInfo : CompaniesData.t)
    : result (gmap string ReportResult.t) :=
  foldl (λ acc indexed,
           match acc with
           | Throw e => Throw e
           | Ok reportResultsMap =>
               let fileName := basename indexed.2 in
               match allData !! indexed.1 with
               | None =>
                   Throw (TypeError "Cannot convert undefined or null to object")
               | Some data =>
                   let filteredData :=
                     filterDataByCommonDomains data commonDomains in
                   let environmentType :=
                     determineTestEnvironment filteredData in
                   let result :=
                     computeStatistics getDomain filteredData trackersInfo
                       companiesInfo in
                   Ok (<[fileName :=
                           ReportResult.setType result environmentType]>
                         reportResultsMap)
               end
           end)
        (Ok ∅) (imap (λ i file, (i, file)) inputFiles).

(** The computation of [generateReport] between the loading of the input
    files ([allData] is what [loadMetricsData] returns) and the building of
    the HTML report from the map of results. *)
Definition generateReport (allData : list MetricsData)
    (inputFiles : list string)
    (trackersInfo : TrackersData.t) (companiesInfo : CompaniesData.t)
    : result (gmap string ReportResult.t) :=
  match findCommonDomains allData with
  | Throw e => Throw e
  | Ok commonDomains =>
      generateReportResults allData commonDomains inputFiles
        trackersInfo companiesInfo
  end.

End Assembly.

End ReportGenerator.

(** ** Sample data *)

Module Samples.
Import MetricsCollector.

(** A stand-in for [getDomain] on hostnames under a one-label public suffix
    ([com], [org], ...): the last two labels; no registrable domain for a
    hostname of fewer than two labels or with an empty label (as [tldts]
    answers for [localhost]). *)
Definition getDomain (hostname : string) : option string :=
  let labels := JsString.split "."%char hostname in
  if bool_decide (EmptyString ∈ labels) then None
  else match reverse labels with
       | suffix :: label :: _ => Some (label +:+ "." +:+ suffix)
       | _ => None
       end.

Definition num (z : Z) : Qc := Qc_of_Z z.

(** The number written [z / 100] with two decimals. *)
Definition hundredths (z : Z) : Qc := decimal 2 z.

(** [baseMetric] of the averager's tests. *)
Definition baseMetric : Metrics :=
  {| url := "http://example.com";
     domain := "example.com";
     measureTime := "2024-01-01T00:00:00Z";
     testEnv := TestEnvironment.Extension;
     method := "puppeteer";
     domContentLoadTimeMs := Some (num 100);
     loadTimeMs := Some (num 200);
     weight := {| totalBytes := num 1000; thirdPartyBytes := Some (num 500) |};
     requests := {| totalRequests := num 10;
                    blockedRequests := num 2;
                    notBlockedRequests := num 8;
                    thirdPartyRequests := num 5;
                    thirdPartyBlockedRequests := num 1;
                    thirdPartyNotBlockedRequests := num 4;
                    hostnames := ∅;
                    etldPlus1s := ∅ |} |}.

Definition withRequests (m : Metrics) (r : Requests) : Metrics :=
  mkMetrics (url m) (domain m) (measureTime m) (testEnv m) (method m)
    (domContentLoadTimeMs m) (loadTimeMs m) (weight m) r.

Definition withLoadTimes (m : Metrics) (dcl load : option Qc) : Metrics :=
  mkMetrics (url m) (domain m) (measureTime m) (testEnv m) (method m)
    dcl load (weight m) (requests m).

Definition withHostnames (m : Metrics) (h e : gmap string Qc) : Metrics :=
  withRequests m
    (mkRequests (totalRequests (requests m)) (blockedRequests (requests m))
       (notBlockedRequests (requests m)) (thirdPartyRequests (requests m))
       (thirdPartyBlockedRequests (requests m))
       (thirdPartyNotBlockedRequests (requests m)) h e).

(** Request counts [total; blocked; notBlocked; thirdParty; thirdPartyBlocked;
    thirdPartyNotBlocked] on top of [baseMetric]. *)
Definition withCounts (m : Metrics) (t b nb tp tpb tpnb : Qc) : Metrics :=
  withRequests m
    (mkRequests t b nb tp tpb tpnb (hostnames (requests m))
       (etldPlus1s (requests m))).

(** Three runs, the first alone contacting [tracker.com], three times. *)
Definition threeRuns : list Metrics :=
  [ withHostnames baseMetric {[ "tracker.com" := num 3 ]}
      {[ "tracker.com" := num 3 ]};
    baseMetric; baseMetric ].

(** Three runs whose counters satisfy the invariant of the data model: one
    blocked request, one request let through, and no request at all. *)
Definition roundingRuns : list Metrics :=
  [ withCounts baseMetric (num 1) (num 1) (num 0) (num 0) (num 0) (num 0);
    withCounts baseMetric (num 1) (num 0) (num 1) (num 0) (num 0) (num 0);
    withCounts baseMetric (num 0) (num 0) (num 0) (num 0) (num 0) (num 0) ].

(** A data set whose only domain averages 10 requests per run. *)
Definition belowThreshold : MetricsData :=
  {[ "small.com" := [ baseMetric ] ]}.

(** One domain whose averaged entry counts 20.33 requests. *)
Definition fractionalData : MetricsData :=
  {[ "example.com" :=
       [ withCounts baseMetric (hundredths 2033) (num 0) (hundredths 2033)
           (num 0) (num 0) (num 0) ] ]}.

(** One domain that contacted [localhost] three times. *)
Definition localhostData : MetricsData :=
  {[ "example.com" :=
       [ withHostnames baseMetric {[ "localhost" := num 3 ]} ∅ ] ]}.

(** One domain that contacted [ads.tracker.com] twice. *)
Definition trackerData : MetricsData :=
  {[ "example.com" :=
       [ withHostnames baseMetric {[ "ads.tracker.com" := num 2 ]}
           {[ "tracker.com" := num 2 ]} ] ]}.

(** A tracker table that knows [ads.tracker.com], a tracker without
    company. *)
Definition oneTracker : TrackersData.t :=
  TrackersData.mk "" ∅
    {[ "t1" := TrackerInfo.mk "Tracker" 4 None None None ]}
    {[ "ads.tracker.com" := "t1" ]}.

(** A companies table whose only id is the label [tracker]. *)
Definition oneCompany : CompaniesData.t :=
  CompaniesData.mk ""
    {[ "tracker" := CompanyInfo.mk "Tracker Inc" None None None ]}.

Definition noTrackers : TrackersData.t := TrackersData.mk "" ∅ ∅ ∅.
Definition noCompanies : CompaniesData.t := CompaniesData.mk "" ∅.

(** The two-domain data set of the report generator's test. *)
Definition twoDomains : MetricsData :=
  {[ "example.com" :=
       [ withHostnames
           (withCounts baseMetric (num 20) (num 5) (num 15) (num 10) (num 2)
              (num 8))
           {[ "example.com" := num 10; "analytics.com" := num 5;
              "cdn.example.com" := num 5 ]}
           {[ "example.com" := num 15; "analytics.com" := num 5 ]} ];
     "test.com" :=
       [ withHostnames
           (withCounts baseMetric (num 10) (num 2) (num 8) (num 4) (num 1)
              (num 3))
           {[ "test.com" := num 6; "analytics.com" := num 4 ]}
           {[ "test.com" := num 6; "analytics.com" := num 4 ]} ] ]}.

End Samples.

(** ** The properties in the words of the specification *)

Module Spec.
Import MetricsCollector.

(** The arithmetic mean of [values], rounded to two decimals; [0] when there
    is no value.  The sum, the quotient and the rounded number are those of
    double arithmetic. *)
Definition meanOfDefined (values : list Qc) : Qc :=
  match values with
  | [] => 0
  | _ => toFixed 2 (divide (sum values) (ofNat (length values)))
  end.

(** The union of the keys of a mapping across all runs. *)
Definition keyUnion (runs : list Metrics) (mapping : Metrics → gmap string Qc)
    : gset string :=
  ⋃ ((λ m, dom (mapping m)) <$> runs).

(** The average of a key: the sum of its values across the runs, a run
    without the key counting as [0], divided by the number of runs and
    rounded to two decimals. *)
Definition keyAverage (runs : list Metrics)
    (mapping : Metrics → gmap string Qc) (key : string) : Qc :=
  toFixed 2 (divide (sum ((λ m, default 0 (mapping m !! key)) <$> runs))
               (ofNat (length runs))).

(** Half the distance from 20 to the double below it, [2^-49]: a quotient
    this close to 20 is rounded to 20. *)
Definition thresholdMargin : Qc := Q2Qc (1 # 562949953421312).

(** The invariant of the request counters of a [Metrics] record. *)
Definition requestsInvariant (r : Requests) : Prop :=
  blockedRequests r + notBlockedRequests r = totalRequests r
  ∧ thirdPartyBlockedRequests r + thirdPartyNotBlockedRequests r
    = thirdPartyRequests r
  ∧ thirdPartyRequests r ≤ totalRequests r.

(** The number of hundredths that [x.toFixed(2)] writes. *)
Definition hundredthsOf (x : Qc) : Z := roundHalfAway (x * 100)%Q.

(** Written with two decimals, [x] and [y] add up to [z], give or take one
    hundredth. *)
Definition withinOneHundredth (x y z : Qc) : Prop :=
  (-1 ≤ hundredthsOf x + hundredthsOf y - hundredthsOf z ≤ 1)%Z.

(** A whole number, at most [bound]. *)
Definition wholeUpTo (bound : Z) (x : Qc) : Prop :=
  ∃ k : nat, x = ofNat k ∧ (Z.of_nat k ≤ bound)%Z.

Definition wholeNumber (x : Qc) : Prop := wholeUpTo (2 ^ 32) x.

(** Request counters that are whole numbers, as a page load counts them. *)
Definition countersUpTo (bound : Z) (r : Requests) : Prop :=
  wholeUpTo bound (totalRequests r) ∧ wholeUpTo bound (blockedRequests r)
  ∧ wholeUpTo bound (notBlockedRequests r)
  ∧ wholeUpTo bound (thirdPartyRequests r)
  ∧ wholeUpTo bound (thirdPartyBlockedRequests r)
  ∧ wholeUpTo bound (thirdPartyNotBlockedRequests r).

Definition wholeCounters (r : Requests) : Prop := countersUpTo (2 ^ 32) r.

Definition hostnamesOf (m : Metrics) : gmap string Qc := hostnames (requests m).
Definition etldPlus1sOf (m : Metrics) : gmap string Qc :=
  etldPlus1s (requests m).

(** [out] holds, for the keys of the union whose average is positive, that
    average, and nothing else. *)
Definition averagedOverUnion (runs : list Metrics)
    (mapping : Metrics → gmap string Qc) (out : gmap string Qc) : Prop :=
  dom out ⊆ keyUnion runs mapping
  ∧ ∀ key, out !! key
           = if decide (0 < keyAverage runs mapping key)
             then Some (keyAverage runs mapping key)
             else None.

(** [key] is present in exactly one of three runs, with value [3]. *)
Definition oneOfThree (runs : list Metrics)
    (mapping : Metrics → gmap string Qc) (key : string) : Prop :=
  length runs = 3%nat
  ∧ ∃ i m, runs !! i = Some m
           ∧ mapping m !! key = Some (Qc_of_Z 3)
           ∧ ∀ j m', j ≠ i → runs !! j = Some m' → mapping m' !! key = None.

(** [key] is present with value [0] in every run. *)
Definition zeroInEveryRun (runs : list Metrics)
    (mapping : Metrics → gmap string Qc) (key : string) : Prop :=
  ∀ m, m ∈ runs → mapping m !! key = Some 0.

(** All the entries of a data set, domain after domain. *)
Definition allEntries (data : MetricsData) : list Metrics :=
  map_to_list data ≫= snd.

(** The sum of a field over all the entries of a data set, added up in
    that order. *)
Definition total (data : MetricsData) (field : Metrics → Qc) : Qc :=
  sum (field <$> allEntries data).

(** The entries of a data set in the order in which [domains] lists its
    keys, and the sum of a field over them, added up in that order. *)
Definition entriesIn (domains : list string) (data : MetricsData)
    : list Metrics :=
  domains ≫= λ domain, default [] (data !! domain).

Definition totalIn (domains : list string) (data : MetricsData)
    (field : Metrics → Qc) : Qc :=
  sum (field <$> entriesIn domains data).

(** The number of keys of a mapping, summed over all the entries. *)
Definition totalKeys (data : MetricsData)
    (mapping : Metrics → gmap string Qc) : nat :=
  sum_list ((λ m, size (mapping m)) <$> allEntries data).

(** What one entry adds to the running totals. *)
Definition aggregateEntry (entry : Metrics) (aggregatedData : AggregatedData.t)
    : AggregatedData.t :=
  AggregatedData.mk
    (add (AggregatedData.totalDomContentLoadTime aggregatedData)
       (orZero (domContentLoadTimeMs entry)))
    (add (AggregatedData.totalLoadTime aggregatedData)
       (orZero (loadTimeMs entry)))
    (add (AggregatedData.totalBytes aggregatedData) (totalBytes (weight entry)))
    (add (AggregatedData.totalRequests aggregatedData)
       (totalRequests (requests entry)))
    (add (AggregatedData.totalThirdPartyRequests aggregatedData)
       (thirdPartyRequests (requests entry)))
    (add (AggregatedData.totalBlockedRequests aggregatedData)
       (blockedRequests (requests entry)))
    (AggregatedData.totalHostnames aggregatedData
       + ofNat (size (hostnamesOf entry)))
    (AggregatedData.totalEtldPlus1s aggregatedData
       + ofNat (size (etldPlus1sOf entry))).

Section Classification.

Variable getDomain : string → option string.
Variable trackersInfo : TrackersData.t.
Variable companiesInfo : CompaniesData.t.

(** The tracker a hostname resolves to: by the hostname itself, otherwise
    by its eTLD+1. *)
Definition resolvedTracker (hostname : string) : option TrackerInfo.t :=
  match ReportGenerator.lookupTruthy (TrackersData.trackers trackersInfo)
          (TrackersData.trackerDomains trackersInfo !! hostname) with
  | Some tracker => Some tracker
  | None =>
      match JsString.truthy (getDomain hostname) with
      | Some etldPlus1 =>
          ReportGenerator.lookupTruthy (TrackersData.trackers trackersInfo)
            (TrackersData.trackerDomains trackersInfo !! etldPlus1)
      | None => None
      end
  end.

(** The label before the suffix of the hostname's eTLD+1, taken as a company
    id: the name of that company. *)
Definition companyOfLabel (hostname : string) : option string :=
  match JsString.truthy (getDomain hostname) with
  | Some etldPlus1 =>
      CompanyInfo.name <$>
        CompaniesData.companies companiesInfo
          !! default EmptyString (head (JsString.split "."%char etldPlus1))
  | None => None
  end.

(** Company attribution of a hostname that resolves to a tracker, as the
    specification words it: the company of the tracker when its [companyId]
    is in the companies table, otherwise the company of the label, otherwise
    nothing. *)
Definition claimedCompanyName (hostname : string) : option string :=
  match resolvedTracker hostname with
  | Some tracker =>
      match ReportGenerator.lookupTruthy
              (CompaniesData.companies companiesInfo)
              (TrackerInfo.companyId tracker) with
      | Some company => Some (CompanyInfo.name company)
      | None => companyOfLabel hostname
      end
  | None => None
  end.

End Classification.

End Spec.

(** ** Summary of a page load ([src/puppeteer-runner.ts]) *)

Module PuppeteerRunner.
Import MetricsCollector.

(** The fields of a captured request that the summary of [collectStats]
    reads. *)
Record RequestInfo : Type := mkRequestInfo {
  requestId : string;
  requestUrl : string;
  responseUrl : option string;
  statusCode : option Z;
  thirdParty : bool;
  encodedDataLength : option Qc;
  errorText : option string
}.

Record PuppeteerResults : Type := mkPuppeteerResults {
  resultDomContentLoadTimeMs : Qc;
  resultLoadTimeMs : Qc;
  resultTotalBytes : Qc;
  resultThirdPartyBytes : Qc;
  resultRequests : Requests
}.

(** [url?.startsWith(start)] *)
Definition startsWith (start : string) (url : option string) : bool :=
  match url with
  | Some u => String.prefix start u
  | None => false
  end.

Definition isAdGuardResource (entry : RequestInfo) : bool :=
  startsWith "https://local.adguard.org/" (responseUrl entry).

(** [entry.isBlocked], as the loop computes it. *)
Definition isBlocked (entry : RequestInfo) : bool :=
  let isBlocked :=
    bool_decide (statusCode entry = Some 500%Z)
    || bool_decide (errorText entry = Some "net::ERR_NAME_NOT_RESOLVED")
    || bool_decide (errorText entry = Some "net::ERR_BLOCKED_BY_CLIENT")
    || bool_decide (errorText entry = Some "net::ERR_CONNECTION_REFUSED")
    || bool_decide (errorText entry = Some "net::ERR_UNSAFE_REDIRECT")
    || bool_decide (errorText entry = Some "net::ERR_FAILED") in
  let isBlockedByExtension :=
    (bool_decide (statusCode entry = Some 204%Z)
     && bool_decide (errorText entry = Some "net::ERR_ABORTED"))
    || startsWith "chrome-extension://" (responseUrl entry) in
  isBlocked || isBlockedByExtension.

(** [counts.set(key, (counts.get(key) || 0) + 1)] *)
Definition increment (counts : gmap string Qc) (key : string)
    : gmap string Qc :=
  <[key := orZero (counts !! key) + 1]> counts.

Section WithParse.

(** [tldts.parse]: the hostname and the registrable domain of a URL, each
    possibly [null]. *)
Variable parse : string → option string * option string.

(** One turn of the loop over the captured requests. *)
Definition countRequest (acc : PuppeteerResults) (entry : RequestInfo)
    : PuppeteerResults :=
  if isAdGuardResource entry then acc
  else
    let r := resultRequests acc in
    let third (n : Qc) : Qc := if thirdParty entry then n + 1 else n in
    let length := orZero (encodedDataLength entry) in
    let bytes := resultTotalBytes acc + length in
    let thirdBytes :=
      if thirdParty entry then resultThirdPartyBytes acc + length
      else resultThirdPartyBytes acc in
    if isBlocked entry
    then
      mkPuppeteerResults (resultDomContentLoadTimeMs acc) (resultLoadTimeMs acc)
        bytes thirdBytes
        (mkRequests (totalRequests r + 1) (blockedRequests r + 1)
           (notBlockedRequests r) (third (thirdPartyRequests r))
           (third (thirdPartyBlockedRequests r))
           (thirdPartyNotBlockedRequests r) (hostnames r) (etldPlus1s r))
    else
      let res := parse (requestUrl entry) in
      let hostnames' :=
        match JsString.truthy res.1 with
        | Some hostname => increment (hostnames r) hostname
        | None => hostnames r
        end in
      let etldPlus1s' :=
        match JsString.truthy res.2 with
        | Some domain => increment (etldPlus1s r) domain
        | None => etldPlus1s r
        end in
      mkPuppeteerResults (resultDomContentLoadTimeMs acc) (resultLoadTimeMs acc)
        bytes thirdBytes
        (mkRequests (totalRequests r + 1) (blockedRequests r)
           (notBlockedRequests r + 1) (third (thirdPartyRequests r))
           (thirdPartyBlockedRequests r)
           (third (thirdPartyNotBlockedRequests r)) hostnames' etldPlus1s').

(** The result of [collectStats] from what the page load left behind: the
    two load times and the captured requests, in the order of the map. *)
Definition collectStats (domContentLoadTimeMs loadTimeMs : Qc)
    (requests : list RequestInfo) : PuppeteerResults :=
  foldl countRequest
    (mkPuppeteerResults domContentLoadTimeMs loadTimeMs 0 0
       (mkRequests 0 0 0 0 0 0 ∅ ∅))
    requests.

End WithParse.

End PuppeteerRunner.

(** ** Storing metrics and preparing the treemap *)

Module MetricsStore.
Import MetricsCollector.

(** The update [storeMetrics] applies to the parsed content of the metrics
    file, between [JSON.parse] and [JSON.stringify]: the entry is pushed on
    the array of its domain, created when missing. *)
Definition storeMetrics (metrics : Metrics) (domain : string)
    (existingMetricsJson : MetricsData) : MetricsData :=
  match existingMetricsJson !! domain with
  | Some entries => <[domain := entries ++ [metrics]]> existingMetricsJson
  | None => <[domain := [metrics]]> existingMetricsJson
  end.

End MetricsStore.

(** The runs of one domain ([processDomainPuppeteer] of
    [src/metrics-collector.ts]). *)
Module DomainRuns.
Import MetricsCollector PuppeteerRunner.

(** [extractMetricsFromPuppeteer], with the time of the call as [now]. *)
Definition extractMetricsFromPuppeteer (now : string)
    (puppeteerResults : PuppeteerResults) (url domain testEnv : string)
    : Metrics :=
  {| MetricsCollector.url := url;
     MetricsCollector.domain := domain;
     measureTime := now;
     MetricsCollector.testEnv := testEnv;
     method := "puppeteer";
     domContentLoadTimeMs := Some (resultDomContentLoadTimeMs puppeteerResults);
     loadTimeMs := Some (resultLoadTimeMs puppeteerResults);
     weight := {| totalBytes := resultTotalBytes puppeteerResults;
                  thirdPartyBytes :=
                    Some (resultThirdPartyBytes puppeteerResults) |};
     requests := resultRequests puppeteerResults |}.

(** [processDomainPuppeteer] once the runs have returned their results: the
    results are turned into metrics, their average is computed and stored.
    [clock i] is the time at which the metrics of run [i] are extracted. An
    error is caught and logged, and the file stays as it was. *)
Definition processDomainPuppeteer (clock : nat → string)
    (url domain testEnvironment : string)
    (puppeteerResultsArray : list PuppeteerResults)
    (existingMetricsJson : MetricsData) : MetricsData :=
  let metricsArray :=
    imap (λ i puppeteerResults,
            extractMetricsFromPuppeteer (clock i) puppeteerResults
              url domain testEnvironment)
         puppeteerResultsArray in
  match computeAverageMetrics metricsArray with
  | Ok averagedMetrics =>
      MetricsStore.storeMetrics averagedMetrics domain existingMetricsJson
  | Throw _ => existingMetricsJson
  end.

End DomainRuns.

(** Captured requests for the examples below. *)
Module CapturedSamples.
Import PuppeteerRunner.

(** A stand-in for [tldts.parse] on URLs written as bare hostnames. *)
Definition parse (url : string) : option string * option string :=
  (Some url, Samples.getDomain url).

Definition request (id url : string) (response : option string)
    (status : option Z) (third : bool) (size : option Qc)
    (error : option string) : RequestInfo :=
  mkRequestInfo id url response status third size error.

(** A page load that met a resource of AdGuard, a blocked third-party
    request, a third-party request let through and a first-party request
    whose size was never reported. *)
Definition captured : list RequestInfo :=
  [ request "1" "local.adguard.org"
      (Some "https://local.adguard.org/inject.js") (Some 200%Z) true
      (Some (Samples.num 900)) None;
    request "2" "ads.tracker.com" None None true None
      (Some "net::ERR_BLOCKED_BY_CLIENT");
    request "3" "cdn.tracker.com" (Some "https://cdn.tracker.com/lib.js")
      (Some 200%Z) true (Some (Samples.num 100)) None;
    request "4" "example.com" (Some "https://example.com/") (Some 200%Z)
      false None None ].

Definition loads : list (Qc * Qc * list RequestInfo) :=
  [ (Samples.num 100, Samples.num 200, captured);
    (Samples.num 110, Samples.num 210, captured);
    (Samples.num 120, Samples.num 220, []) ].

Definition clock (i : nat) : string :=
  match i with
  | O => "2024-01-01T00:00:00.000Z"
  | _ => "2024-01-01T00:00:01.000Z"
  end.

End CapturedSamples.

(** [treemap-data-transformer.ts], the consumer of the reach maps of a
    [ReportResult]. *)
Module Treemap.

Inductive VisualizationType : Type :=
  | TrackersWebsite
  | EtldPlus1Websites
  | CompaniesWebsites.

Record HostnameData : Type := mkHostnameData {
  name : string;
  value : nat
}.

Record TreemapReadyData : Type := mkTreemapReadyData {
  rootName : string;
  children : list HostnameData
}.

(** The three maps are objects, hence truthy: [|| {}] never applies.  The
    [default] branch of the [switch] is not reached by a value of the
    enumeration. *)
Definition getRawDataForVisualizationType (report : ReportResult.t)
    (type : VisualizationType) : gmap string nat :=
  match type with
  | TrackersWebsite => ReportResult.trackersWebsitesData report
  | EtldPlus1Websites => ReportResult.etldPlus1WebsitesData report
  | CompaniesWebsites => ReportResult.companiesWebsitesData report
  end.

Definition createHierarchicalStructure (items : list HostnameData)
    : TreemapReadyData :=
  {| rootName := "root"; children := items |}.

(** The order [(a, b) => b.value - a.value] puts [a] before [b]. *)
Definition descending (a b : HostnameData) : Prop :=
  (value b ≤ value a)%nat.

#[global] Instance descending_dec : RelDecision descending.
Proof. intros a b. unfold descending. apply _. Defined.

(** [Array.prototype.sort] is modelled by a merge sort; the order it gives
    to items of equal value is not used by the properties below. *)
Definition transformReportResultForTreemap (reportResult : ReportResult.t)
    (visualizationType : VisualizationType) (minWebsitesThreshold : Qc)
    : TreemapReadyData :=
  let rawData :=
    getRawDataForVisualizationType reportResult visualizationType in
  let sortedItems :=
    merge_sort descending
      (filter (λ item, minWebsitesThreshold < ofNat (value item))
         ((λ entry, mkHostnameData entry.1 entry.2) <$> map_to_list rawData))
  in
  createHierarchicalStructure sortedItems.

(** [text.substring(0, maxLength)] for [0 <= maxLength]; on a text of ASCII
    characters, where the characters of the model are those JavaScript
    counts. *)
Fixpoint substringFromStart (maxLength : nat) (text : string) : string :=
  match maxLength, text with
  | S n, String c rest => String c (substringFromStart n rest)
  | _, _ => EmptyString
  end.

Definition getTruncatedText (text : string) (maxLength : nat) : string :=
  if decide (maxLength < String.length text)%nat
  then substringFromStart maxLength text +:+ "..."
  else text.

End Treemap.

(** ** Notions used by the further properties *)

Module Notions.
Import MetricsCollector.

(** The callback of the [reduce] of [findCommonDomains]. *)
Definition commonDomainsStep (acc : option (gset string))
    (data : MetricsData) : option (gset string) :=
  let validDomains :=
    (filter (λ entry, ReportGenerator.meetsThreshold entry.2 = true)
            (map_to_list data)).*1 in
  let domains : gset string := list_to_set validDomains in
  match acc with
  | None => Some domains
  | Some acc =>
      Some (list_to_set (filter (λ domain, domain ∈ domains) (elements acc)))
  end.

(** [domain] is a domain of [data] whose entries reach the threshold. *)
Definition validDomain (data : MetricsData) (domain : string) : Prop :=
  ∃ entries,
    data !! domain = Some entries
    ∧ ReportGenerator.meetsThreshold entries = true.

(** The captured requests that the summary counts, and those of them that
    were let through. *)
Definition counted (requests : list PuppeteerRunner.RequestInfo)
    : list PuppeteerRunner.RequestInfo :=
  filter (λ entry, PuppeteerRunner.isAdGuardResource entry = false) requests.

Definition letThrough (requests : list PuppeteerRunner.RequestInfo)
    : list PuppeteerRunner.RequestInfo :=
  filter (λ entry, PuppeteerRunner.isBlocked entry = false) (counted requests).

(** The number of requests that are given the key [key], as the value a
    counting map holds for it. *)
Definition occurrences (keyOf : PuppeteerRunner.RequestInfo → option string)
    (requests : list PuppeteerRunner.RequestInfo) (key : string)
    : option Qc :=
  match length (filter (λ entry, keyOf entry = Some key) requests) with
  | O => None
  | n => Some (ofNat n)
  end.

(** The websites recorded under a name. *)
Definition sitesOf (websites : gmap string (gset string)) (name : string)
    : gset string :=
  default ∅ (websites !! name).

(** No name is recorded with an empty set of websites. *)
Definition nonEmptySets (websites : gmap string (gset string)) : Prop :=
  ∀ name sites, websites !! name = Some sites → sites ≠ ∅.

(** One hostname of [domain]: the domain is recorded under the name the
    hostname is given, if any. *)
Definition reachStep (naming : string → option string) (domain : string)
    (websites : gmap string (gset string)) (hostname : string)
    : gmap string (gset string) :=
  match naming hostname with
  | Some name => ReportGenerator.addWebsite websites name domain
  | None => websites
  end.

(** [domain] has an entry with a hostname that is given the name [name]. *)
Definition contacts (naming : string → option string) (data : MetricsData)
    (name domain : string) : Prop :=
  ∃ entries entry hostname,
    data !! domain = Some entries
    ∧ entry ∈ entries
    ∧ is_Some (hostnames (requests entry) !! hostname)
    ∧ naming hostname = Some name.

(** The report of one input: the statistics over its common domains, tagged
    with the environment detected on them. *)
Definition reportOf (getDomain : string → option string)
    (trackersInfo : TrackersData.t) (companiesInfo : CompaniesData.t)
    (commonDomains : gset string) (data : MetricsData) : ReportResult.t :=
  let filteredData :=
    ReportGenerator.filterDataByCommonDomains data commonDomains in
  ReportResult.setType
    (ReportGenerator.computeStatistics getDomain filteredData trackersInfo
       companiesInfo)
    (ReportGenerator.determineTestEnvironment filteredData).

(** The body of the loop of [generateReportResults], for the file of index
    [indexed.1]. *)
Definition reportStep (getDomain : string → option string)
    (basename : string → string)
    (trackersInfo : TrackersData.t) (companiesInfo : CompaniesData.t)
    (allData : list MetricsData) (commonDomains : gset string)
    (acc : result (gmap string ReportResult.t)) (indexed : nat * string)
    : result (gmap string ReportResult.t) :=
  match acc with
  | Throw e => Throw e
  | Ok reportResultsMap =>
      let fileName := basename indexed.2 in
      match allData !! indexed.1 with
      | None => Throw (TypeError "Cannot convert undefined or null to object")
      | Some data =>
          let filteredData :=
            ReportGenerator.filterDataByCommonDomains data commonDomains in
          let environmentType :=
            ReportGenerator.determineTestEnvironment filteredData in
          let result :=
            ReportGenerator.computeStatistics getDomain filteredData
              trackersInfo companiesInfo in
          Ok (<[fileName := ReportResult.setType result environmentType]>
                reportResultsMap)
      end
  end.

(** The reports of the input files, each under the base name of its file;
    of two files with the same base name the later one is kept. *)
Definition reportsOf (getDomain : string → option string)
    (basename : string → string)
    (trackersInfo : TrackersData.t) (companiesInfo : CompaniesData.t)
    (commonDomains : gset string) (inputFiles : list string)
    (allData : list MetricsData) : gmap string ReportResult.t :=
  list_to_map
    (reverse
       (zip_with
          (λ file data,
             (basename file,
              reportOf getDomain trackersInfo companiesInfo commonDomains
                data))
          inputFiles allData)).

(** A reach map gives every name the number of domains that contact it, at
    least one and at most all of them, and nothing to the other names. *)
Definition countsContacts (naming : string → option string)
    (data : MetricsData) (reach : gmap string nat) : Prop :=
  ∀ name,
    match reach !! name with
    | Some count =>
        ∃ sites : gset string,
          count = size sites
          ∧ (1 ≤ count ≤ size data)%nat
          ∧ ∀ domain, domain ∈ sites ↔ contacts naming data name domain
    | None => ∀ domain, ¬ contacts naming data name domain
    end.

End Notions.

(** * Properties *)

(** Equality of two closed numbers, by evaluation of their fractions. *)
Ltac qc_compute := apply Qc_is_canon; vm_compute; reflexivity.

(** ** Powers of two and binades *)

Section Powers.

Local Open Scope Q_scope.

Lemma pow2_pos (e : Z) : 0 < 2 ^ e.
Proof. apply Qpower_0_lt. reflexivity. Qed.

Lemma pow2_neq_0 (e : Z) : ~ 2 ^ e == 0.
Proof. pose proof (pow2_pos e). lra. Qed.

Lemma pow2_add (a b : Z) : 2 ^ (a + b) == 2 ^ a * 2 ^ b.
Proof. apply Qpower_plus. discriminate. Qed.

Lemma pow2_sub (a b : Z) : 2 ^ (a - b) == 2 ^ a / 2 ^ b.
Proof. apply Qpower_minus. discriminate. Qed.

Lemma pow2_le (a b : Z) : (a <= b)%Z -> 2 ^ a <= 2 ^ b.
Proof. intros H. apply Qpower_le_compat_l; [exact H|discriminate]. Qed.

Lemma pow2_lt (a b : Z) : (a < b)%Z -> 2 ^ a < 2 ^ b.
Proof. intros H. apply Qpower_lt_compat_l; [exact H|reflexivity]. Qed.

Lemma pow2_lt_inv (a b : Z) : 2 ^ a < 2 ^ b -> (a < b)%Z.
Proof. intros H. apply (Qpower_lt_compat_l_inv 2); [exact H|reflexivity]. Qed.

Lemma pow2_inject (n : Z) : (0 <= n)%Z -> inject_Z (2 ^ n) == 2 ^ n.
Proof. intros H. apply (Zpower_Qpower 2 n H). Qed.

End Powers.

Section Magnitude.

Local Open Scope Q_scope.

Lemma Qabs_make (n : Z) (d : positive) :
  Qabs (n # d) == inject_Z (Z.abs n) / inject_Z (Z.pos d).
Proof. unfold Qabs. rewrite Qmake_Qdiv. reflexivity. Qed.

Lemma magnitude_rough (x : Q) :
  ~ x == 0 ->
  let s := (Z.log2 (Z.abs (Qnum x)) - Z.log2 (Z.pos (Qden x)))%Z in
  2 ^ (s - 1) < Qabs x /\ Qabs x < 2 ^ (s + 1).
Proof.
  destruct x as [n d]. intros Hx. cbn [Qnum Qden].
  assert (Hn : (0 < Z.abs n)%Z).
  { destruct n; [exfalso; apply Hx; reflexivity|lia|lia]. }
  destruct (Z.log2_spec _ Hn) as [Ha1 Ha2].
  destruct (Z.log2_spec (Z.pos d) ltac:(lia)) as [Hd1 Hd2].
  set (la := Z.log2 (Z.abs n)) in *. set (ld := Z.log2 (Z.pos d)) in *.
  assert (Hla : (0 <= la)%Z) by apply Z.log2_nonneg.
  assert (Hld : (0 <= ld)%Z) by apply Z.log2_nonneg.
  rewrite Qabs_make.
  assert (Ha1' : 2 ^ la <= inject_Z (Z.abs n)).
  { rewrite <-pow2_inject by lia. rewrite <-Zle_Qle. exact Ha1. }
  assert (Ha2' : inject_Z (Z.abs n) < 2 ^ (la + 1)).
  { rewrite <-pow2_inject by lia. rewrite <-Zlt_Qlt.
    replace (la + 1)%Z with (Z.succ la) by lia. exact Ha2. }
  assert (Hd1' : 2 ^ ld <= inject_Z (Z.pos d)).
  { rewrite <-pow2_inject by lia. rewrite <-Zle_Qle. exact Hd1. }
  assert (Hd2' : inject_Z (Z.pos d) < 2 ^ (ld + 1)).
  { rewrite <-pow2_inject by lia. rewrite <-Zlt_Qlt.
    replace (ld + 1)%Z with (Z.succ ld) by lia. exact Hd2. }
  assert (Hdpos : 0 < inject_Z (Z.pos d)).
  { change 0 with (inject_Z 0). rewrite <-Zlt_Qlt. lia. }
  pose proof (pow2_pos ld) as Hpld. pose proof (pow2_pos la) as Hpla.
  split.
  - apply Qlt_shift_div_l; [exact Hdpos|].
    replace (la - ld - 1)%Z with (la - (ld + 1))%Z by lia.
    rewrite pow2_sub.
    apply Qlt_le_trans with (2 ^ la / 2 ^ (ld + 1) * 2 ^ (ld + 1)).
    + apply Qmult_lt_l; [|exact Hd2'].
      apply Qlt_shift_div_l; [apply pow2_pos|]. lra.
    + field_simplify; [|apply pow2_neq_0]. lra.
  - apply Qlt_shift_div_r; [exact Hdpos|].
    replace (la - ld + 1)%Z with ((la + 1) - ld)%Z by lia.
    rewrite pow2_sub.
    apply Qlt_le_trans with (2 ^ (la + 1) / 2 ^ ld * 2 ^ ld).
    + field_simplify; [|apply pow2_neq_0]. lra.
    + apply Qmult_le_l; [|exact Hd1'].
      apply Qlt_shift_div_l; [apply pow2_pos|].
      pose proof (pow2_pos (la + 1)). lra.
Qed.

Lemma magnitude_spec (x : Q) :
  ~ x == 0 -> 2 ^ (magnitude x - 1) <= Qabs x /\ Qabs x < 2 ^ magnitude x.
Proof.
  intros Hx. destruct (magnitude_rough x Hx) as [Hlo Hhi].
  unfold magnitude. cbv zeta in Hlo, Hhi.
  set (s := (Z.log2 (Z.abs (Qnum x)) - Z.log2 (Z.pos (Qden x)))%Z) in *.
  destruct (Qle_bool (2 ^ s) (Qabs x)) eqn:Hb.
  - apply Qle_bool_iff in Hb. replace (s + 1 - 1)%Z with s by lia.
    split; [exact Hb|exact Hhi].
  - split; [apply Qlt_le_weak, Hlo|].
    apply Qnot_le_lt. intros Hle. apply Qle_bool_iff in Hle. congruence.
Qed.

Lemma magnitude_unique (x : Q) (m : Z) :
  2 ^ (m - 1) <= Qabs x -> Qabs x < 2 ^ m -> magnitude x = m.
Proof.
  intros Hlo Hhi.
  assert (Hx : ~ x == 0).
  { intros H0. rewrite H0 in Hlo. pose proof (pow2_pos (m - 1)).
    change (Qabs 0) with 0 in Hlo. lra. }
  destruct (magnitude_spec x Hx) as [Hlo' Hhi'].
  assert (H1 : (m - 1 < magnitude x)%Z).
  { apply pow2_lt_inv. lra. }
  assert (H2 : (magnitude x - 1 < m)%Z).
  { apply pow2_lt_inv. lra. }
  lia.
Qed.

End Magnitude.

(** ** Rounding to the nearest integer, ties to even *)

Section HalfEven.

Local Open Scope Q_scope.

Lemma Qfloor_bounds (q : Q) :
  inject_Z (Qfloor q) <= q /\ q < inject_Z (Qfloor q) + 1.
Proof.
  split; [apply Qfloor_le|].
  pose proof (Qlt_floor q) as H. rewrite inject_Z_plus in H. exact H.
Qed.

Lemma roundHalfEven_close (q : Q) :
  inject_Z (roundHalfEven q) - q <= 1 # 2
  /\ q - inject_Z (roundHalfEven q) <= 1 # 2.
Proof.
  destruct (Qfloor_bounds q) as [Hlo Hhi]. unfold roundHalfEven.
  destruct (Qcompare_spec (q - inject_Z (Qfloor q)) (1 # 2)) as [He|Hl|Hg].
  - destruct (Z.even (Qfloor q)); rewrite ?inject_Z_plus;
      change (inject_Z 1) with 1; lra.
  - lra.
  - rewrite inject_Z_plus. change (inject_Z 1) with 1. lra.
Qed.

Lemma integers_apart (a b : Z) :
  inject_Z a - inject_Z b < 1 -> inject_Z b - inject_Z a < 1 -> a = b.
Proof.
  intros H1 H2.
  assert (Ha : inject_Z a < inject_Z (b + 1))
    by (rewrite inject_Z_plus; change (inject_Z 1) with 1; lra).
  assert (Hb : inject_Z b < inject_Z (a + 1))
    by (rewrite inject_Z_plus; change (inject_Z 1) with 1; lra).
  rewrite <-Zlt_Qlt in Ha, Hb. lia.
Qed.

Lemma roundHalfEven_near (q : Q) (z : Z) :
  q - inject_Z z < 1 # 2 -> inject_Z z - q < 1 # 2 -> roundHalfEven q = z.
Proof.
  intros H1 H2. destruct (roundHalfEven_close q) as [H3 H4].
  apply integers_apart; lra.
Qed.

Lemma roundHalfEven_inject_Z (z : Z) : roundHalfEven (inject_Z z) = z.
Proof. apply roundHalfEven_near; lra. Qed.

Lemma roundHalfEven_proper (p q : Q) :
  p == q -> roundHalfEven p = roundHalfEven q.
Proof.
  intros Heq. unfold roundHalfEven.
  rewrite (Qfloor_comp _ _ Heq).
  assert (Hc : Qcompare (p - inject_Z (Qfloor q)) (1 # 2)
               = Qcompare (q - inject_Z (Qfloor q)) (1 # 2))
    by (rewrite Heq; reflexivity).
  rewrite Hc. reflexivity.
Qed.

Lemma roundHalfEven_mono (p q : Q) :
  p <= q -> (roundHalfEven p <= roundHalfEven q)%Z.
Proof.
  intros Hle.
  destruct (Z.le_gt_cases (roundHalfEven p) (roundHalfEven q)) as [H|H];
    [exact H|].
  destruct (roundHalfEven_close p) as [Hp1 Hp2].
  destruct (roundHalfEven_close q) as [Hq1 Hq2].
  assert (Hz : inject_Z (roundHalfEven q) + 1 <= inject_Z (roundHalfEven p)).
  { change 1 with (inject_Z 1). rewrite <-inject_Z_plus, <-Zle_Qle. lia. }
  assert (Heq : p == q) by lra.
  rewrite (roundHalfEven_proper _ _ Heq) in H. lia.
Qed.

Lemma roundHalfEven_le (q : Q) (z : Z) :
  q <= inject_Z z -> (roundHalfEven q <= z)%Z.
Proof.
  intros H. rewrite <-(roundHalfEven_inject_Z z).
  apply roundHalfEven_mono, H.
Qed.

Lemma roundHalfEven_ge (q : Q) (z : Z) :
  inject_Z z <= q -> (z <= roundHalfEven q)%Z.
Proof.
  intros H. rewrite <-(roundHalfEven_inject_Z z) at 1.
  apply roundHalfEven_mono, H.
Qed.

Lemma Qfloor_unique (q : Q) (z : Z) :
  inject_Z z <= q -> q < inject_Z z + 1 -> Qfloor q = z.
Proof.
  intros H1 H2. destruct (Qfloor_bounds q) as [H3 H4].
  apply integers_apart; lra.
Qed.

Lemma roundHalfEven_tie (q : Q) (z : Z) :
  q == inject_Z z + (1 # 2) ->
  roundHalfEven q = if Z.even z then z else (z + 1)%Z.
Proof.
  intros Hq. assert (Hf : Qfloor q = z) by (apply Qfloor_unique; lra).
  unfold roundHalfEven. rewrite Hf.
  destruct (Qcompare_spec (q - inject_Z z) (1 # 2)) as [He|Hl|Hg];
    [reflexivity|lra|lra].
Qed.

Lemma roundHalfEven_opp (q : Q) : roundHalfEven (- q) = (- roundHalfEven q)%Z.
Proof.
  destruct (Qfloor_bounds q) as [Hlo Hhi]. set (f := Qfloor q) in *.
  destruct (Qcompare_spec (q - inject_Z f) (1 # 2)) as [He|Hl|Hg].
  - assert (Hq : q == inject_Z f + (1 # 2)) by lra.
    rewrite (roundHalfEven_tie q f Hq).
    assert (Hq' : - q == inject_Z (- f - 1) + (1 # 2)).
    { unfold Z.sub. rewrite inject_Z_plus, inject_Z_opp.
      change (inject_Z (- (1))) with (- (1)). lra. }
    rewrite (roundHalfEven_tie (- q) (- f - 1) Hq').
    replace (- f - 1)%Z with (- (f + 1))%Z by lia.
    rewrite Z.even_opp, Z.even_add. change (Z.even 1) with false.
    destruct (Z.even f); cbn; lia.
  - rewrite (roundHalfEven_near q f) by lra.
    apply roundHalfEven_near; rewrite inject_Z_opp; lra.
  - rewrite (roundHalfEven_near q (f + 1))
      by (rewrite inject_Z_plus; change (inject_Z 1) with 1; lra).
    apply roundHalfEven_near; rewrite inject_Z_opp, inject_Z_plus;
      change (inject_Z 1) with 1; lra.
Qed.

End HalfEven.

(** ** Rounding to the nearest double *)

Section Binary64.

Local Open Scope Q_scope.

Lemma magnitude_opp (x : Q) : magnitude (- x) = magnitude x.
Proof.
  destruct x as [n d]. unfold magnitude, Qopp, Qabs. cbn [Qnum Qden].
  rewrite Z.abs_opp. reflexivity.
Qed.

Lemma quantum_opp (x : Q) : quantum (- x) = quantum x.
Proof. unfold quantum. rewrite magnitude_opp. reflexivity. Qed.

Lemma magnitude_proper (x y : Q) :
  ~ x == 0 -> x == y -> magnitude x = magnitude y.
Proof.
  intros Hx Hxy. destruct (magnitude_spec x Hx) as [Hlo Hhi].
  symmetry. apply magnitude_unique; rewrite <-Hxy; assumption.
Qed.

Lemma round64Q_zero (x : Q) : x == 0 -> round64Q x == 0.
Proof.
  intros Hx. unfold round64Q.
  assert (Hy : x / 2 ^ quantum x == inject_Z 0).
  { generalize (quantum x). intros e. rewrite Hx. unfold Qdiv.
    change (inject_Z 0) with 0. ring. }
  rewrite (roundHalfEven_proper _ _ Hy), roundHalfEven_inject_Z.
  change (inject_Z 0) with 0. ring.
Qed.

Lemma round64Q_proper (x y : Q) : x == y -> round64Q x == round64Q y.
Proof.
  intros Hxy. destruct (Qeq_dec x 0) as [Hx|Hx].
  - rewrite (round64Q_zero x Hx), (round64Q_zero y); [reflexivity|].
    rewrite <-Hxy. exact Hx.
  - unfold round64Q, quantum. rewrite <-(magnitude_proper x y Hx Hxy).
    assert (Hy : x / 2 ^ Z.max (magnitude x - 53) (-1074)
                 == y / 2 ^ Z.max (magnitude x - 53) (-1074)).
    { generalize (Z.max (magnitude x - 53) (-1074)). intros e.
      rewrite Hxy. reflexivity. }
    rewrite (roundHalfEven_proper _ _ Hy). reflexivity.
Qed.

#[global] Instance round64Q_Proper : Proper (Qeq ==> Qeq) round64Q.
Proof. intros x y Hxy. apply round64Q_proper, Hxy. Qed.

Lemma round64Q_opp (x : Q) : round64Q (- x) == - round64Q x.
Proof.
  unfold round64Q. rewrite quantum_opp.
  assert (Hy : - x / 2 ^ quantum x == - (x / 2 ^ quantum x))
    by (unfold Qdiv; ring).
  rewrite (roundHalfEven_proper _ _ Hy), roundHalfEven_opp, inject_Z_opp.
  ring.
Qed.

(** [x] is [scaled x] quanta. *)
Lemma scaled_back (x : Q) (e : Z) : x / 2 ^ e * 2 ^ e == x.
Proof. field. apply pow2_neq_0. Qed.

Lemma round64Q_error (x : Q) :
  round64Q x - x <= 2 ^ quantum x / 2 /\ x - round64Q x <= 2 ^ quantum x / 2.
Proof.
  unfold round64Q. set (e := quantum x).
  destruct (roundHalfEven_close (x / 2 ^ e)) as [H1 H2].
  pose proof (pow2_pos e) as Hp. pose proof (scaled_back x e) as Hx.
  set (y := x / 2 ^ e) in *. set (k := inject_Z (roundHalfEven y)) in *.
  split.
  - setoid_replace (k * 2 ^ e - x) with ((k - y) * 2 ^ e) using relation Qeq by (rewrite <-Hx; ring).
    setoid_replace (2 ^ e / 2) with ((1 # 2) * 2 ^ e) using relation Qeq by field.
    apply Qmult_le_compat_r; lra.
  - setoid_replace (x - k * 2 ^ e) with ((y - k) * 2 ^ e) using relation Qeq by (rewrite <-Hx; ring).
    setoid_replace (2 ^ e / 2) with ((1 # 2) * 2 ^ e) using relation Qeq by field.
    apply Qmult_le_compat_r; lra.
Qed.

Lemma round64Q_nonneg (x : Q) : 0 <= x -> 0 <= round64Q x.
Proof.
  intros Hx. unfold round64Q. pose proof (pow2_pos (quantum x)) as Hp.
  apply Qmult_le_0_compat; [|lra].
  change 0 with (inject_Z 0). rewrite <-Zle_Qle.
  apply roundHalfEven_ge. change (inject_Z 0) with 0.
  apply Qle_shift_div_l; [exact Hp|lra].
Qed.

Lemma round64Q_nonpos (x : Q) : x <= 0 -> round64Q x <= 0.
Proof.
  intros Hx. pose proof (round64Q_nonneg (- x) ltac:(lra)) as H.
  rewrite round64Q_opp in H. lra.
Qed.

(** Rounding to a multiple of the quantum, between multiples. *)
Lemma round64Q_le_multiple (x : Q) (k : Z) :
  x <= inject_Z k * 2 ^ quantum x -> round64Q x <= inject_Z k * 2 ^ quantum x.
Proof.
  intros Hx. unfold round64Q. pose proof (pow2_pos (quantum x)) as Hp.
  apply Qmult_le_compat_r; [|lra]. rewrite <-Zle_Qle.
  apply roundHalfEven_le. apply Qle_shift_div_r; [exact Hp|exact Hx].
Qed.

Lemma round64Q_ge_multiple (x : Q) (k : Z) :
  inject_Z k * 2 ^ quantum x <= x -> inject_Z k * 2 ^ quantum x <= round64Q x.
Proof.
  intros Hx. unfold round64Q. pose proof (pow2_pos (quantum x)) as Hp.
  apply Qmult_le_compat_r; [|lra]. rewrite <-Zle_Qle.
  apply roundHalfEven_ge. apply Qle_shift_div_l; [exact Hp|exact Hx].
Qed.

Lemma pow2_multiple (m e : Z) :
  (e <= m)%Z -> 2 ^ m == inject_Z (2 ^ (m - e)) * 2 ^ e.
Proof.
  intros H. rewrite pow2_inject by lia. rewrite <-pow2_add.
  replace (m - e + e)%Z with m by lia. reflexivity.
Qed.

Lemma Qabs_of_pos (x : Q) : 0 <= x -> Qabs x == x.
Proof. apply Qabs_pos. Qed.

Lemma round64Q_upper (x : Q) :
  0 < x -> round64Q x <= 2 ^ Z.max (magnitude x) (quantum x).
Proof.
  intros Hx.
  destruct (magnitude_spec x ltac:(lra)) as [_ Hhi].
  rewrite Qabs_of_pos in Hhi by lra.
  rewrite (pow2_multiple (Z.max (magnitude x) (quantum x)) (quantum x))
    by lia.
  apply round64Q_le_multiple.
  rewrite <-pow2_multiple by lia.
  pose proof (pow2_le (magnitude x) (Z.max (magnitude x) (quantum x))
                ltac:(lia)). lra.
Qed.

Lemma round64Q_lower (x : Q) :
  0 < x -> (quantum x <= magnitude x - 1)%Z ->
  2 ^ (magnitude x - 1) <= round64Q x.
Proof.
  intros Hx Hq.
  destruct (magnitude_spec x ltac:(lra)) as [Hlo _].
  rewrite Qabs_of_pos in Hlo by lra.
  rewrite (pow2_multiple (magnitude x - 1) (quantum x)) by lia.
  apply round64Q_ge_multiple.
  rewrite <-pow2_multiple by lia. exact Hlo.
Qed.

Lemma magnitude_mono (x y : Q) :
  0 < x -> x <= y -> (magnitude x <= magnitude y)%Z.
Proof.
  intros Hx Hxy.
  destruct (magnitude_spec x ltac:(lra)) as [Hlo _].
  destruct (magnitude_spec y ltac:(lra)) as [_ Hhi].
  rewrite Qabs_of_pos in Hlo, Hhi by lra.
  assert (H : (magnitude x - 1 < magnitude y)%Z) by (apply pow2_lt_inv; lra).
  lia.
Qed.

Lemma round64Q_mono_pos (x y : Q) :
  0 < x -> x <= y -> round64Q x <= round64Q y.
Proof.
  intros Hx Hxy. pose proof (magnitude_mono x y Hx Hxy) as Hm.
  destruct (Z.eq_dec (quantum x) (quantum y)) as [He|He].
  - unfold round64Q. rewrite He. pose proof (pow2_pos (quantum y)) as Hp.
    apply Qmult_le_compat_r; [|lra]. rewrite <-Zle_Qle.
    apply roundHalfEven_mono. apply Qmult_le_compat_r; [exact Hxy|].
    apply Qlt_le_weak, Qinv_lt_0_compat, Hp.
  - assert (Hlt : (quantum x < quantum y)%Z) by (unfold quantum in *; lia).
    apply Qle_trans with (2 ^ Z.max (magnitude x) (quantum x));
      [apply round64Q_upper, Hx|].
    apply Qle_trans with (2 ^ (magnitude y - 1)).
    + apply pow2_le. unfold quantum in *. lia.
    + apply round64Q_lower; [lra|]. unfold quantum in *. lia.
Qed.

Lemma round64Q_mono (x y : Q) : x <= y -> round64Q x <= round64Q y.
Proof.
  intros Hxy. destruct (Qlt_le_dec 0 x) as [Hx|Hx].
  - apply round64Q_mono_pos; assumption.
  - destruct (Qlt_le_dec y 0) as [Hy|Hy].
    + pose proof (round64Q_mono_pos (- y) (- x) ltac:(lra) ltac:(lra)) as H.
      rewrite !round64Q_opp in H. lra.
    + pose proof (round64Q_nonpos x Hx). pose proof (round64Q_nonneg y Hy).
      lra.
Qed.

End Binary64.

(** ** Doubles are fixed points of the rounding *)

Section Doubles.

Local Open Scope Q_scope.

Lemma magnitude_below (x : Q) (m : Z) :
  0 < x -> x < 2 ^ m -> (magnitude x <= m)%Z.
Proof.
  intros Hx Hm. destruct (magnitude_spec x ltac:(lra)) as [Hlo _].
  rewrite Qabs_of_pos in Hlo by lra.
  assert (H : (magnitude x - 1 < m)%Z) by (apply pow2_lt_inv; lra). lia.
Qed.

Lemma magnitude_above (x : Q) (m : Z) :
  2 ^ m <= x -> (m < magnitude x)%Z.
Proof.
  intros Hm. pose proof (pow2_pos m) as Hp.
  destruct (magnitude_spec x ltac:(lra)) as [_ Hhi].
  rewrite Qabs_of_pos in Hhi by lra.
  apply pow2_lt_inv. lra.
Qed.

Lemma magnitude_pow2 (m : Z) : magnitude (2 ^ m) = (m + 1)%Z.
Proof.
  pose proof (pow2_pos m) as Hp.
  apply magnitude_unique; rewrite Qabs_of_pos by lra.
  - replace (m + 1 - 1)%Z with m by lia. lra.
  - apply pow2_lt. lia.
Qed.

Lemma round64Q_multiple (v : Q) (k E : Z) :
  v == inject_Z k * 2 ^ E -> (quantum v <= E)%Z -> round64Q v == v.
Proof.
  intros Hv HE. unfold round64Q. set (e := quantum v) in *.
  assert (Hy : v / 2 ^ e == inject_Z (k * 2 ^ (E - e))).
  { rewrite inject_Z_mult, pow2_inject by lia. rewrite pow2_sub.
    generalize dependent e. intros e _. rewrite Hv. field. apply pow2_neq_0. }
  rewrite (roundHalfEven_proper _ _ Hy), roundHalfEven_inject_Z.
  rewrite <-Hy. apply scaled_back.
Qed.

Lemma round64Q_idem_pos (x : Q) :
  0 < x -> round64Q (round64Q x) == round64Q x.
Proof.
  intros Hx. pose proof (round64Q_nonneg x ltac:(lra)) as Hr.
  destruct (Qeq_dec (round64Q x) 0) as [H0|H0].
  { rewrite (round64Q_zero _ H0). symmetry. exact H0. }
  pose proof (round64Q_upper x Hx) as Hup.
  set (U := Z.max (magnitude x) (quantum x)) in *.
  assert (HU : (Z.max (U - 53) (-1074) <= quantum x)%Z)
    by (unfold U, quantum; lia).
  destruct (Qlt_le_dec (round64Q x) (2 ^ U)) as [Hlt|Hge].
  - apply (round64Q_multiple _ (roundHalfEven (x / 2 ^ quantum x)) (quantum x));
      [reflexivity|].
    pose proof (magnitude_below (round64Q x) U ltac:(lra) Hlt).
    unfold quantum at 1. lia.
  - assert (Heq : round64Q x == 2 ^ U) by lra.
    apply (round64Q_multiple _ 1 U).
    + rewrite Heq. change (inject_Z 1) with 1. ring.
    + unfold quantum at 1.
      rewrite (magnitude_proper _ _ H0 Heq), magnitude_pow2.
      unfold U, quantum. lia.
Qed.

Lemma round64Q_idem (x : Q) : round64Q (round64Q x) == round64Q x.
Proof.
  destruct (Qlt_le_dec 0 x) as [Hx|Hx].
  - apply round64Q_idem_pos, Hx.
  - destruct (Qeq_dec x 0) as [H0|H0].
    + rewrite (round64Q_proper _ 0), (round64Q_zero x H0).
      * apply round64Q_zero. reflexivity.
      * apply round64Q_zero, H0.
    + pose proof (round64Q_idem_pos (- x) ltac:(lra)) as H.
      rewrite (round64Q_proper _ _ (round64Q_opp x)) in H.
      rewrite !round64Q_opp in H. lra.
Qed.

Lemma round64Q_near (q v : Q) (k : Z) :
  v == inject_Z k * 2 ^ quantum q ->
  q - v < 2 ^ quantum q / 2 -> v - q < 2 ^ quantum q / 2 ->
  round64Q q == v.
Proof.
  intros Hv H1 H2. unfold round64Q. set (e := quantum q) in *.
  pose proof (pow2_pos e) as Hp. pose proof (scaled_back q e) as Hq.
  set (y := q / 2 ^ e) in *.
  assert (Hd : (y - inject_Z k) * 2 ^ e == q - v) by (rewrite Hv, <-Hq; ring).
  assert (Hh : (1 # 2) * 2 ^ e == 2 ^ e / 2) by field.
  rewrite (roundHalfEven_near y k); [symmetry; exact Hv| |].
  - apply (Qmult_lt_r _ _ (2 ^ e) Hp). rewrite Hd, Hh. exact H1.
  - apply (Qmult_lt_r _ _ (2 ^ e) Hp). rewrite Hh.
    setoid_replace ((inject_Z k - y) * 2 ^ e) with (v - q) using relation Qeq
      by (rewrite Hv, <-Hq; ring).
    exact H2.
Qed.

Lemma round64Q_integer (z : Z) :
  (Z.abs z < 2 ^ 53)%Z -> round64Q (inject_Z z) == inject_Z z.
Proof.
  intros Hz. destruct (Z.eq_dec z 0%Z) as [->|Hz0].
  { apply round64Q_zero. reflexivity. }
  apply (round64Q_multiple _ z 0).
  - change (2 ^ 0) with 1. ring.
  - assert (Hm : (magnitude (inject_Z z) <= 53)%Z).
    { assert (Habs : Qabs (inject_Z z) == inject_Z (Z.abs z)) by reflexivity.
      assert (Hx : ~ inject_Z z == 0).
      { intros H. change 0 with (inject_Z 0) in H.
        rewrite inject_Z_injective in H. lia. }
      destruct (magnitude_spec _ Hx) as [Hlo _]. rewrite Habs in Hlo.
      assert (Hlt : inject_Z (Z.abs z) < 2 ^ 53).
      { rewrite <-pow2_inject by lia. rewrite <-Zlt_Qlt. exact Hz. }
      assert (H : (magnitude (inject_Z z) - 1 < 53)%Z)
        by (apply pow2_lt_inv; lra).
      lia. }
    unfold quantum. lia.
Qed.

End Doubles.

(** ** Rounding to the nearest integer, ties away from zero *)

Section Rounding.

Local Open Scope Q_scope.

Lemma div_le_cross (a b c e : Z) :
  (0 < b)%Z -> (0 < e)%Z -> (a * e <= c * b)%Z -> (a / b <= c / e)%Z.
Proof.
  intros Hb He Hle.
  apply Z.div_le_lower_bound; [assumption|].
  pose proof (Z.mul_div_le a b Hb) as Hq.
  assert (Hstep : (b * (e * (a / b)) <= b * c)%Z) by nia.
  nia.
Qed.

Lemma roundHalfAway_mono (p q : Q) :
  (p <= q)%Q -> (roundHalfAway p <= roundHalfAway q)%Z.
Proof.
  destruct p as [n1 d1], q as [n2 d2]. unfold Qle, roundHalfAway. cbn [Qnum Qden].
  intros Hle.
  destruct (Z.leb_spec 0 n1) as [H1|H1], (Z.leb_spec 0 n2) as [H2|H2].
  - apply div_le_cross; lia.
  - nia.
  - pose proof (Z.div_pos (2 * - n1 + Z.pos d1) (2 * Z.pos d1)).
    pose proof (Z.div_pos (2 * n2 + Z.pos d2) (2 * Z.pos d2)). lia.
  - apply Z.opp_le_mono. rewrite !Z.opp_involutive.
    apply div_le_cross; lia.
Qed.

Lemma roundHalfAway_proper (p q : Q) :
  (p == q)%Q -> roundHalfAway p = roundHalfAway q.
Proof.
  intros Heq. apply Z.le_antisymm; apply roundHalfAway_mono; rewrite Heq;
    apply Qle_refl.
Qed.

Lemma roundHalfAway_close (q : Q) :
  (inject_Z (roundHalfAway q) - q <= 1 # 2)%Q /\
  (q - inject_Z (roundHalfAway q) <= 1 # 2)%Q.
Proof.
  destruct q as [n d]. unfold roundHalfAway. simpl.
  assert (Hd : (0 < 2 * Z.pos d)%Z) by lia.
  destruct (Z.leb_spec 0 n) as [Hn|Hn].
  - pose proof (Z.mul_div_le (2 * n + Z.pos d) _ Hd) as Hlo.
    pose proof (Z.mul_succ_div_gt (2 * n + Z.pos d) _ Hd) as Hhi.
    set (r := ((2 * n + Z.pos d) / (2 * Z.pos d))%Z) in *.
    unfold Qle, Qminus, Qplus, Qopp, inject_Z; simpl. split; nia.
  - pose proof (Z.mul_div_le (2 * - n + Z.pos d) _ Hd) as Hlo.
    pose proof (Z.mul_succ_div_gt (2 * - n + Z.pos d) _ Hd) as Hhi.
    set (r := ((2 * - n + Z.pos d) / (2 * Z.pos d))%Z) in *.
    unfold Qle, Qminus, Qplus, Qopp, inject_Z; simpl. split; nia.
Qed.

Lemma roundHalfAway_near (q : Q) (z : Z) :
  q - inject_Z z < 1 # 2 -> inject_Z z - q < 1 # 2 -> roundHalfAway q = z.
Proof.
  intros H1 H2. destruct (roundHalfAway_close q) as [H3 H4].
  apply integers_apart; lra.
Qed.

Lemma roundHalfAway_inject_Z (z : Z) : roundHalfAway (inject_Z z) = z.
Proof. apply roundHalfAway_near; lra. Qed.

Lemma roundHalfAway_opp (q : Q) : roundHalfAway (- q) = (- roundHalfAway q)%Z.
Proof.
  destruct q as [n d]. unfold roundHalfAway, Qopp. cbn [Qnum Qden].
  destruct (Z.leb_spec 0 n) as [Hn|Hn], (Z.leb_spec 0 (- n)) as [Hn'|Hn'];
    try lia; rewrite ?Z.opp_involutive; try reflexivity.
  assert (n = 0%Z) as -> by lia. change (- 0)%Z with 0%Z.
  rewrite (Z.div_small (2 * 0 + Z.pos d)) by lia. reflexivity.
Qed.

Lemma toFixedQ_proper (digits : nat) (x y : Q) :
  x == y -> toFixedQ digits x == toFixedQ digits y.
Proof.
  intros Hxy. unfold toFixedQ.
  rewrite (roundHalfAway_proper (x * inject_Z (10 ^ Z.of_nat digits))
             (y * inject_Z (10 ^ Z.of_nat digits)))
    by (rewrite Hxy; reflexivity).
  reflexivity.
Qed.

#[global] Instance toFixedQ_Proper (digits : nat) :
  Proper (Qeq ==> Qeq) (toFixedQ digits).
Proof. intros x y Hxy. apply toFixedQ_proper, Hxy. Qed.

End Rounding.

(** ** Numbers of two decimals *)

Section TwoDecimals.

Local Open Scope Q_scope.

Lemma decimalQ_two (n : Z) : decimalQ 2 n = round64Q (inject_Z n / 100).
Proof. reflexivity. Qed.

Lemma toFixedQ_two (x : Q) :
  toFixedQ 2 x = decimalQ 2 (roundHalfAway (x * 100)).
Proof. reflexivity. Qed.

Lemma decimalQ_opp (n : Z) : decimalQ 2 (- n) == - decimalQ 2 n.
Proof.
  rewrite !decimalQ_two. rewrite <-round64Q_opp. apply round64Q_proper.
  rewrite inject_Z_opp. field.
Qed.

Lemma toFixedQ_opp (x : Q) : toFixedQ 2 (- x) == - toFixedQ 2 x.
Proof.
  rewrite !toFixedQ_two.
  rewrite (roundHalfAway_proper (- x * 100) (- (x * 100))) by ring.
  rewrite roundHalfAway_opp. apply decimalQ_opp.
Qed.


(** Below 2^46 the double nearest to a number of two decimals is within
    half a hundredth of it: its hundredths are read back from it. *)
Lemma decimalQ_hundredths_pos (n : Z) :
  (0 < n)%Z -> inject_Z n / 100 < 2 ^ 46 ->
  roundHalfAway (decimalQ 2 n * 100) = n.
Proof.
  intros Hn Hsmall. rewrite decimalQ_two.
  set (q := inject_Z n / 100) in *.
  assert (Hq : 0 < q).
  { unfold q. apply Qlt_shift_div_l; [reflexivity|].
    change (0 * 100) with (inject_Z 0). rewrite <-Zlt_Qlt. exact Hn. }
  pose proof (magnitude_below q 46 Hq Hsmall) as Hm.
  destruct (round64Q_error q) as [H1 H2].
  assert (He : 2 ^ quantum q <= 1 # 128).
  { assert (Hqe : (quantum q <= -7)%Z) by (unfold quantum; lia).
    apply Qle_trans with (2 ^ (-7)); [apply pow2_le, Hqe|].
    vm_compute. discriminate. }
  assert (Hh : 2 ^ quantum q / 2 == (1 # 2) * 2 ^ quantum q) by field.
  rewrite Hh in H1, H2.
  assert (Hn' : inject_Z n == q * 100) by (unfold q; field).
  apply roundHalfAway_near; rewrite Hn'; lra.
Qed.

Lemma decimalQ_fixed_small (n : Z) :
  (0 < n)%Z -> inject_Z n / 100 < 2 ^ 46 ->
  toFixedQ 2 (decimalQ 2 n) == decimalQ 2 n.
Proof.
  intros Hn Hsmall. rewrite toFixedQ_two.
  rewrite decimalQ_hundredths_pos by assumption. reflexivity.
Qed.

(** From 2^46 on, doubles are at least 1/64 apart, and a number of two
    decimals within half a hundredth of a double rounds to that double. *)
Lemma double_fixed_large (v : Q) :
  round64Q v == v -> 2 ^ 46 <= v -> toFixedQ 2 v == v.
Proof.
  intros Hv Hlarge. rewrite toFixedQ_two, decimalQ_two.
  assert (Hpos : 0 < v) by (pose proof (pow2_pos 46); lra).
  pose proof (magnitude_above v 46 Hlarge) as Hm.
  destruct (magnitude_spec v ltac:(lra)) as [Hlo Hhi].
  rewrite Qabs_of_pos in Hlo, Hhi by lra.
  set (M := magnitude v) in *.
  assert (HE : quantum v = (M - 53)%Z) by (unfold quantum; fold M; lia).
  set (K := roundHalfEven (v / 2 ^ quantum v)).
  assert (HK : v == inject_Z K * 2 ^ (M - 53)).
  { rewrite <-Hv at 1. unfold round64Q. fold K. rewrite HE. reflexivity. }
  set (n' := roundHalfAway (v * 100)).
  destruct (roundHalfAway_close (v * 100)) as [Hc1 Hc2]. fold n' in Hc1, Hc2.
  set (q' := inject_Z n' / 100).
  assert (Hq' : inject_Z n' == q' * 100) by (unfold q'; field).
  rewrite Hq' in Hc1, Hc2.
  assert (Hquantum : 1 # 64 <= 2 ^ (M - 53)).
  { apply Qle_trans with (2 ^ (-6)); [vm_compute; discriminate|].
    apply pow2_le. lia. }
  destruct (Qlt_le_dec (2 ^ (M - 1)) v) as [Hgt|Hle].
  - (* not a power of two: the neighbours are a quantum away *)
    assert (H52 : 2 ^ (M - 1) == inject_Z (2 ^ 52) * 2 ^ (M - 53)).
    { rewrite (pow2_multiple (M - 1) (M - 53)) by lia.
      replace (M - 1 - (M - 53))%Z with 52%Z by lia. reflexivity. }
    assert (H53 : 2 ^ M == inject_Z (2 ^ 53) * 2 ^ (M - 53)).
    { rewrite (pow2_multiple M (M - 53)) by lia.
      replace (M - (M - 53))%Z with 53%Z by lia. reflexivity. }
    pose proof (pow2_pos (M - 53)) as Hp.
    assert (HK1 : (2 ^ 52 + 1 <= K)%Z).
    { assert (H : inject_Z (2 ^ 52) < inject_Z K).
      { apply (Qmult_lt_r _ _ (2 ^ (M - 53)) Hp). rewrite <-H52, <-HK.
        exact Hgt. }
      rewrite <-Zlt_Qlt in H. lia. }
    assert (HK2 : (K <= 2 ^ 53 - 1)%Z).
    { assert (H : inject_Z K < inject_Z (2 ^ 53)).
      { apply (Qmult_lt_r _ _ (2 ^ (M - 53)) Hp). rewrite <-H53, <-HK.
        exact Hhi. }
      rewrite <-Zlt_Qlt in H. lia. }
    assert (Hv1 : 2 ^ (M - 1) + 2 ^ (M - 53) <= v).
    { rewrite HK, H52.
      setoid_replace (inject_Z (2 ^ 52) * 2 ^ (M - 53) + 2 ^ (M - 53))
        with (inject_Z (2 ^ 52 + 1) * 2 ^ (M - 53)) using relation Qeq
        by (rewrite inject_Z_plus; change (inject_Z 1) with 1; ring).
      apply Qmult_le_compat_r; [|lra]. rewrite <-Zle_Qle. exact HK1. }
    assert (Hv2 : v <= 2 ^ M - 2 ^ (M - 53)).
    { rewrite HK at 1. rewrite H53.
      setoid_replace (inject_Z (2 ^ 53) * 2 ^ (M - 53) - 2 ^ (M - 53))
        with (inject_Z (2 ^ 53 - 1) * 2 ^ (M - 53)) using relation Qeq
        by (unfold Z.sub; rewrite inject_Z_plus;
            change (inject_Z (- (1))) with (- (1)); ring).
      apply Qmult_le_compat_r; [|lra]. rewrite <-Zle_Qle. exact HK2. }
    assert (Hmq : magnitude q' = M).
    { apply magnitude_unique; rewrite Qabs_of_pos by lra; lra. }
    assert (Hqq : quantum q' = (M - 53)%Z) by (unfold quantum; rewrite Hmq; lia).
    apply (round64Q_near q' v K); rewrite Hqq.
    + exact HK.
    + assert (Hh : 2 ^ (M - 53) / 2 == (1 # 2) * 2 ^ (M - 53)) by field.
      rewrite Hh. lra.
    + assert (Hh : 2 ^ (M - 53) / 2 == (1 # 2) * 2 ^ (M - 53)) by field.
      rewrite Hh. lra.
  - (* a power of two, hence an integer *)
    assert (Hpow : v == 2 ^ (M - 1)) by lra.
    assert (Hint : v * 100 == inject_Z (2 ^ (M - 1) * 100)).
    { rewrite inject_Z_mult, pow2_inject by lia. rewrite Hpow.
      reflexivity. }
    assert (Hn' : n' = (2 ^ (M - 1) * 100)%Z).
    { unfold n'. rewrite (roundHalfAway_proper _ _ Hint).
      apply roundHalfAway_inject_Z. }
    assert (Heq : q' == v).
    { unfold q'. rewrite Hn', <-Hint. field. }
    rewrite (round64Q_proper _ _ Heq). exact Hv.
Qed.

Lemma pow2_46_double : round64Q (2 ^ 46) == 2 ^ 46.
Proof.
  rewrite (round64Q_proper (2 ^ 46) (inject_Z (2 ^ 46)))
    by (symmetry; apply pow2_inject; lia).
  rewrite round64Q_integer; [apply pow2_inject; lia|].
  vm_compute. reflexivity.
Qed.

Lemma decimalQ_fixed_pos (n : Z) :
  (0 < n)%Z -> toFixedQ 2 (decimalQ 2 n) == decimalQ 2 n.
Proof.
  intros Hn. destruct (Qlt_le_dec (inject_Z n / 100) (2 ^ 46)) as [Hs|Hl].
  - apply decimalQ_fixed_small; assumption.
  - apply double_fixed_large.
    + apply round64Q_idem.
    + rewrite decimalQ_two, <-pow2_46_double. apply round64Q_mono, Hl.
Qed.

Lemma decimalQ_fixed (n : Z) : toFixedQ 2 (decimalQ 2 n) == decimalQ 2 n.
Proof.
  destruct (Z.lt_trichotomy n 0) as [Hn|[->|Hn]].
  - pose proof (decimalQ_fixed_pos (- n) ltac:(lia)) as H.
    rewrite (toFixedQ_proper 2 _ _ (decimalQ_opp n)) in H.
    rewrite toFixedQ_opp, decimalQ_opp in H. lra.
  - vm_compute. reflexivity.
  - apply decimalQ_fixed_pos, Hn.
Qed.

Lemma toFixedQ_idem (x : Q) : toFixedQ 2 (toFixedQ 2 x) == toFixedQ 2 x.
Proof. apply decimalQ_fixed. Qed.

End TwoDecimals.

(** ** The hundredths of an average *)

Section Hundredths.

Local Open Scope Q_scope.

Lemma decimalQ_hundredths (n : Z) :
  - 2 ^ 46 < inject_Z n / 100 -> inject_Z n / 100 < 2 ^ 46 ->
  roundHalfAway (decimalQ 2 n * 100) = n.
Proof.
  intros Hlo Hhi. destruct (Z.lt_trichotomy n 0) as [Hn|[->|Hn]].
  - apply Z.opp_inj. rewrite <-roundHalfAway_opp.
    rewrite (roundHalfAway_proper _ (decimalQ 2 (- n) * 100))
      by (rewrite decimalQ_opp; ring).
    apply decimalQ_hundredths_pos; [lia|].
    assert (H : inject_Z (- n) / 100 == - (inject_Z n / 100))
      by (rewrite inject_Z_opp; field).
    rewrite H. lra.
  - vm_compute. reflexivity.
  - apply decimalQ_hundredths_pos; assumption.
Qed.

(** Below 2^33 a double is within 2^-21 of the number it rounds. *)
Lemma round64Q_error_small (x : Q) :
  0 <= x -> x <= 2 ^ 32 ->
  round64Q x - x <= 1 # 2097152 /\ x - round64Q x <= 1 # 2097152.
Proof.
  intros H0 H32. destruct (Qeq_dec x 0) as [Hx|Hx].
  { rewrite (round64Q_zero x Hx), Hx. split; vm_compute; discriminate. }
  assert (Hlt : x < 2 ^ 33).
  { pose proof (pow2_lt 32 33 ltac:(lia)). lra. }
  pose proof (magnitude_below x 33 ltac:(lra) Hlt) as Hm.
  destruct (round64Q_error x) as [H1 H2].
  assert (He : 2 ^ quantum x <= 1 # 1048576).
  { assert (Hqe : (quantum x <= -20)%Z) by (unfold quantum; lia).
    apply Qle_trans with (2 ^ (-20)); [apply pow2_le, Hqe|].
    vm_compute. discriminate. }
  assert (Hh : 2 ^ quantum x / 2 == (1 # 2) * 2 ^ quantum x) by field.
  rewrite Hh in H1, H2. lra.
Qed.

Lemma pow2_32_double : round64Q (2 ^ 32) == 2 ^ 32.
Proof.
  rewrite (round64Q_proper (2 ^ 32) (inject_Z (2 ^ 32)))
    by (symmetry; apply pow2_inject; lia).
  rewrite round64Q_integer; [apply pow2_inject; lia|].
  vm_compute. reflexivity.
Qed.

(** The hundredths written for the double of [x] are within a half, and a
    little, of [100 x]. *)
Lemma hundredths_close (x : Q) :
  0 <= x -> x <= 2 ^ 32 ->
  let h := roundHalfAway (toFixedQ 2 (round64Q x) * 100) in
  inject_Z h - 100 * x <= 51 # 100 /\ 100 * x - inject_Z h <= 51 # 100.
Proof.
  intros H0 H32. cbv zeta.
  destruct (round64Q_error_small x H0 H32) as [He1 He2].
  pose proof (round64Q_nonneg x H0) as Hd0.
  assert (Hd32 : round64Q x <= 2 ^ 32).
  { rewrite <-pow2_32_double. apply round64Q_mono, H32. }
  set (d := round64Q x) in *.
  rewrite toFixedQ_two.
  destruct (roundHalfAway_close (d * 100)) as [Hc1 Hc2].
  set (n := roundHalfAway (d * 100)) in *.
  assert (Hp32 : 2 ^ 32 == 4294967296) by (vm_compute; reflexivity).
  assert (Hp46 : 2 ^ 46 == 70368744177664) by (vm_compute; reflexivity).
  assert (Hn100 : inject_Z n / 100 * 100 == inject_Z n) by field.
  rewrite decimalQ_hundredths; [lra| |]; rewrite Hp46.
  - apply Qlt_shift_div_l; [reflexivity|]. lra.
  - apply Qlt_shift_div_r; [reflexivity|]. lra.
Qed.

(** Hence the hundredths of two parts add up to the hundredths of the
    whole, give or take one. *)
Lemma hundredths_of_parts (x y : Q) :
  0 <= x -> 0 <= y -> x + y <= 2 ^ 32 ->
  let h := fun v => roundHalfAway (toFixedQ 2 (round64Q v) * 100) in
  (-1 <= h x + h y - h (x + y)%Q <= 1)%Z.
Proof.
  intros Hx Hy Hxy. cbv zeta.
  destruct (hundredths_close x Hx ltac:(lra)) as [Hx1 Hx2].
  destruct (hundredths_close y Hy ltac:(lra)) as [Hy1 Hy2].
  destruct (hundredths_close (x + y) ltac:(lra) Hxy) as [Hs1 Hs2].
  cbv zeta in *.
  set (a := roundHalfAway (toFixedQ 2 (round64Q x) * 100)) in *.
  set (b := roundHalfAway (toFixedQ 2 (round64Q y) * 100)) in *.
  set (c := roundHalfAway (toFixedQ 2 (round64Q (x + y)) * 100)) in *.
  assert (Hlt : inject_Z (a + b - c) < inject_Z 2).
  { unfold Z.sub. rewrite !inject_Z_plus, inject_Z_opp.
    change (inject_Z 2) with 2. lra. }
  assert (Hgt : inject_Z (-2) < inject_Z (a + b - c)).
  { unfold Z.sub. rewrite !inject_Z_plus, inject_Z_opp.
    change (inject_Z (-2)) with (-2). lra. }
  rewrite <-Zlt_Qlt in Hlt, Hgt. lia.
Qed.

End Hundredths.

(** ** Arithmetic on doubles *)

Section FixedPoint.

Lemma this_Qc_of_Z (z : Z) : this (Qc_of_Z z) = inject_Z z.
Proof. reflexivity. Qed.

Lemma this_Q2Qc (q : Q) : (this (Q2Qc q) == q)%Q.
Proof. apply Qred_correct. Qed.

Lemma ofNat_pos (n : nat) : (0 < n)%nat → 0 < ofNat n.
Proof.
  intros Hn. unfold ofNat. rewrite <-Z2Qc_inj_0, <-Z2Qc_inj_lt. lia.
Qed.

Lemma Qcdiv_le_mono_r (x y z : Qc) : 0 < z → x ≤ y → x / z ≤ y / z.
Proof.
  intros Hz Hxy. apply Qcmult_lt_0_le_reg_r with z; [done|].
  assert (Hne : z ≠ 0) by apply not_symmetry, Qclt_not_eq, Hz.
  replace (x / z * z) with x by (field; done).
  replace (y / z * z) with y by (field; done). done.
Qed.

Lemma round64_idem (x : Qc) : round64 (round64 x) = round64 x.
Proof.
  apply Qc_is_canon. unfold round64. rewrite !this_Q2Qc.
  apply round64Q_idem.
Qed.

Lemma round64_mono (x y : Qc) : x ≤ y → round64 x ≤ round64 y.
Proof.
  intros Hxy. unfold round64, Qcle. rewrite !this_Q2Qc.
  apply round64Q_mono, Hxy.
Qed.

Lemma round64_0 : round64 0 = 0.
Proof. qc_compute. Qed.

Lemma round64_integer (z : Z) :
  (Z.abs z < 2 ^ 53)%Z → round64 (Qc_of_Z z) = Qc_of_Z z.
Proof.
  intros Hz. apply Qc_is_canon. unfold round64. rewrite this_Q2Qc.
  apply round64Q_integer, Hz.
Qed.

(** Adding [0] to a double, and dividing it by [1], give that double. *)
Lemma add_0_l (v : Qc) : round64 v = v → add 0 v = v.
Proof. intros Hv. unfold add. by rewrite Qcplus_0_l. Qed.

Lemma divide_1 (v : Qc) : round64 v = v → divide v (ofNat 1) = v.
Proof.
  intros Hv. unfold divide. replace (v / ofNat 1) with v; [done|].
  change (ofNat 1) with (Qc_of_Z 1). rewrite Z2Qc_inj_1. field.
  intros H. apply (f_equal this) in H. vm_compute in H. discriminate H.
Qed.

Lemma add_double (x y : Qc) : round64 (add x y) = add x y.
Proof. apply round64_idem. Qed.

Lemma add_mono (x x' y y' : Qc) : x ≤ x' → y ≤ y' → add x y ≤ add x' y'.
Proof. intros Hx Hy. apply round64_mono. by apply Qcplus_le_compat. Qed.

Lemma divide_mono (x y z : Qc) : 0 < z → x ≤ y → divide x z ≤ divide y z.
Proof. intros Hz Hxy. apply round64_mono. by apply Qcdiv_le_mono_r. Qed.

Lemma divide_0 (z : Qc) : divide 0 z = 0.
Proof.
  unfold divide. replace (0 / z) with 0 by (unfold Qcdiv; ring).
  apply round64_0.
Qed.

Lemma toFixed_double (digits : nat) (x : Qc) :
  round64 (toFixed digits x) = toFixed digits x.
Proof.
  apply Qc_is_canon. unfold round64, toFixed. rewrite !this_Q2Qc.
  apply round64Q_idem.
Qed.

Lemma toFixed_0 (digits : nat) : toFixed digits 0 = 0.
Proof.
  apply Qc_is_canon. unfold toFixed. rewrite this_Q2Qc.
  unfold toFixedQ, decimalQ.
  rewrite (roundHalfAway_proper _ (inject_Z 0)) by apply Qmult_0_l.
  rewrite roundHalfAway_inject_Z. apply round64Q_zero.
  unfold Qdiv. apply Qmult_0_l.
Qed.

Lemma toFixed_mono (digits : nat) (x y : Qc) :
  x ≤ y → toFixed digits x ≤ toFixed digits y.
Proof.
  intros Hxy. unfold toFixed, Qcle. rewrite !this_Q2Qc.
  unfold toFixedQ, decimalQ. apply round64Q_mono.
  assert (Hp : (0 < inject_Z (10 ^ Z.of_nat digits))%Q).
  { change 0%Q with (inject_Z 0). rewrite <-Zlt_Qlt.
    apply Z.pow_pos_nonneg; lia. }
  apply Qmult_le_compat_r.
  - rewrite <-Zle_Qle. apply roundHalfAway_mono.
    apply Qmult_le_compat_r; [exact Hxy|]. by apply Qlt_le_weak.
  - by apply Qlt_le_weak, Qinv_lt_0_compat.
Qed.

(** A number that [toFixed(2)] has produced is left as it is by
    [toFixed(2)]. *)
Lemma toFixed_idem (x : Qc) : toFixed 2 (toFixed 2 x) = toFixed 2 x.
Proof.
  apply Qc_is_canon. unfold toFixed. rewrite !this_Q2Qc.
  apply toFixedQ_idem.
Qed.

(** [toFixed(0)] leaves a whole number that is a double as it is. *)
Lemma toFixed_integer (z : Z) :
  round64 (Qc_of_Z z) = Qc_of_Z z → toFixed 0 (Qc_of_Z z) = Qc_of_Z z.
Proof.
  intros Hz. rewrite <-Hz at 2. apply Qc_is_canon.
  unfold toFixed, round64. rewrite !this_Q2Qc.
  unfold toFixedQ, decimalQ. apply round64Q_proper.
  change (inject_Z (10 ^ Z.of_nat 0)) with 1%Q.
  rewrite (roundHalfAway_proper _ (inject_Z z))
    by (rewrite this_Qc_of_Z; ring).
  rewrite roundHalfAway_inject_Z, this_Qc_of_Z. field.
Qed.

End FixedPoint.

(** ** The run averager *)

Import MetricsCollector.

Section Sums.

Lemma sumQc_nil : sumQc [] = 0.
Proof. reflexivity. Qed.

Lemma sumQc_cons (x : Qc) (l : list Qc) : sumQc (x :: l) = x + sumQc l.
Proof. reflexivity. Qed.

Lemma sumQc_snoc (values : list Qc) (x : Qc) :
  sumQc (values ++ [x]) = sumQc values + x.
Proof.
  induction values as [|v values IH]; [rewrite app_nil_l, sumQc_cons; ring|].
  rewrite <-app_comm_cons, !sumQc_cons, IH. ring.
Qed.

Lemma sumQc_plus {A} (f g : A → Qc) (l : list A) :
  sumQc ((λ x, f x + g x) <$> l) = sumQc (f <$> l) + sumQc (g <$> l).
Proof.
  induction l as [|x l IH].
  - rewrite !fmap_nil, sumQc_nil. ring.
  - rewrite !fmap_cons, !sumQc_cons, IH. ring.
Qed.

Lemma sumQc_ext {A} (f g : A → Qc) (l : list A) :
  Forall (λ x, f x = g x) l → sumQc (f <$> l) = sumQc (g <$> l).
Proof.
  induction 1 as [|x l Hx _ IH]; [done|].
  rewrite !fmap_cons, !sumQc_cons. congruence.
Qed.

Lemma sum_snoc (values : list Qc) (x : Qc) :
  sum (values ++ [x]) = add (sum values) x.
Proof. unfold sum. by rewrite foldl_app. Qed.

Lemma foldl_add {A} (f : A → Qc) (l : list A) (start : Qc) :
  foldl (λ acc x, add acc (f x)) start l = foldl add start (f <$> l).
Proof.
  revert start. induction l as [|x l IH]; intros start; [done|].
  rewrite fmap_cons. cbn [foldl]. apply IH.
Qed.

Lemma sum_fold {A} (f : A → Qc) (l : list A) :
  foldl (λ acc x, add acc (f x)) 0 l = sum (f <$> l).
Proof. apply foldl_add. Qed.

(** A sum is a double. *)
Lemma sum_double (values : list Qc) : round64 (sum values) = sum values.
Proof.
  induction values as [|x values _] using rev_ind; [apply round64_0|].
  rewrite sum_snoc. apply add_double.
Qed.

Lemma foldl_add_mono (l l' : list Qc) (start start' : Qc) :
  start ≤ start' → Forall2 Qcle l l' →
  foldl add start l ≤ foldl add start' l'.
Proof.
  intros Hstart Hall. revert start start' Hstart.
  induction Hall as [|x x' l l' Hx _ IH]; intros start start' Hstart;
    [done|].
  cbn [foldl]. apply IH. by apply add_mono.
Qed.

Lemma sum_mono {A} (f g : A → Qc) (l : list A) :
  Forall (λ x, f x ≤ g x) l → sum (f <$> l) ≤ sum (g <$> l).
Proof.
  intros Hall. apply foldl_add_mono; [apply Qcle_refl|].
  induction Hall as [|x l Hx _ IH]; [constructor|].
  rewrite !fmap_cons. by constructor.
Qed.

Lemma sum_ext {A} (f g : A → Qc) (l : list A) :
  Forall (λ x, f x = g x) l → sum (f <$> l) = sum (g <$> l).
Proof.
  intros Hall. f_equal. induction Hall as [|x l Hx _ IH]; [done|].
  rewrite !fmap_cons. congruence.
Qed.

Lemma sum_zero {A} (f : A → Qc) (l : list A) :
  Forall (λ x, f x = 0) l → sum (f <$> l) = 0.
Proof.
  intros Hall. induction l as [|x l IH] using rev_ind; [done|].
  apply Forall_app in Hall as [Hl Hx].
  rewrite Forall_singleton in Hx.
  rewrite fmap_app, fmap_cons, fmap_nil, sum_snoc, (IH Hl), Hx.
  apply add_0_l, round64_0.
Qed.

End Sums.

(** ** Doubles at work

    Results of the arithmetic on numbers that are not doubles in decimal
    notation, as JavaScript computes them. *)

Section DoublesAtWork.

(** [18.31 + 1.92 + 5.27] is [25.499999999999996], which [toFixed(0)]
    writes as 25. *)
Example sum_below_half :
  sum [decimal 2 1831; decimal 2 192; decimal 2 527] < Qc_of_Z 51 / Qc_of_Z 2
  ∧ toFixed 0 (sum [decimal 2 1831; decimal 2 192; decimal 2 527])
    = Qc_of_Z 25.
Proof. split; [by vm_compute|qc_compute]. Qed.

(** [3 / 40] is the double below [0.075]: [(3 / 40).toFixed(2)] is
    [0.07]. *)
Example three_fortieths :
  toFixed 2 (divide (Qc_of_Z 3) (Qc_of_Z 40)) = decimal 2 7.
Proof. qc_compute. Qed.

(** [(1.005).toFixed(2)] is [1.00]. *)
Example toFixed_below_tie : toFixed 2 (decimal 3 1005) = Qc_of_Z 1.
Proof. qc_compute. Qed.

(** The mean of [0.01] and [0.02] is written [0.01]. *)
Example mean_of_two_cents :
  Spec.meanOfDefined [decimal 2 1; decimal 2 2] = decimal 2 1.
Proof. qc_compute. Qed.

(** The mean of seven times [33.325] is written [33.32]. *)
Example mean_of_equal_values :
  Spec.meanOfDefined (replicate 7 (decimal 3 33325)) = decimal 2 3332.
Proof. qc_compute. Qed.

(** [307 + 273.33] is [580.3299999999999]. *)
Example sum_of_load_times :
  sum [Qc_of_Z 307; decimal 2 27333] < decimal 2 58033.
Proof. by vm_compute. Qed.

(** [0.1 + 0.2 + 0.3] is [0.6000000000000001] while [0.3 + 0.2 + 0.1] is
    [0.6]: a sum of doubles depends on the order of its terms. *)
Example sum_depends_on_order :
  sum [decimal 1 3; decimal 1 2; decimal 1 1] = decimal 1 6
  ∧ decimal 1 6 < sum [decimal 1 1; decimal 1 2; decimal 1 3].
Proof. split; [qc_compute|by vm_compute]. Qed.

End DoublesAtWork.

Section Averager.

Lemma valid_values (selector : Metrics → option Qc) (metrics : list Metrics) :
  (λ m, orZero (selector m)) <$> filter (λ m, is_Some (selector m)) metrics
  = omap selector metrics.
Proof.
  induction metrics as [|m metrics IH]; [done|].
  rewrite filter_cons. cbn [omap list_omap].
  destruct (selector m) as [v|] eqn:Hsel.
  - rewrite decide_True by eauto. by rewrite fmap_cons, IH, Hsel.
  - rewrite decide_False by (by intros [? ?]). exact IH.
Qed.

Lemma calculateAverage_mean (metrics : list Metrics)
    (selector : Metrics → option Qc) :
  calculateAverage metrics selector
  = Spec.meanOfDefined (omap selector metrics).
Proof.
  unfold calculateAverage.
  rewrite (sum_fold (λ m, orZero (selector m))), valid_values.
  rewrite <-(length_fmap (λ m, orZero (selector m))), valid_values.
  destruct (omap selector metrics) as [|v vs]; [done|].
  by rewrite decide_False.
Qed.

Lemma omap_Some {A B} (f : A → B) (l : list A) :
  omap (λ x, Some (f x)) l = f <$> l.
Proof.
  induction l as [|x l IH]; [done|]. cbn [omap list_omap]. by rewrite IH.
Qed.

Lemma calculateAverage_required (metrics : list Metrics) (field : Metrics → Qc) :
  metrics ≠ [] →
  calculateAverage metrics (λ m, Some (field m))
  = toFixed 2 (divide (sum (field <$> metrics)) (ofNat (length metrics))).
Proof.
  intros Hne. rewrite calculateAverage_mean, omap_Some.
  destruct metrics; [done|].
  rewrite fmap_cons. unfold Spec.meanOfDefined. cbn [length].
  by rewrite length_fmap.
Qed.

End Averager.

#[local] Set Warnings "-clear-no-such-hyp".

Section KeyAverages.

Context (metricsArray : list Metrics) (mapping : Metrics → gmap string Qc).

Lemma elem_of_objectKeys {V} (record : gmap string V) (key : string) :
  key ∈ objectKeys record ↔ is_Some (record !! key).
Proof.
  unfold objectKeys. rewrite list_elem_of_fmap. split.
  - intros [[k v] [-> Hin]]. apply elem_of_map_to_list in Hin. eauto.
  - intros [v Hv]. exists (key, v). split; [done|].
    by apply elem_of_map_to_list.
Qed.

Lemma add_keys (keys : gset string) (l : list string) :
  foldl (λ keys key, keys ∪ {[key]}) keys l = keys ∪ list_to_set l.
Proof.
  revert keys. induction l as [|k l IH]; intros keys; simpl.
  - set_solver.
  - rewrite IH. set_solver.
Qed.

Lemma collectUniqueKeys_from {T} (array : list T)
    (selector : T → gmap string Qc) (start : gset string) :
  foldl (λ keys item,
           foldl (λ keys key, keys ∪ {[key]}) keys
                 (objectKeys (selector item)))
        start array
  = start ∪ ⋃ ((λ item, dom (selector item)) <$> array).
Proof.
  revert start. induction array as [|item array IH]; intros start; simpl.
  - set_solver.
  - rewrite IH, add_keys.
    assert (Hdom : list_to_set (objectKeys (selector item))
                   =@{gset string} dom (selector item)).
    { apply set_eq. intros key.
      rewrite elem_of_list_to_set, elem_of_objectKeys, elem_of_dom. done. }
    rewrite Hdom. set_solver.
Qed.

Lemma collectUniqueKeys_union :
  collectUniqueKeys metricsArray mapping = Spec.keyUnion metricsArray mapping.
Proof.
  unfold collectUniqueKeys, Spec.keyUnion. rewrite collectUniqueKeys_from.
  set_solver.
Qed.

Lemma key_sum (key : string) :
  foldl (λ acc metric, add acc (orZero (mapping metric !! key))) 0
        metricsArray
  = sum ((λ m, default 0 (mapping m !! key)) <$> metricsArray).
Proof.
  rewrite (sum_fold (λ m, orZero (mapping m !! key))).
  apply sum_ext, list.Forall_forall. intros m _.
  by destruct (mapping m !! key).
Qed.

Lemma averages_from (keys : list string) (start : gmap string Qc)
    (key : string) :
  foldl (λ averages key,
           let sum :=
             foldl (λ acc metric, add acc (orZero (mapping metric !! key)))
                   0 metricsArray in
           let average :=
             toFixed 2 (divide sum (ofNat (length metricsArray))) in
           if decide (0 < average) then <[key := average]> averages
           else averages)
        start keys !! key
  = if decide (key ∈ keys ∧ 0 < Spec.keyAverage metricsArray mapping key)
    then Some (Spec.keyAverage metricsArray mapping key)
    else start !! key.
Proof.
  revert start. induction keys as [|k keys IH]; intros start.
  - cbn [foldl]. rewrite decide_False; [done|]. intros [Hin _].
    by apply not_elem_of_nil in Hin.
  - cbn [foldl]. rewrite IH. cbv zeta. rewrite key_sum.
    fold (Spec.keyAverage metricsArray mapping k).
    destruct (decide (key ∈ keys ∧ 0 < Spec.keyAverage metricsArray mapping key))
      as [[Hin Hpos]|Hnot].
    + rewrite decide_True; [done|]. split; [by apply elem_of_cons; right|done].
    + destruct (decide (key = k)) as [->|Hne].
      * destruct (decide (0 < Spec.keyAverage metricsArray mapping k)) as [Hpos|Hpos].
        -- rewrite decide_True by (split; [apply elem_of_cons; by left|done]).
           by rewrite lookup_insert_eq.
        -- rewrite decide_False; [done|]. by intros [_ ?].
      * assert (Hrest : (if decide (0 < Spec.keyAverage metricsArray mapping k)
                         then <[k := Spec.keyAverage metricsArray mapping k]> start
                         else start) !! key = start !! key).
        { case_decide; [by rewrite lookup_insert_ne|done]. }
        rewrite Hrest. rewrite decide_False; [done|].
        intros [Hin Hpos]. apply Hnot. split; [|done].
        apply elem_of_cons in Hin as [?|?]; done.
Qed.

Lemma keyAverage_outside (key : string) :
  key ∉ Spec.keyUnion metricsArray mapping →
  Spec.keyAverage metricsArray mapping key = 0.
Proof.
  intros Hout. unfold Spec.keyAverage.
  rewrite sum_zero, divide_0; [apply toFixed_0|].
  apply list.Forall_forall. intros m Hm.
  assert (Hnone : mapping m !! key = None).
  { apply not_elem_of_dom. intros Hin. apply Hout. unfold Spec.keyUnion.
    apply elem_of_union_list. exists (dom (mapping m)). split; [|done].
    rewrite list_elem_of_fmap. by exists m. }
  by rewrite Hnone.
Qed.

Lemma computeAveragesForKeys_lookup (key : string) :
  computeAveragesForKeys metricsArray
    (collectUniqueKeys metricsArray mapping)
    (λ m key, mapping m !! key) !! key
  = if decide (0 < Spec.keyAverage metricsArray mapping key)
    then Some (Spec.keyAverage metricsArray mapping key)
    else None.
Proof.
  unfold computeAveragesForKeys. rewrite averages_from, lookup_empty.
  rewrite collectUniqueKeys_union.
  destruct (decide (0 < Spec.keyAverage metricsArray mapping key)) as [Hpos|Hpos].
  - rewrite decide_True; [done|]. split; [|done].
    apply elem_of_elements.
    destruct (decide (key ∈ Spec.keyUnion metricsArray mapping)); [done|].
    rewrite keyAverage_outside in Hpos by done. by apply Qclt_not_eq in Hpos.
  - rewrite decide_False; [done|]. by intros [_ ?].
Qed.

End KeyAverages.

Section AveragerClaims.

Lemma Qclt_irrefl (x : Qc) : ¬ x < x.
Proof. intros Hlt. by apply Qclt_not_eq in Hlt. Qed.

Lemma averages_over_union (runs : list Metrics)
    (mapping : Metrics → gmap string Qc) :
  Spec.averagedOverUnion runs mapping
    (computeAveragesForKeys runs (collectUniqueKeys runs mapping)
       (λ m key, mapping m !! key)).
Proof.
  split; [|apply computeAveragesForKeys_lookup].
  intros key Hin. apply elem_of_dom in Hin as [v Hv].
  rewrite computeAveragesForKeys_lookup in Hv.
  destruct (decide (key ∈ Spec.keyUnion runs mapping)) as [|Hout]; [done|].
  rewrite (keyAverage_outside _ _ _ Hout) in Hv.
  rewrite decide_False in Hv; [done|]. apply Qclt_irrefl.
Qed.

Lemma keyAverage_oneOfThree (runs : list Metrics)
    (mapping : Metrics → gmap string Qc) (key : string) :
  Spec.oneOfThree runs mapping key → Spec.keyAverage runs mapping key = 1.
Proof.
  intros [Hlen (i & m & Hi & Hm & Hothers)].
  destruct runs as [|m0 [|m1 [|m2 [|]]]]; try done.
  unfold Spec.keyAverage. rewrite !fmap_cons, fmap_nil.
  destruct i as [|[|[|]]]; [| | |done].
  - injection Hi as ->.
    rewrite Hm, (Hothers 1%nat m1), (Hothers 2%nat m2) by done. qc_compute.
  - injection Hi as ->.
    rewrite Hm, (Hothers 0%nat m0), (Hothers 2%nat m2) by done. qc_compute.
  - injection Hi as ->.
    rewrite Hm, (Hothers 0%nat m0), (Hothers 1%nat m1) by done. qc_compute.
Qed.

Lemma keyAverage_zeroInEveryRun (runs : list Metrics)
    (mapping : Metrics → gmap string Qc) (key : string) :
  Spec.zeroInEveryRun runs mapping key → Spec.keyAverage runs mapping key = 0.
Proof.
  intros Hzero. unfold Spec.keyAverage.
  rewrite sum_zero, divide_0; [apply toFixed_0|].
  apply list.Forall_forall. intros m Hm. by rewrite (Hzero m Hm).
Qed.

Lemma computeAverageMetrics_total (runs : list Metrics) :
  runs ≠ [] → ∃ out, computeAverageMetrics runs = Ok out.
Proof. destruct runs; [done|]. intros _. eexists. reflexivity. Qed.

Lemma computeAverageMetrics_maps (runs : list Metrics) (out : Metrics) :
  computeAverageMetrics runs = Ok out →
  Spec.hostnamesOf out
  = computeAveragesForKeys runs (collectUniqueKeys runs Spec.hostnamesOf)
      (λ m key, Spec.hostnamesOf m !! key)
  ∧ Spec.etldPlus1sOf out
    = computeAveragesForKeys runs (collectUniqueKeys runs Spec.etldPlus1sOf)
        (λ m key, Spec.etldPlus1sOf m !! key).
Proof. destruct runs; [done|]. intros [= <-]. split; reflexivity. Qed.




(** C2: averaging an empty sequence throws; no record is returned. *)
Theorem empty_runs_throw :
  computeAverageMetrics []
  = Throw (Error "Cannot compute average of empty metrics array")
  ∧ ∀ out, computeAverageMetrics [] ≠ Ok out.
Proof. split; [reflexivity|]. intros out. discriminate. Qed.



Lemma meanOfDefined_fixed (values : list Qc) :
  toFixed 2 (Spec.meanOfDefined values) = Spec.meanOfDefined values.
Proof.
  destruct values; [apply toFixed_0 | apply toFixed_idem].
Qed.

Lemma meanOfDefined_double (values : list Qc) :
  round64 (Spec.meanOfDefined values) = Spec.meanOfDefined values.
Proof.
  destruct values; [apply round64_0 | apply toFixed_double].
Qed.

(** The average of the single value [v], a double with two decimals, is
    [v]. *)
Lemma average_of_one (v : Qc) :
  round64 v = v → toFixed 2 v = v →
  toFixed 2 (divide (sum [v]) (ofNat 1)) = v.
Proof.
  intros Hdouble Hfixed. unfold sum. cbn [foldl].
  by rewrite add_0_l, divide_1.
Qed.

Lemma calculateAverage_again (runs : list Metrics)
    (selector selector' : Metrics → option Qc) (m : Metrics) :
  selector' m = Some (calculateAverage runs selector) →
  calculateAverage [m] selector' = calculateAverage runs selector.
Proof.
  intros Hm. rewrite (calculateAverage_mean [m]).
  cbn [omap list_omap]. rewrite Hm. unfold Spec.meanOfDefined at 1.
  cbn [length]. rewrite calculateAverage_mean.
  apply average_of_one; [apply meanOfDefined_double|apply meanOfDefined_fixed].
Qed.

Lemma averages_again (runs : list Metrics)
    (mapping : Metrics → gmap string Qc) (m : Metrics) :
  Spec.averagedOverUnion runs mapping (mapping m) →
  computeAveragesForKeys [m] (collectUniqueKeys [m] mapping)
    (λ m key, mapping m !! key)
  = mapping m.
Proof.
  intros [_ Hout]. apply map_eq. intros key.
  rewrite computeAveragesForKeys_lookup, Hout.
  assert (Hagain : Spec.keyAverage [m] mapping key
                   = if decide (0 < Spec.keyAverage runs mapping key)
                     then Spec.keyAverage runs mapping key else 0).
  { unfold Spec.keyAverage at 1. rewrite fmap_cons, fmap_nil, Hout.
    cbn [length].
    case_decide; unfold default; cbn [from_option id].
    - apply average_of_one; unfold Spec.keyAverage;
        [apply toFixed_double|apply toFixed_idem].
    - apply average_of_one; [apply round64_0|apply toFixed_0]. }
  rewrite Hagain. case_decide.
  - by rewrite decide_True.
  - rewrite decide_False; [done|]. apply Qclt_irrefl.
Qed.

(** C9: averaging the single-element sequence made of an averaged record
    returns that same record. *)
Theorem averaging_is_idempotent (runs : list Metrics) (m : Metrics) :
  computeAverageMetrics runs = Ok m → computeAverageMetrics [m] = Ok m.
Proof.
  intros Hm.
  pose proof (computeAverageMetrics_maps runs m Hm) as [Hh He].
  pose proof (averages_over_union runs Spec.hostnamesOf) as Hhu.
  pose proof (averages_over_union runs Spec.etldPlus1sOf) as Heu.
  rewrite <-Hh in Hhu. rewrite <-He in Heu.
  apply averages_again in Hhu, Heu.
  destruct runs as [|first rest] eqn:Hruns; [done|]. rewrite <-Hruns in *.
  assert (Hm' : m = {|
          url := url first;
          domain := domain first;
          measureTime := measureTime first;
          testEnv := testEnv first;
          method := method first;
          domContentLoadTimeMs :=
            Some (calculateAverage runs domContentLoadTimeMs);
          loadTimeMs := Some (calculateAverage runs loadTimeMs);
          weight := {|
            totalBytes :=
              calculateAverage runs (λ m, Some (totalBytes (weight m)));
            thirdPartyBytes :=
              Some (calculateAverage runs (λ m, thirdPartyBytes (weight m)))
          |};
          requests := {|
            totalRequests :=
              calculateAverage runs (λ m, Some (totalRequests (requests m)));
            blockedRequests :=
              calculateAverage runs (λ m, Some (blockedRequests (requests m)));
            notBlockedRequests :=
              calculateAverage runs
                (λ m, Some (notBlockedRequests (requests m)));
            thirdPartyRequests :=
              calculateAverage runs
                (λ m, Some (thirdPartyRequests (requests m)));
            thirdPartyBlockedRequests :=
              calculateAverage runs
                (λ m, Some (thirdPartyBlockedRequests (requests m)));
            thirdPartyNotBlockedRequests :=
              calculateAverage runs
                (λ m, Some (thirdPartyNotBlockedRequests (requests m)));
            hostnames := computeHostnameAverages runs;
            etldPlus1s := computeEtldPlusOneAverages runs
          |}
        |}).
  { rewrite Hruns in Hm at 1. unfold computeAverageMetrics in Hm.
    rewrite <-Hruns in Hm. by injection Hm as <-. }
  unfold computeAverageMetrics.
  change (computeHostnameAverages [m])
    with (computeAveragesForKeys [m] (collectUniqueKeys [m] Spec.hostnamesOf)
            (λ m key, Spec.hostnamesOf m !! key)).
  change (computeEtldPlusOneAverages [m])
    with (computeAveragesForKeys [m] (collectUniqueKeys [m] Spec.etldPlus1sOf)
            (λ m key, Spec.etldPlus1sOf m !! key)).
  rewrite Hhu, Heu.
  rewrite (calculateAverage_again runs domContentLoadTimeMs) by (by rewrite Hm').
  rewrite (calculateAverage_again runs loadTimeMs) by (by rewrite Hm').
  rewrite (calculateAverage_again runs (λ m, Some (totalBytes (weight m))))
    by (by rewrite Hm').
  rewrite (calculateAverage_again runs (λ m, thirdPartyBytes (weight m)))
    by (by rewrite Hm').
  rewrite (calculateAverage_again runs (λ m, Some (totalRequests (requests m))))
    by (by rewrite Hm').
  rewrite (calculateAverage_again runs (λ m, Some (blockedRequests (requests m))))
    by (by rewrite Hm').
  rewrite (calculateAverage_again runs
             (λ m, Some (notBlockedRequests (requests m)))) by (by rewrite Hm').
  rewrite (calculateAverage_again runs
             (λ m, Some (thirdPartyRequests (requests m)))) by (by rewrite Hm').
  rewrite (calculateAverage_again runs
             (λ m, Some (thirdPartyBlockedRequests (requests m))))
    by (by rewrite Hm').
  rewrite (calculateAverage_again runs
             (λ m, Some (thirdPartyNotBlockedRequests (requests m))))
    by (by rewrite Hm').
  rewrite Hm'. reflexivity.
Qed.

Lemma averaging_is_idempotent_witness :
  ∃ m, computeAverageMetrics Samples.threeRuns = Ok m
       ∧ computeAverageMetrics [m] = Ok m.
Proof.
  destruct (computeAverageMetrics_total Samples.threeRuns) as [m Hm];
    [discriminate|].
  exists m. split; [done|]. by apply (averaging_is_idempotent Samples.threeRuns).
Defined.

Lemma averaged_counter (runs : list Metrics) (out : Metrics)
    (counter : Requests → Qc) :
  computeAverageMetrics runs = Ok out →
  counter = totalRequests ∨ counter = blockedRequests
  ∨ counter = notBlockedRequests ∨ counter = thirdPartyRequests
  ∨ counter = thirdPartyBlockedRequests
  ∨ counter = thirdPartyNotBlockedRequests →
  counter (requests out)
  = toFixed 2 (divide (sum ((λ m, counter (requests m)) <$> runs))
                 (ofNat (length runs))).
Proof.
  intros Hout Hcounter. destruct runs as [|first rest] eqn:Hruns; [done|].
  rewrite <-Hruns in *.
  assert (Hne : runs ≠ []) by (by rewrite Hruns).
  rewrite <-(calculateAverage_required runs (λ m, counter (requests m)) Hne).
  rewrite Hruns in Hout at 1. unfold computeAverageMetrics in Hout.
  rewrite <-Hruns in Hout. injection Hout as <-.
  destruct Hcounter as [->|[->|[->|[->|[->| ->]]]]]; reflexivity.
Qed.

(** Averaging keeps the order of two fields. *)
Lemma averaged_le (runs : list Metrics) (lower upper : Metrics → Qc) :
  runs ≠ [] →
  Forall (λ m, lower m ≤ upper m) runs →
  toFixed 2 (divide (sum (lower <$> runs)) (ofNat (length runs)))
  ≤ toFixed 2 (divide (sum (upper <$> runs)) (ofNat (length runs))).
Proof.
  intros Hne Hall. apply toFixed_mono, divide_mono.
  - apply ofNat_pos. destruct runs; [done|]. cbn [length]. lia.
  - by apply sum_mono.
Qed.

(** Whole numbers add up exactly. *)
Lemma sum_whole (values : list Qc) :
  Forall Spec.wholeNumber values →
  (Z.of_nat (length values) ≤ 2 ^ 20)%Z →
  sum values = sumQc values
  ∧ ∃ total : nat,
      sumQc values = ofNat total
      ∧ (Z.of_nat total ≤ Z.of_nat (length values) * 2 ^ 32)%Z.
Proof.
  induction values as [|v values IH] using rev_ind; intros Hall Hlen.
  { split; [reflexivity|]. exists 0%nat. split; [qc_compute|]. cbn. lia. }
  apply Forall_app in Hall as [Hall Hv]. rewrite Forall_singleton in Hv.
  rewrite length_app, Nat2Z.inj_add in Hlen. cbn [length] in Hlen.
  destruct (IH Hall ltac:(lia)) as (Hsum & total & Htotal & Hbound).
  destruct Hv as (k & -> & Hk).
  assert (Hexact : sumQc (values ++ [ofNat k]) = ofNat (total + k)).
  { rewrite sumQc_snoc, Htotal. unfold ofNat.
    by rewrite Nat2Z.inj_add, Z2Qc_inj_add. }
  split.
  - rewrite sum_snoc, Hsum, Hexact, Htotal. unfold add, ofNat.
    rewrite <-Z2Qc_inj_add, <-Nat2Z.inj_add.
    apply round64_integer. rewrite Z.abs_eq by lia.
    rewrite Nat2Z.inj_add.
    assert (H52 : (2 ^ 20 * 2 ^ 32 < 2 ^ 53)%Z) by (by vm_compute).
    nia.
  - exists (total + k)%nat. split; [exact Hexact|].
    rewrite length_app, !Nat2Z.inj_add. cbn [length]. lia.
Qed.

Lemma this_divide (x y : Qc) :
  (this (divide x y) == round64Q (this x / this y))%Q.
Proof.
  unfold divide, round64. rewrite this_Q2Qc. apply round64Q_proper.
  unfold Qcdiv, Qcmult, Qcinv. rewrite !this_Q2Qc. reflexivity.
Qed.

Lemma hundredthsOf_average (total : Qc) (n : Qc) :
  Spec.hundredthsOf (toFixed 2 (divide total n))
  = roundHalfAway (toFixedQ 2 (round64Q (this total / this n)) * 100)%Q.
Proof.
  unfold Spec.hundredthsOf, toFixed. apply roundHalfAway_proper.
  by rewrite this_Q2Qc, this_divide.
Qed.

(** When the parts of whole numbers add up to the whole, run by run, the
    averages written with two decimals do so up to one hundredth. *)
Lemma rounded_parts_near_whole (runs : list Metrics)
    (part1 part2 whole : Metrics → Qc) :
  runs ≠ [] →
  (Z.of_nat (length runs) ≤ 2 ^ 20)%Z →
  Forall (λ m, part1 m + part2 m = whole m) runs →
  Forall (λ m, Spec.wholeNumber (part1 m)) runs →
  Forall (λ m, Spec.wholeNumber (part2 m)) runs →
  Forall (λ m, Spec.wholeNumber (whole m)) runs →
  Spec.withinOneHundredth
    (toFixed 2 (divide (sum (part1 <$> runs)) (ofNat (length runs))))
    (toFixed 2 (divide (sum (part2 <$> runs)) (ofNat (length runs))))
    (toFixed 2 (divide (sum (whole <$> runs)) (ofNat (length runs)))).
Proof.
  intros Hne Hlen Hparts H1 H2 Hw.
  assert (Hn : (0 < length runs)%nat)
    by (destruct runs; [done|cbn [length]; lia]).
  destruct (sum_whole (part1 <$> runs)) as (-> & t1 & Ht1 & _);
    [by apply Forall_fmap|by rewrite length_fmap|].
  destruct (sum_whole (part2 <$> runs)) as (-> & t2 & Ht2 & _);
    [by apply Forall_fmap|by rewrite length_fmap|].
  destruct (sum_whole (whole <$> runs)) as (-> & tw & Htw & Hbound);
    [by apply Forall_fmap|by rewrite length_fmap|].
  rewrite length_fmap in Hbound.
  assert (Hsum : sumQc (part1 <$> runs) + sumQc (part2 <$> runs)
                 = sumQc (whole <$> runs)).
  { rewrite <-sumQc_plus. by apply sumQc_ext. }
  rewrite Ht1, Ht2, Htw in Hsum |- *.
  assert (Htotal : tw = (t1 + t2)%nat).
  { unfold ofNat in Hsum. rewrite <-Z2Qc_inj_add in Hsum.
    apply (f_equal this) in Hsum. rewrite !this_Qc_of_Z in Hsum.
    injection Hsum as Hz. lia. }
  subst tw. unfold Spec.withinOneHundredth.
  rewrite !hundredthsOf_average. unfold ofNat. rewrite !this_Qc_of_Z.
  set (n := inject_Z (Z.of_nat (length runs))).
  assert (Hnpos : (0 < n)%Q).
  { unfold n. change 0%Q with (inject_Z 0). rewrite <-Zlt_Qlt. lia. }
  assert (Hwhole : (inject_Z (Z.of_nat (t1 + t2)) / n
                    == inject_Z (Z.of_nat t1) / n + inject_Z (Z.of_nat t2) / n)%Q).
  { rewrite Nat2Z.inj_add, inject_Z_plus. field. lra. }
  rewrite (roundHalfAway_proper
             (toFixedQ 2 (round64Q (inject_Z (Z.of_nat (t1 + t2)) / n)) * 100)
             (toFixedQ 2 (round64Q (inject_Z (Z.of_nat t1) / n
                                     + inject_Z (Z.of_nat t2) / n)) * 100))
    by (by rewrite Hwhole).
  assert (Hnonneg : ∀ t : nat, (0 <= inject_Z (Z.of_nat t) / n)%Q).
  { intros t. apply Qle_shift_div_l; [exact Hnpos|].
    rewrite Qmult_0_l. change 0%Q with (inject_Z 0). rewrite <-Zle_Qle. lia. }
  apply hundredths_of_parts; [apply Hnonneg..|].
  rewrite <-Hwhole. apply Qle_shift_div_r; [exact Hnpos|].
  assert (Hp32 : (2 ^ 32 == inject_Z (2 ^ 32))%Q) by (by vm_compute).
  rewrite Hp32. unfold n. rewrite <-inject_Z_mult, <-Zle_Qle. lia.
Qed.

(** C8, as the code has it: each counter is averaged and rounded on its
    own.  The order [thirdPartyRequests <= totalRequests] is kept, since
    adding, dividing and rounding doubles are monotone.  The two sums are not
    kept; for runs whose counters are whole numbers, as a page load counts
    them, they hold up to one hundredth in the values written with two
    decimals. *)
Theorem averaged_counters_near_invariant (runs : list Metrics) :
  runs ≠ [] →
  Forall (λ m, Spec.requestsInvariant (requests m)) runs →
  ∃ out, computeAverageMetrics runs = Ok out
    ∧ thirdPartyRequests (requests out) ≤ totalRequests (requests out)
    ∧ (Forall (λ m, Spec.wholeCounters (requests m)) runs →
       (Z.of_nat (length runs) ≤ 2 ^ 20)%Z →
       Spec.withinOneHundredth
         (blockedRequests (requests out)) (notBlockedRequests (requests out))
         (totalRequests (requests out))
       ∧ Spec.withinOneHundredth
           (thirdPartyBlockedRequests (requests out))
           (thirdPartyNotBlockedRequests (requests out))
           (thirdPartyRequests (requests out))).
Proof.
  intros Hne Hinv.
  destruct (computeAverageMetrics_total runs Hne) as [out Hout].
  exists out. split; [done|].
  rewrite !(averaged_counter runs out _ Hout) by tauto.
  split.
  - apply (averaged_le runs (λ m, thirdPartyRequests (requests m))
             (λ m, totalRequests (requests m)) Hne).
    eapply list.Forall_impl; [exact Hinv|].
    intros m (_ & _ & Hle). exact Hle.
  - intros Hwhole Hlen. split.
    + apply (rounded_parts_near_whole runs
               (λ m, blockedRequests (requests m))
               (λ m, notBlockedRequests (requests m))
               (λ m, totalRequests (requests m)) Hne Hlen).
      * eapply list.Forall_impl; [exact Hinv|]. by intros m (Hsum & _ & _).
      * eapply list.Forall_impl; [exact Hwhole|]. by intros m (_ & ? & _).
      * eapply list.Forall_impl; [exact Hwhole|]. by intros m (_ & _ & ? & _).
      * eapply list.Forall_impl; [exact Hwhole|]. by intros m (? & _).
    + apply (rounded_parts_near_whole runs
               (λ m, thirdPartyBlockedRequests (requests m))
               (λ m, thirdPartyNotBlockedRequests (requests m))
               (λ m, thirdPartyRequests (requests m)) Hne Hlen).
      * eapply list.Forall_impl; [exact Hinv|]. by intros m (_ & Hsum & _).
      * eapply list.Forall_impl; [exact Hwhole|].
        by intros m (_ & _ & _ & _ & ? & _).
      * eapply list.Forall_impl; [exact Hwhole|].
        by intros m (_ & _ & _ & _ & _ & ?).
      * eapply list.Forall_impl; [exact Hwhole|].
        by intros m (_ & _ & _ & ? & _).
Qed.

Lemma roundingRuns_invariant :
  Forall (λ m, Spec.requestsInvariant (requests m)) Samples.roundingRuns.
Proof.
  repeat constructor; try qc_compute; by vm_compute.
Defined.

Lemma wholeNumber_num (k : nat) :
  (Z.of_nat k ≤ 2 ^ 32)%Z → Spec.wholeNumber (Samples.num (Z.of_nat k)).
Proof. intros Hk. by exists k. Defined.

Lemma roundingRuns_whole :
  Forall (λ m, Spec.wholeCounters (requests m)) Samples.roundingRuns.
Proof.
  repeat constructor;
    first [apply (wholeNumber_num 0); by vm_compute
          |apply (wholeNumber_num 1); by vm_compute].
Defined.

Lemma averaged_counters_near_invariant_witness :
  Samples.roundingRuns ≠ []
  ∧ Forall (λ m, Spec.requestsInvariant (requests m)) Samples.roundingRuns
  ∧ ∃ out, computeAverageMetrics Samples.roundingRuns = Ok out
      ∧ thirdPartyRequests (requests out) ≤ totalRequests (requests out)
      ∧ Spec.withinOneHundredth
          (blockedRequests (requests out)) (notBlockedRequests (requests out))
          (totalRequests (requests out)).
Proof.
  split; [discriminate|]. split; [exact roundingRuns_invariant|].
  destruct (averaged_counters_near_invariant Samples.roundingRuns)
    as (out & Hout & Hle & Hnear); [discriminate|exact roundingRuns_invariant|].
  exists out. split; [exact Hout|]. split; [exact Hle|].
  apply Hnear; [exact roundingRuns_whole|by vm_compute].
Defined.

(** C8 as stated fails: three runs that satisfy the invariant average to
    0.33 blocked, 0.33 not blocked and 0.67 total requests. *)
Lemma averaged_counters_break_invariant :
  Forall (λ m, Spec.requestsInvariant (requests m)) Samples.roundingRuns
  ∧ ∃ out, computeAverageMetrics Samples.roundingRuns = Ok out
      ∧ blockedRequests (requests out) = Samples.hundredths 33
      ∧ notBlockedRequests (requests out) = Samples.hundredths 33
      ∧ totalRequests (requests out) = Samples.hundredths 67
      ∧ ¬ Spec.requestsInvariant (requests out).
Proof.
  split; [exact roundingRuns_invariant|].
  eexists. split; [reflexivity|].
  split; [qc_compute|]. split; [qc_compute|]. split; [qc_compute|].
  intros [Hsum _]. apply (f_equal this) in Hsum. vm_compute in Hsum.
  discriminate Hsum.
Qed.

End AveragerClaims.

(** ** The statistics aggregator *)

Import ReportGenerator.

Section Aggregator.

Variable getDomain : string → option string.
Variable trackersInfo : TrackersData.t.
Variable companiesInfo : CompaniesData.t.

Lemma length_objectKeys {V} (record : gmap string V) :
  length (objectKeys record) = size record.
Proof. unfold objectKeys. by rewrite length_fmap, length_map_to_list. Qed.

Lemma ofNat_add (a b : nat) : ofNat (a + b) = ofNat a + ofNat b.
Proof. unfold ofNat. by rewrite Nat2Z.inj_add, Z2Qc_inj_add. Qed.

Lemma processEntry_aggregated (domain : string)
    (state : AggregatedData.t * CollectedData.t) (entry : Metrics) :
  (processEntry getDomain domain trackersInfo companiesInfo state entry).1
  = Spec.aggregateEntry entry state.1.
Proof.
  unfold processEntry, objectTruthy, processEtldPlus1Data,
    processHostnameData, aggregateBasicMetrics, Spec.aggregateEntry.
  cbn [fst snd AggregatedData.totalDomContentLoadTime
       AggregatedData.totalLoadTime AggregatedData.totalBytes
       AggregatedData.totalRequests AggregatedData.totalThirdPartyRequests
       AggregatedData.totalBlockedRequests AggregatedData.totalHostnames
       AggregatedData.totalEtldPlus1s].
  by rewrite !length_objectKeys.
Qed.

Lemma processEntries_aggregated (domain : string) (entries : list Metrics)
    (state : AggregatedData.t * CollectedData.t) :
  (foldl (processEntry getDomain domain trackersInfo companiesInfo)
         state entries).1
  = foldl (λ agg entry, Spec.aggregateEntry entry agg) state.1 entries.
Proof.
  revert state. induction entries as [|entry entries IH]; intros state;
    [done|].
  cbn [foldl]. by rewrite IH, processEntry_aggregated.
Qed.

Lemma processAllDomains_aggregated (domains : list string)
    (data : MetricsData) (aggregatedData : AggregatedData.t)
    (collectedData : CollectedData.t) :
  (processAllDomains getDomain domains data trackersInfo companiesInfo
     aggregatedData collectedData).1
  = foldl (λ agg entry, Spec.aggregateEntry entry agg) aggregatedData
          (domains ≫= λ domain, default [] (data !! domain)).
Proof.
  unfold processAllDomains.
  change aggregatedData with (aggregatedData, collectedData).1 at 2.
  generalize (aggregatedData, collectedData).
  induction domains as [|domain domains IH]; intros state; [done|].
  cbn [foldl]. rewrite IH, processEntries_aggregated.
  rewrite bind_cons, foldl_app. done.
Qed.

Lemma entries_of_keys (data : MetricsData) :
  objectKeys data ≫= (λ domain, default [] (data !! domain))
  = Spec.allEntries data.
Proof.
  unfold objectKeys, Spec.allEntries.
  assert (Hall : Forall (λ kv, data !! kv.1 = Some kv.2) (map_to_list data)).
  { apply list.Forall_forall. intros [k v] Hin.
    by apply elem_of_map_to_list in Hin. }
  induction Hall as [|[k v] l Hkv _ IH]; [done|].
  rewrite fmap_cons, !bind_cons, IH. cbn [fst snd] in *. by rewrite Hkv.
Qed.

Lemma aggregated_field (field : AggregatedData.t → Qc)
    (contribution : Metrics → Qc) (entries : list Metrics)
    (aggregatedData : AggregatedData.t) :
  (∀ entry agg,
     field (Spec.aggregateEntry entry agg) = field agg + contribution entry) →
  field (foldl (λ agg entry, Spec.aggregateEntry entry agg)
               aggregatedData entries)
  = field aggregatedData + sumQc (contribution <$> entries).
Proof.
  intros Hstep. revert aggregatedData.
  induction entries as [|entry entries IH]; intros aggregatedData.
  - rewrite fmap_nil, sumQc_nil. cbn [foldl]. ring.
  - rewrite fmap_cons, sumQc_cons. cbn [foldl]. rewrite IH, Hstep. ring.
Qed.

Lemma aggregated_sum (field : AggregatedData.t → Qc)
    (contribution : Metrics → Qc) (entries : list Metrics)
    (aggregatedData : AggregatedData.t) :
  (∀ entry agg,
     field (Spec.aggregateEntry entry agg)
     = add (field agg) (contribution entry)) →
  field (foldl (λ agg entry, Spec.aggregateEntry entry agg)
               aggregatedData entries)
  = foldl add (field aggregatedData) (contribution <$> entries).
Proof.
  intros Hstep. revert aggregatedData.
  induction entries as [|entry entries IH]; intros aggregatedData; [done|].
  rewrite fmap_cons. cbn [foldl]. by rewrite IH, Hstep.
Qed.

Lemma sum_of_sizes (mapping : Metrics → gmap string Qc)
    (entries : list Metrics) :
  sumQc ((λ m, ofNat (size (mapping m))) <$> entries)
  = ofNat (sum_list ((λ m, size (mapping m)) <$> entries)).
Proof.
  induction entries as [|entry entries IH]; [by apply Qc_is_canon|].
  rewrite !fmap_cons, sumQc_cons, IH. cbn [sum_list sum_list_with].
  by rewrite ofNat_add.
Qed.

(** The running totals after [processAllDomains], started from zero, for
    any enumeration of the domains. *)
Lemma processAllDomains_totals (domains : list string) (data : MetricsData) :
  let aggregated :=
    (processAllDomains getDomain domains data trackersInfo companiesInfo
       initializeAggregatedData initializeCollectedData).1 in
  AggregatedData.totalDomContentLoadTime aggregated
    = Spec.totalIn domains data (λ m, orZero (domContentLoadTimeMs m))
  ∧ AggregatedData.totalLoadTime aggregated
    = Spec.totalIn domains data (λ m, orZero (loadTimeMs m))
  ∧ AggregatedData.totalBytes aggregated
    = Spec.totalIn domains data (λ m, totalBytes (weight m))
  ∧ AggregatedData.totalRequests aggregated
    = Spec.totalIn domains data (λ m, totalRequests (requests m))
  ∧ AggregatedData.totalThirdPartyRequests aggregated
    = Spec.totalIn domains data (λ m, thirdPartyRequests (requests m))
  ∧ AggregatedData.totalBlockedRequests aggregated
    = Spec.totalIn domains data (λ m, blockedRequests (requests m)).
Proof.
  cbv zeta. rewrite processAllDomains_aggregated.
  unfold Spec.totalIn, Spec.entriesIn.
  repeat split; by erewrite aggregated_sum by (intros; reflexivity).
Qed.

(** The running totals after [processAllDomains], started from zero. *)
Lemma computeStatistics_aggregated (data : MetricsData) :
  let aggregated :=
    (processAllDomains getDomain (objectKeys data) data trackersInfo
       companiesInfo initializeAggregatedData initializeCollectedData).1 in
  AggregatedData.totalDomContentLoadTime aggregated
    = Spec.total data (λ m, orZero (domContentLoadTimeMs m))
  ∧ AggregatedData.totalLoadTime aggregated
    = Spec.total data (λ m, orZero (loadTimeMs m))
  ∧ AggregatedData.totalBytes aggregated
    = Spec.total data (λ m, totalBytes (weight m))
  ∧ AggregatedData.totalRequests aggregated
    = Spec.total data (λ m, totalRequests (requests m))
  ∧ AggregatedData.totalThirdPartyRequests aggregated
    = Spec.total data (λ m, thirdPartyRequests (requests m))
  ∧ AggregatedData.totalBlockedRequests aggregated
    = Spec.total data (λ m, blockedRequests (requests m))
  ∧ AggregatedData.totalHostnames aggregated
    = ofNat (Spec.totalKeys data Spec.hostnamesOf)
  ∧ AggregatedData.totalEtldPlus1s aggregated
    = ofNat (Spec.totalKeys data Spec.etldPlus1sOf).
Proof.
  cbv zeta. rewrite processAllDomains_aggregated, entries_of_keys.
  unfold Spec.total, Spec.totalKeys. rewrite <-!sum_of_sizes.
  repeat split.
  1-6: by erewrite aggregated_sum by (intros; reflexivity).
  all: erewrite aggregated_field by (intros; reflexivity).
  all: unfold initializeAggregatedData; simpl; apply Qcplus_0_l.
Qed.

Lemma request_statistics (data : MetricsData) :
  let result := computeStatistics getDomain data trackersInfo companiesInfo in
  ReportResult.totalRequests result
    = toFixed 0 (Spec.total data (λ m, totalRequests (requests m)))
  ∧ ReportResult.totalBlockedRequests result
    = toFixed 0 (Spec.total data (λ m, blockedRequests (requests m)))
  ∧ ReportResult.averageRequests result
    = divLength (Spec.total data (λ m, totalRequests (requests m)))
        (size data)
  ∧ ReportResult.averageBlockedRequests result
    = divLength (Spec.total data (λ m, blockedRequests (requests m)))
        (size data).
Proof.
  cbv zeta.
  destruct (computeStatistics_aggregated data)
    as (_ & _ & _ & Hreq & _ & Hblocked & _ & _).
  unfold computeStatistics, computeStatisticsFor, assembleResult,
    calculateAverages.
  cbn [ReportResult.totalRequests ReportResult.totalBlockedRequests
       ReportResult.averageRequests ReportResult.averageBlockedRequests
       Averages.averageRequests Averages.averageBlockedRequests].
  by rewrite Hreq, Hblocked, length_objectKeys.
Qed.

Lemma scenario_statistics :
  let scenario :=
    computeStatistics getDomain Samples.twoDomains trackersInfo
      companiesInfo in
  ReportResult.totalRequests scenario = Qc_of_Z 30
  ∧ ReportResult.averageRequests scenario = Some (Qc_of_Z 15)
  ∧ ReportResult.totalBlockedRequests scenario = Qc_of_Z 7
  ∧ ReportResult.averageBlockedRequests scenario
    = Some (Qc_of_Z 7 / Qc_of_Z 2).
Proof.
  cbv zeta.
  destruct (request_statistics Samples.twoDomains) as (-> & -> & -> & ->).
  replace (Spec.total Samples.twoDomains (λ m, totalRequests (requests m)))
    with (Qc_of_Z 30) by qc_compute.
  replace (Spec.total Samples.twoDomains (λ m, blockedRequests (requests m)))
    with (Qc_of_Z 7) by qc_compute.
  replace (size Samples.twoDomains) with 2%nat by (by vm_compute).
  rewrite !toFixed_integer by (apply round64_integer; by vm_compute).
  cbn [divLength]. repeat split; f_equal; qc_compute.
Qed.

(** C6, as the code has it, for [domains] any enumeration of the keys of
    [data], [Object.keys(data)] among them: [siteCount] is the number of
    domains; [totalLoadTime] and [totalBytes] are the sums over all entries (a
    missing load time counting as 0), added up as doubles in the order of
    [domains]; the three request totals are those sums rounded to the nearest
    integer, hence the sums themselves when these are whole numbers; every
    average is the double quotient of the unrounded sum by [siteCount].  On
    the two-domain scenario: 30 requests, 15 on average, 7 blocked, 3.5 on
    average. *)
Theorem statistics_totals_and_averages (data : MetricsData)
    (domains : list string) :
  domains ≡ₚ objectKeys data →
  let result :=
    computeStatisticsFor getDomain domains data trackersInfo companiesInfo in
  let scenario :=
    computeStatistics getDomain Samples.twoDomains trackersInfo
      companiesInfo in
  ReportResult.siteCount result = size data
  ∧ ReportResult.totalLoadTime result
    = Spec.totalIn domains data (λ m, orZero (loadTimeMs m))
  ∧ ReportResult.totalBytes result
    = Spec.totalIn domains data (λ m, totalBytes (weight m))
  ∧ ReportResult.totalRequests result
    = toFixed 0 (Spec.totalIn domains data (λ m, totalRequests (requests m)))
  ∧ ReportResult.totalThirdPartyRequests result
    = toFixed 0
        (Spec.totalIn domains data (λ m, thirdPartyRequests (requests m)))
  ∧ ReportResult.totalBlockedRequests result
    = toFixed 0
        (Spec.totalIn domains data (λ m, blockedRequests (requests m)))
  ∧ (∀ z, Spec.totalIn domains data (λ m, totalRequests (requests m))
          = Qc_of_Z z →
          ReportResult.totalRequests result = Qc_of_Z z)
  ∧ (∀ z, Spec.totalIn domains data (λ m, thirdPartyRequests (requests m))
          = Qc_of_Z z →
          ReportResult.totalThirdPartyRequests result = Qc_of_Z z)
  ∧ (∀ z, Spec.totalIn domains data (λ m, blockedRequests (requests m))
          = Qc_of_Z z →
          ReportResult.totalBlockedRequests result = Qc_of_Z z)
  ∧ ReportResult.averageDomContentLoadTime result
    = divLength
        (Spec.totalIn domains data (λ m, orZero (domContentLoadTimeMs m)))
        (size data)
  ∧ ReportResult.averageLoadTime result
    = divLength (Spec.totalIn domains data (λ m, orZero (loadTimeMs m)))
        (size data)
  ∧ ReportResult.averageBytes result
    = divLength (Spec.totalIn domains data (λ m, totalBytes (weight m)))
        (size data)
  ∧ ReportResult.averageRequests result
    = divLength
        (Spec.totalIn domains data (λ m, totalRequests (requests m)))
        (size data)
  ∧ ReportResult.averageThirdPartyRequests result
    = divLength
        (Spec.totalIn domains data (λ m, thirdPartyRequests (requests m)))
        (size data)
  ∧ ReportResult.averageBlockedRequests result
    = divLength
        (Spec.totalIn domains data (λ m, blockedRequests (requests m)))
        (size data)
  ∧ ReportResult.averageHostnames result
    = divLength (ReportResult.totalHostnames result) (size data)
  ∧ ReportResult.averageEtldPlus1s result
    = divLength (ReportResult.totalEtldPlus1s result) (size data)
  ∧ ReportResult.totalRequests scenario = Qc_of_Z 30
  ∧ ReportResult.averageRequests scenario = Some (Qc_of_Z 15)
  ∧ ReportResult.totalBlockedRequests scenario = Qc_of_Z 7
  ∧ ReportResult.averageBlockedRequests scenario
    = Some (Qc_of_Z 7 / Qc_of_Z 2).
Proof.
  intros Hdomains. cbv zeta.
  assert (Hsize : length domains = size data)
    by (by rewrite Hdomains, length_objectKeys).
  destruct (processAllDomains_totals domains data)
    as (Hdcl & Hload & Hbytes & Hreq & Hthird & Hblocked).
  unfold computeStatisticsFor, assembleResult, calculateAverages.
  cbn [ReportResult.siteCount ReportResult.totalLoadTime
       ReportResult.totalBytes ReportResult.totalRequests
       ReportResult.totalThirdPartyRequests ReportResult.totalBlockedRequests
       ReportResult.averageDomContentLoadTime ReportResult.averageLoadTime
       ReportResult.averageBytes ReportResult.averageRequests
       ReportResult.averageThirdPartyRequests
       ReportResult.averageBlockedRequests ReportResult.averageHostnames
       ReportResult.averageEtldPlus1s ReportResult.totalHostnames
       ReportResult.totalEtldPlus1s
       Averages.averageDomContentLoadTime Averages.averageLoadTime
       Averages.averageBytes Averages.averageRequests
       Averages.averageThirdPartyRequests Averages.averageBlockedRequests
       Averages.averageHostnames Averages.averageEtldPlus1s].
  rewrite Hdcl, Hload, Hbytes, Hreq, Hthird, Hblocked, Hsize.
  repeat split; try reflexivity; try apply scenario_statistics.
  all: intros z Hz; rewrite Hz; apply toFixed_integer; rewrite <-Hz;
    apply sum_double.
Qed.

(** C10: [totalHostnames] is the number of keys of the [hostnames] mapping
    summed over all entries, and [totalEtldPlus1s] that of the [etldPlus1s]
    mapping: names are counted, the request counts stored under them are not
    added up.  The two-domain scenario has 3 + 2 hostnames (carrying 30
    requests) and 2 + 2 registrable domains. *)
Theorem name_totals_count_keys (data : MetricsData) :
  let result := computeStatistics getDomain data trackersInfo companiesInfo in
  let scenario :=
    computeStatistics getDomain Samples.twoDomains trackersInfo
      companiesInfo in
  ReportResult.totalHostnames result
    = ofNat (Spec.totalKeys data Spec.hostnamesOf)
  ∧ ReportResult.totalEtldPlus1s result
    = ofNat (Spec.totalKeys data Spec.etldPlus1sOf)
  ∧ ReportResult.totalHostnames scenario = Qc_of_Z 5
  ∧ ReportResult.totalEtldPlus1s scenario = Qc_of_Z 4.
Proof.
  cbv zeta.
  assert (Hgeneral : ∀ data,
    let result :=
      computeStatistics getDomain data trackersInfo companiesInfo in
    ReportResult.totalHostnames result
      = ofNat (Spec.totalKeys data Spec.hostnamesOf)
    ∧ ReportResult.totalEtldPlus1s result
      = ofNat (Spec.totalKeys data Spec.etldPlus1sOf)).
  { intros d. cbv zeta.
    destruct (computeStatistics_aggregated d)
      as (_ & _ & _ & _ & _ & _ & Hhosts & Hetlds).
    unfold computeStatistics, computeStatisticsFor, assembleResult.
    cbn [ReportResult.totalHostnames ReportResult.totalEtldPlus1s].
    by rewrite Hhosts, Hetlds. }
  destruct (Hgeneral data) as [-> ->].
  destruct (Hgeneral Samples.twoDomains) as [-> ->].
  repeat split; by vm_compute.
Qed.

End Aggregator.

Lemma one_entry_per_domain_fractional :
  ∀ domain entries,
    Samples.fractionalData !! domain = Some entries → length entries = 1%nat.
Proof.
  intros domain entries Hlookup. unfold Samples.fractionalData in Hlookup.
  apply lookup_singleton_Some in Hlookup as [_ <-]. reflexivity.
Qed.

(** C6 as stated fails: for one domain whose entry counts 20.33 requests the
    reported total is 20, not the sum, and the reported average, 20.33, is
    not that total divided by the number of sites. *)
Lemma rounded_total_is_not_the_sum :
  let result :=
    computeStatistics Samples.getDomain Samples.fractionalData
      Samples.noTrackers Samples.noCompanies in
  (∀ domain entries,
     Samples.fractionalData !! domain = Some entries →
     length entries = 1%nat)
  ∧ Spec.total Samples.fractionalData (λ m, totalRequests (requests m))
    = Samples.hundredths 2033
  ∧ ReportResult.totalRequests result = Qc_of_Z 20
  ∧ ReportResult.totalRequests result
    ≠ Spec.total Samples.fractionalData (λ m, totalRequests (requests m))
  ∧ ReportResult.averageRequests result = Some (Samples.hundredths 2033)
  ∧ ReportResult.averageRequests result
    ≠ divLength (ReportResult.totalRequests result)
        (ReportResult.siteCount result).
Proof.
  cbv zeta. split; [exact one_entry_per_domain_fractional|].
  split; [qc_compute|]. split; [qc_compute|]. split.
  { intros Heq. apply (f_equal this) in Heq. vm_compute in Heq.
    discriminate Heq. }
  split.
  { change (ReportResult.siteCount _) with 1%nat. f_equal. }
  intros Heq.
  assert (Hthis : this <$> ReportResult.averageRequests
                    (computeStatistics Samples.getDomain
                       Samples.fractionalData Samples.noTrackers
                       Samples.noCompanies)
                  = this <$> divLength
                      (ReportResult.totalRequests
                         (computeStatistics Samples.getDomain
                            Samples.fractionalData Samples.noTrackers
                            Samples.noCompanies))
                      (ReportResult.siteCount
                         (computeStatistics Samples.getDomain
                            Samples.fractionalData Samples.noTrackers
                            Samples.noCompanies))) by (by rewrite Heq).
  vm_compute in Hthis. discriminate Hthis.
Qed.

(** ** Classification of hostnames *)

Section Classification.

Variable getDomain : string → option string.
Variable trackersInfo : TrackersData.t.
Variable companiesInfo : CompaniesData.t.


End Classification.



(** C4: a hostname without exact match and without eTLD+1 is not skipped.
    [localhost], contacted by [example.com], is counted as a tracker and as
    a company of its own name. *)
Theorem localhost_counted_as_tracker_and_company :
  let result :=
    computeStatistics Samples.getDomain Samples.localhostData
      Samples.noTrackers Samples.noCompanies in
  Samples.getDomain "localhost" = None
  ∧ TrackersData.trackerDomains Samples.noTrackers !! "localhost" = None
  ∧ ReportResult.trackersWebsitesData result = {[ "localhost" := 1%nat ]}
  ∧ ReportResult.companiesWebsitesData result = {[ "localhost" := 1%nat ]}.
Proof. repeat split; by vm_compute. Qed.

(** ** Reconciliation across input files *)

Lemma findCommonDomains_step_some (allData : list MetricsData)
    (acc : gset string) :
  is_Some
    (foldl (λ (acc : option (gset string)) (data : MetricsData),
              let validDomains :=
                (filter (λ entry, meetsThreshold entry.2 = true)
                        (map_to_list data)).*1 in
              let domains : gset string := list_to_set validDomains in
              match acc with
              | None => Some domains
              | Some acc =>
                  Some (list_to_set
                          (filter (λ domain, domain ∈ domains) (elements acc)))
              end)
           (Some acc) allData).
Proof.
  revert acc. induction allData as [|data allData IH]; intros acc; [by eexists|].
  cbn [foldl]. apply IH.
Qed.

Lemma findCommonDomains_nonempty (allData : list MetricsData) :
  allData ≠ [] → ∃ commonDomains, findCommonDomains allData = Ok commonDomains.
Proof.
  destruct allData as [|data allData]; [done|]. intros _.
  unfold findCommonDomains. cbn [foldl].
  match goal with
  | |- context [foldl ?f (Some ?acc) allData] =>
      destruct (findCommonDomains_step_some allData acc) as [common Hcommon]
  end.
  cbv zeta in Hcommon. rewrite Hcommon. by eexists.
Qed.

(** C3: an empty intersection does not end the run.  The only domain of the
    input averages 10 requests and is below the threshold of 20, the set of
    common domains is empty, and [findCommonDomains] returns it; a report is
    produced for the input file, over no site. *)
Theorem empty_intersection_still_reports :
  findCommonDomains [Samples.belowThreshold] = Ok ∅
  ∧ ∃ results,
      generateReport Samples.getDomain id [Samples.belowThreshold]
        ["baseline.json"] Samples.noTrackers Samples.noCompanies
      = Ok results
      ∧ ReportResult.siteCount <$> results !! "baseline.json" = Some 0%nat.
Proof.
  split; [by vm_compute|]. eexists. split; [reflexivity|]. by vm_compute.
Qed.

Lemma statistics_totals_and_averages_witness :
  [ "test.com"; "example.com" ] ≡ₚ objectKeys Samples.twoDomains
  ∧ ReportResult.siteCount
      (computeStatisticsFor Samples.getDomain [ "test.com"; "example.com" ]
         Samples.twoDomains Samples.noTrackers Samples.noCompanies) = 2%nat
  ∧ ReportResult.averageBlockedRequests
      (computeStatistics Samples.getDomain Samples.twoDomains
         Samples.noTrackers Samples.noCompanies)
    = Some (Qc_of_Z 7 / Qc_of_Z 2).
Proof.
  assert (Hdomains :
            [ "test.com"; "example.com" ] ≡ₚ objectKeys Samples.twoDomains)
    by (vm_compute; repeat constructor).
  pose proof (statistics_totals_and_averages Samples.getDomain
                Samples.noTrackers Samples.noCompanies Samples.twoDomains
                [ "test.com"; "example.com" ] Hdomains)
    as Hstats.
  cbv zeta in Hstats. split; [exact Hdomains|]. split.
  - rewrite (proj1 Hstats). by vm_compute.
  - apply Hstats.
Defined.

(** ** Further properties of the reconciliation *)

Section Reconciliation.

Lemma findCommonDomains_reduce (allData : list MetricsData) :
  findCommonDomains allData
  = match foldl Notions.commonDomainsStep None allData with
    | None => Throw (ProcessExit 1)
    | Some commonDomains => Ok commonDomains
    end.
Proof. reflexivity. Qed.

Lemma elem_of_validDomains (data : MetricsData) (domain : string) :
  domain ∈@{gset string}
    list_to_set (filter (λ entry, meetsThreshold entry.2 = true)
                        (map_to_list data)).*1
  ↔ Notions.validDomain data domain.
Proof.
  rewrite elem_of_list_to_set, list_elem_of_fmap. split.
  - intros [[d entries] [-> Hin]]. apply list_elem_of_filter in Hin as [Hok Hin].
    apply elem_of_map_to_list in Hin. by exists entries.
  - intros (entries & Hlookup & Hok). exists (domain, entries). split; [done|].
    apply list_elem_of_filter. split; [done|]. by apply elem_of_map_to_list.
Qed.

Lemma commonDomainsStep_some (allData : list MetricsData) (acc : gset string) :
  ∃ commonDomains,
    foldl Notions.commonDomainsStep (Some acc) allData = Some commonDomains
    ∧ ∀ domain,
        domain ∈ commonDomains
        ↔ domain ∈ acc
          ∧ Forall (λ data, Notions.validDomain data domain) allData.
Proof.
  revert acc. induction allData as [|data allData IH]; intros acc.
  - exists acc. split; [done|]. intros domain. split; [by split|by intros []].
  - cbn [foldl]. unfold Notions.commonDomainsStep at 2. cbv zeta.
    match goal with
    | |- context [foldl _ (Some ?next) allData] =>
        destruct (IH next) as (commonDomains & -> & Hcommon)
    end.
    exists commonDomains. split; [done|]. intros domain.
    rewrite Hcommon, elem_of_list_to_set, list_elem_of_filter,
      elem_of_validDomains, elem_of_elements, Forall_cons.
    tauto.
Qed.

(** The run is ended only for an empty list of inputs. *)
Theorem findCommonDomains_exits_iff_no_input (allData : list MetricsData) :
  findCommonDomains allData = Throw (ProcessExit 1) ↔ allData = [].
Proof.
  split; [|by intros ->].
  destruct allData as [|data allData]; [done|].
  rewrite findCommonDomains_reduce. cbn [foldl].
  unfold Notions.commonDomainsStep at 2. cbv zeta.
  match goal with
  | |- context [foldl _ (Some ?next) allData] =>
      destruct (commonDomainsStep_some allData next) as (common & -> & _)
  end.
  discriminate.
Qed.

Lemma common_domain_iff (allData : list MetricsData)
    (commonDomains : gset string) :
  findCommonDomains allData = Ok commonDomains →
  ∀ domain,
    domain ∈ commonDomains
    ↔ Forall (λ data, Notions.validDomain data domain) allData.
Proof.
  rewrite findCommonDomains_reduce.
  destruct allData as [|data allData]; [done|].
  cbn [foldl]. unfold Notions.commonDomainsStep at 2. cbv zeta.
  match goal with
  | |- context [foldl _ (Some ?next) allData] =>
      destruct (commonDomainsStep_some allData next) as (common & -> & Hcommon)
  end.
  intros [= <-] domain.
  rewrite Hcommon, elem_of_validDomains, Forall_cons. tauto.
Qed.

(** The common domains are exactly the domains that reach the threshold in
    every input; in particular they are domains of every input. *)
Theorem findCommonDomains_intersection (allData : list MetricsData)
    (commonDomains : gset string) :
  findCommonDomains allData = Ok commonDomains →
  (∀ domain,
     domain ∈ commonDomains
     ↔ Forall (λ data, Notions.validDomain data domain) allData)
  ∧ ∀ data, data ∈ allData → commonDomains ⊆ dom data.
Proof.
  intros Hcommon. split; [exact (common_domain_iff _ _ Hcommon)|].
  intros data Hdata domain Hdomain.
  apply (common_domain_iff _ _ Hcommon) in Hdomain.
  rewrite list.Forall_forall in Hdomain.
  destruct (Hdomain data Hdata) as (entries & Hentries & _).
  apply elem_of_dom. by rewrite Hentries.
Qed.

Lemma findCommonDomains_intersection_witness :
  findCommonDomains [Samples.twoDomains] = Ok {[ "example.com" ]}
  ∧ ("test.com" ∈@{gset string} {[ "example.com" ]}
     ↔ Forall (λ data, Notions.validDomain data "test.com")
              [Samples.twoDomains]).
Proof.
  assert (Hcommon : findCommonDomains [Samples.twoDomains]
                    = Ok {[ "example.com" ]}) by (by vm_compute).
  split; [exact Hcommon|].
  exact (proj1 (findCommonDomains_intersection _ _ Hcommon) "test.com").
Defined.

Lemma round64Q_reaches_20 (q : Q) :
  (20 <= round64Q q ↔ 20 - (1 # 562949953421312) <= q)%Q.
Proof.
  assert (Hmid : (round64Q (20 - (1 # 562949953421312)) == 20)%Q)
    by (by vm_compute).
  assert (Hpred : (round64Q (20 - (1 # 281474976710656))
                   == 20 - (1 # 281474976710656))%Q) by (by vm_compute).
  split.
  - intros Hreach. apply Qnot_lt_le. intros Hlt.
    assert (Hbelow : (round64Q q <= 20 - (1 # 281474976710656))%Q).
    { destruct (Qlt_le_dec (20 - (1 # 281474976710656)) q) as [Hgt|Hle].
      - assert (Hm : magnitude q = 5%Z).
        { apply magnitude_unique; rewrite Qabs_of_pos by lra.
          - change (2 ^ (5 - 1))%Q with 16%Q. lra.
          - change (2 ^ 5)%Q with 32%Q. lra. }
        assert (Hq : quantum q = (-48)%Z) by (unfold quantum; rewrite Hm; lia).
        rewrite (round64Q_near q (20 - (1 # 281474976710656))
                   (20 * 2 ^ 48 - 1)); [apply Qle_refl|..]; rewrite Hq.
        + by vm_compute.
        + change (2 ^ (-48) / 2)%Q with (1 # 562949953421312)%Q. lra.
        + change (2 ^ (-48) / 2)%Q with (1 # 562949953421312)%Q. lra.
      - rewrite <-Hpred. apply round64Q_mono, Hle. }
    lra.
  - intros Hle. rewrite <-Hmid. apply round64Q_mono, Hle.
Qed.

(** A domain passes when it has at least one entry and the double quotient
    of the sum of its requests by the number of entries is 20 or more; the
    quotient is rounded to 20 from [20 - 2^-49] on.  A domain without entry
    does not pass. *)
Theorem meetsThreshold_average (entries : list Metrics) :
  meetsThreshold entries = true
  ↔ entries ≠ []
    ∧ (Qc_of_Z 20 - Spec.thresholdMargin) * ofNat (length entries)
      ≤ sum ((λ m, totalRequests (requests m)) <$> entries).
Proof.
  unfold meetsThreshold. cbv zeta.
  rewrite (sum_fold (λ m, totalRequests (requests m))).
  destruct entries as [|entry entries]; [by split; [|intros []]|].
  set (total := sum _). cbn [length divLength].
  set (n := S (length entries)).
  assert (Hn : 0 < ofNat n) by (apply ofNat_pos; unfold n; lia).
  assert (Hne : ofNat n ≠ 0) by (by apply not_symmetry, Qclt_not_eq).
  rewrite bool_decide_eq_true. unfold MIN_REQUESTS_THRESHOLD.
  assert (Hreach : Qc_of_Z 20 ≤ divide total (ofNat n)
                   ↔ Qc_of_Z 20 - Spec.thresholdMargin ≤ total / ofNat n).
  { unfold Qcle. rewrite this_divide.
    change (this (Qc_of_Z 20)) with 20%Q. rewrite round64Q_reaches_20.
    assert (Hq : (this (total / ofNat n) == this total / this (ofNat n))%Q).
    { unfold Qcdiv, Qcmult, Qcinv. by rewrite !this_Q2Qc. }
    assert (Hm : (this (Qc_of_Z 20 - Spec.thresholdMargin)
                  == 20 - (1 # 562949953421312))%Q) by (by vm_compute).
    by rewrite Hq, Hm. }
  rewrite Hreach. split.
  - intros Hle. split; [done|].
    apply (Qcmult_le_compat_r _ _ (ofNat n)) in Hle;
      [|by apply Qclt_le_weak].
    replace (total / ofNat n * ofNat n) with total in Hle by (by field).
    exact Hle.
  - intros [_ Hle]. apply Qcmult_lt_0_le_reg_r with (ofNat n); [done|].
    replace (total / ofNat n * ofNat n) with total by (by field).
    exact Hle.
Qed.

(** Three entries of [24.5], [24.99] and [10.51] requests, 60 in all: their
    double sum divided by 3 is [19.999999999999996], and the domain does not
    pass. *)
Example threshold_missed_by_rounding :
  meetsThreshold
    [ Samples.withCounts Samples.baseMetric (decimal 1 245) 0 0 0 0 0;
      Samples.withCounts Samples.baseMetric (decimal 2 2499) 0 0 0 0 0;
      Samples.withCounts Samples.baseMetric (decimal 2 1051) 0 0 0 0 0 ]
  = false.
Proof. by vm_compute. Qed.

Lemma filter_from (data : MetricsData) (commonDomains : gset string)
    (keys : list string) (start : MetricsData) (domain : string) :
  foldl (λ (filteredData : MetricsData) domain,
           if decide (domain ∈ commonDomains)
           then match data !! domain with
                | Some entries => <[domain := entries]> filteredData
                | None => filteredData
                end
           else filteredData)
        start keys !! domain
  = if decide (domain ∈ keys ∧ domain ∈ commonDomains
               ∧ is_Some (data !! domain))
    then data !! domain
    else start !! domain.
Proof.
  revert start. induction keys as [|key keys IH]; intros start.
  - cbn [foldl]. rewrite decide_False; [done|]. intros [Hin _].
    by apply not_elem_of_nil in Hin.
  - cbn [foldl]. rewrite IH.
    destruct (decide (domain ∈ keys ∧ domain ∈ commonDomains
                      ∧ is_Some (data !! domain))) as [(Hin & Hc & Hs)|Hnot].
    + rewrite decide_True; [done|]. split; [by apply elem_of_cons; right|done].
    + destruct (decide (domain = key)) as [->|Hne].
      * destruct (decide (key ∈ commonDomains)) as [Hc|Hc].
        -- destruct (data !! key) as [entries|] eqn:Hkey.
           ++ rewrite lookup_insert_eq.
              rewrite decide_True; [done|].
              split; [apply elem_of_cons; by left|by split].
           ++ rewrite decide_False; [done|]. by intros (_ & _ & [? ?]).
        -- rewrite decide_False; [done|]. by intros (_ & ? & _).
      * assert (Hrest :
          (if decide (key ∈ commonDomains)
           then match data !! key with
                | Some entries => <[key := entries]> start
                | None => start
                end
           else start) !! domain = start !! domain).
        { case_decide; [|done]. destruct (data !! key); [|done].
          by rewrite lookup_insert_ne. }
        rewrite Hrest. rewrite decide_False; [done|].
        intros (Hin & Hc & Hs). apply Hnot. split; [|done].
        apply elem_of_cons in Hin as [?|?]; done.
Qed.

Lemma filtered_lookup (data : MetricsData) (commonDomains : gset string)
    (domain : string) :
  filterDataByCommonDomains data commonDomains !! domain
  = if decide (domain ∈ commonDomains) then data !! domain else None.
Proof.
  unfold filterDataByCommonDomains. rewrite filter_from, lookup_empty.
  destruct (decide (domain ∈ commonDomains)) as [Hc|Hc].
  - destruct (data !! domain) as [entries|] eqn:Hlookup.
    + rewrite decide_True; [done|]. split; [|by split].
      apply elem_of_objectKeys. by rewrite Hlookup.
    + rewrite decide_False; [done|]. by intros (_ & _ & [? ?]).
  - rewrite decide_False; [done|]. by intros (_ & ? & _).
Qed.

(** Filtering is a projection: the entries of a common domain are kept as
    they are, the other domains are dropped; the result is part of the data,
    and filtering it again changes nothing. *)
Theorem filterDataByCommonDomains_lookup (data : MetricsData)
    (commonDomains : gset string) :
  (∀ domain,
     filterDataByCommonDomains data commonDomains !! domain
     = if decide (domain ∈ commonDomains) then data !! domain else None)
  ∧ filterDataByCommonDomains data commonDomains ⊆ data
  ∧ filterDataByCommonDomains
      (filterDataByCommonDomains data commonDomains) commonDomains
    = filterDataByCommonDomains data commonDomains.
Proof.
  split; [apply filtered_lookup|]. split.
  - apply map_subseteq_spec. intros domain entries.
    rewrite filtered_lookup. by case_decide.
  - apply map_eq. intros domain. rewrite !filtered_lookup.
    by case_decide.
Qed.

Lemma filtered_domains (allData : list MetricsData)
    (commonDomains : gset string) (data : MetricsData) :
  findCommonDomains allData = Ok commonDomains →
  data ∈ allData →
  dom (filterDataByCommonDomains data commonDomains) = commonDomains.
Proof.
  intros Hcommon Hdata. apply set_eq. intros domain.
  rewrite elem_of_dom, filtered_lookup.
  destruct (decide (domain ∈ commonDomains)) as [Hc|Hc].
  - split; [done|]. intros _.
    apply (common_domain_iff _ _ Hcommon) in Hc.
    rewrite list.Forall_forall in Hc.
    destruct (Hc data Hdata) as (entries & -> & _). by eexists.
  - split; [by intros [? ?]|done].
Qed.

(** After reconciliation every input is cut down to the same set of
    domains, the common ones, each with the entries it had. *)
Theorem reconciled_inputs_share_domains (allData : list MetricsData)
    (commonDomains : gset string) (data : MetricsData) :
  findCommonDomains allData = Ok commonDomains →
  data ∈ allData →
  dom (filterDataByCommonDomains data commonDomains) = commonDomains
  ∧ size (filterDataByCommonDomains data commonDomains) = size commonDomains
  ∧ ∀ domain,
      domain ∈ commonDomains →
      is_Some (data !! domain)
      ∧ filterDataByCommonDomains data commonDomains !! domain
        = data !! domain.
Proof.
  intros Hcommon Hdata.
  pose proof (filtered_domains _ _ _ Hcommon Hdata) as Hdom.
  split; [exact Hdom|]. split.
  - by rewrite <-(size_dom (D:=gset string)), Hdom.
  - intros domain Hdomain.
    assert (Hlookup : filterDataByCommonDomains data commonDomains !! domain
                      = data !! domain)
      by (by rewrite filtered_lookup, decide_True).
    split; [|exact Hlookup].
    rewrite <-Hlookup. apply elem_of_dom. by rewrite Hdom.
Qed.

Lemma reconciled_inputs_share_domains_witness :
  findCommonDomains [Samples.twoDomains] = Ok {[ "example.com" ]}
  ∧ Samples.twoDomains ∈ [Samples.twoDomains]
  ∧ dom (filterDataByCommonDomains Samples.twoDomains {[ "example.com" ]})
    = {[ "example.com" ]}.
Proof.
  assert (Hcommon : findCommonDomains [Samples.twoDomains]
                    = Ok {[ "example.com" ]}) by (by vm_compute).
  assert (Hin : Samples.twoDomains ∈ [Samples.twoDomains])
    by apply list_elem_of_here.
  split; [exact Hcommon|]. split; [exact Hin|].
  exact (proj1 (reconciled_inputs_share_domains _ _ _ Hcommon Hin)).
Defined.

End Reconciliation.

(** ** Further properties of the aggregator *)

Section Reach.

Variable getDomain : string → option string.
Variable trackersInfo : TrackersData.t.
Variable companiesInfo : CompaniesData.t.

(** Without any domain the statistics are all zero, the averages are [NaN]
    and the reach maps are empty; nothing is thrown. *)
Theorem computeStatistics_empty :
  computeStatistics getDomain ∅ trackersInfo companiesInfo
  = ReportResult.mk 0 None None 0 None 0 None 0 None 0 None 0 None 0 None 0
      ∅ ∅ ∅ ∅ TestEnvironment.Baseline.
Proof.
  unfold computeStatistics, computeStatisticsFor, objectKeys.
  rewrite map_to_list_empty.
  cbn [fmap list_fmap length]. unfold processAllDomains. cbn [foldl fst snd].
  unfold assembleResult, calculateAverages, convertSetsToCountMaps,
    initializeAggregatedData, initializeCollectedData.
  cbn [fst snd divLength AggregatedData.totalDomContentLoadTime
       AggregatedData.totalLoadTime AggregatedData.totalBytes
       AggregatedData.totalRequests AggregatedData.totalThirdPartyRequests
       AggregatedData.totalBlockedRequests AggregatedData.totalHostnames
       AggregatedData.totalEtldPlus1s
       CollectedData.etldPlus1WebsitesData CollectedData.companiesWebsitesData
       CollectedData.trackersWebsitesData
       Averages.averageDomContentLoadTime Averages.averageLoadTime
       Averages.averageBytes Averages.averageRequests
       Averages.averageThirdPartyRequests Averages.averageBlockedRequests
       Averages.averageHostnames Averages.averageEtldPlus1s].
  rewrite !fmap_empty, !toFixed_0. reflexivity.
Qed.


(** Two-tier lookup of the tracker name: the tracker found by the hostname
    wins; a hostname with an eTLD+1 is otherwise named by the tracker of that
    eTLD+1, and skipped when there is none. *)
Theorem tracker_name_two_tiers (hostname : string) :
  (∀ tracker,
     lookupTruthy (TrackersData.trackers trackersInfo)
       (TrackersData.trackerDomains trackersInfo !! hostname) = Some tracker →
     trackerNameFor getDomain trackersInfo hostname
     = Some (TrackerInfo.name tracker))
  ∧ (∀ etldPlus1,
       JsString.truthy (getDomain hostname) = Some etldPlus1 →
       trackerNameFor getDomain trackersInfo hostname
       = TrackerInfo.name
           <$> Spec.resolvedTracker getDomain trackersInfo hostname).
Proof.
  unfold trackerNameFor, Spec.resolvedTracker. split.
  - by intros tracker ->.
  - intros etldPlus1 ->.
    destruct (lookupTruthy _ (_ !! hostname)); [done|].
    by destruct (lookupTruthy _ (_ !! etldPlus1)).
Qed.

End Reach.


Lemma tracker_name_two_tiers_witness :
  JsString.truthy (Samples.getDomain "cdn.ads.tracker.com")
  = Some "tracker.com"
  ∧ trackerNameFor Samples.getDomain Samples.oneTracker "cdn.ads.tracker.com"
    = None.
Proof.
  split; [reflexivity|].
  rewrite (proj2 (tracker_name_two_tiers Samples.getDomain Samples.oneTracker
                    "cdn.ads.tracker.com") "tracker.com"); reflexivity.
Defined.

(** ** Website reach *)

Section ReachSteps.

Variable naming : string → option string.

Lemma sitesOf_addWebsite (websites : gmap string (gset string))
    (name domain name' : string) :
  Notions.sitesOf (addWebsite websites name domain) name'
  = if decide (name = name')
    then Notions.sitesOf websites name ∪ {[domain]}
    else Notions.sitesOf websites name'.
Proof.
  unfold Notions.sitesOf, addWebsite. case_decide as Hname.
  - subst name'. by rewrite lookup_insert_eq.
  - by rewrite lookup_insert_ne.
Qed.

Lemma reachStep_member (websites : gmap string (gset string))
    (domain hostname name site : string) :
  site ∈ Notions.sitesOf (Notions.reachStep naming domain websites hostname)
           name
  ↔ site ∈ Notions.sitesOf websites name
    ∨ (site = domain ∧ naming hostname = Some name).
Proof.
  unfold Notions.reachStep. destruct (naming hostname) as [given|].
  - rewrite sitesOf_addWebsite. case_decide as Hname.
    + subst given. set_solver.
    + split; [by left|]. intros [?|[_ [= ?]]]; done.
  - split; [by left|]. by intros [?|[_ ?]].
Qed.

Lemma reachStep_nonEmpty (websites : gmap string (gset string))
    (domain hostname : string) :
  Notions.nonEmptySets websites →
  Notions.nonEmptySets (Notions.reachStep naming domain websites hostname).
Proof.
  intros Hsets. unfold Notions.reachStep.
  destruct (naming hostname) as [given|]; [|done].
  intros name sites. unfold addWebsite.
  destruct (decide (given = name)) as [->|Hname].
  - rewrite lookup_insert_eq. intros [= <-]. set_solver.
  - rewrite lookup_insert_ne by done. apply Hsets.
Qed.

Lemma reach_hostnames_member (hostnames : list string)
    (websites : gmap string (gset string)) (domain name site : string) :
  site ∈ Notions.sitesOf
           (foldl (Notions.reachStep naming domain) websites hostnames) name
  ↔ site ∈ Notions.sitesOf websites name
    ∨ (site = domain
       ∧ ∃ hostname, hostname ∈ hostnames ∧ naming hostname = Some name).
Proof.
  revert websites. induction hostnames as [|hostname hostnames IH];
    intros websites; cbn [foldl].
  - split; [by left|]. intros [?|[_ (h & Hin & _)]]; [done|].
    by apply not_elem_of_nil in Hin.
  - rewrite IH, reachStep_member. split.
    + intros [[?|[-> Hname]]|[-> (h & Hin & Hname)]].
      * by left.
      * right. split; [done|]. exists hostname. split; [|done].
        apply list_elem_of_here.
      * right. split; [done|]. exists h. split; [|done].
        by apply list_elem_of_further.
    + intros [?|[-> (h & Hin & Hname)]]; [by left; left|].
      apply elem_of_cons in Hin as [->|Hin].
      * left. right. done.
      * right. split; [done|]. by exists h.
Qed.

Lemma reach_hostnames_nonEmpty (hostnames : list string)
    (websites : gmap string (gset string)) (domain : string) :
  Notions.nonEmptySets websites →
  Notions.nonEmptySets
    (foldl (Notions.reachStep naming domain) websites hostnames).
Proof.
  revert websites. induction hostnames as [|hostname hostnames IH];
    intros websites Hsets; [done|].
  cbn [foldl]. by apply IH, reachStep_nonEmpty.
Qed.

End ReachSteps.

Section ReachMaps.

Variable getDomain : string → option string.
Variable trackersInfo : TrackersData.t.
Variable companiesInfo : CompaniesData.t.

(** How one of the three maps of websites evolves: [naming] gives the name
    under which a hostname is recorded in the map [reach]. *)
Variable naming : string → option string.
Variable reach : CollectedData.t → gmap string (gset string).
Hypothesis reach_entry :
  ∀ domain state entry,
    reach (processEntry getDomain domain trackersInfo companiesInfo
             state entry).2
    = foldl (Notions.reachStep naming domain) (reach state.2)
            (objectKeys (hostnames (requests entry))).

Lemma reach_entries_member (domain : string) (entries : list Metrics)
    (state : AggregatedData.t * CollectedData.t) (name site : string) :
  site ∈ Notions.sitesOf
           (reach (foldl (processEntry getDomain domain trackersInfo
                            companiesInfo) state entries).2) name
  ↔ site ∈ Notions.sitesOf (reach state.2) name
    ∨ (site = domain
       ∧ ∃ entry hostname,
           entry ∈ entries
           ∧ is_Some (hostnames (requests entry) !! hostname)
           ∧ naming hostname = Some name).
Proof.
  revert state. induction entries as [|entry entries IH]; intros state;
    cbn [foldl].
  - split; [by left|]. intros [?|[_ (e & h & Hin & _)]]; [done|].
    by apply not_elem_of_nil in Hin.
  - rewrite IH, reach_entry, reach_hostnames_member. split.
    + intros [[?|[-> (h & Hin & Hname)]]|[-> (e & h & Hin & Hh & Hname)]].
      * by left.
      * right. split; [done|]. exists entry, h.
        split; [apply list_elem_of_here|].
        split; [by apply elem_of_objectKeys|done].
      * right. split; [done|]. exists e, h.
        split; [by apply list_elem_of_further|done].
    + intros [?|[-> (e & h & Hin & Hh & Hname)]]; [by left; left|].
      apply elem_of_cons in Hin as [->|Hin].
      * left. right. split; [done|]. exists h.
        split; [by apply elem_of_objectKeys|done].
      * right. split; [done|]. by exists e, h.
Qed.

Lemma reach_entries_nonEmpty (domain : string) (entries : list Metrics)
    (state : AggregatedData.t * CollectedData.t) :
  Notions.nonEmptySets (reach state.2) →
  Notions.nonEmptySets
    (reach (foldl (processEntry getDomain domain trackersInfo companiesInfo)
                  state entries).2).
Proof.
  revert state. induction entries as [|entry entries IH]; intros state Hsets;
    [done|].
  cbn [foldl]. apply IH. rewrite reach_entry.
  by apply reach_hostnames_nonEmpty.
Qed.

Lemma reach_domains_member (domains : list string) (data : MetricsData)
    (state : AggregatedData.t * CollectedData.t) (name site : string) :
  site ∈ Notions.sitesOf
           (reach (foldl (λ state domain,
                            let entries := default [] (data !! domain) in
                            foldl (processEntry getDomain domain trackersInfo
                                     companiesInfo) state entries)
                         state domains).2) name
  ↔ site ∈ Notions.sitesOf (reach state.2) name
    ∨ (site ∈ domains
       ∧ ∃ entry hostname,
           entry ∈ default [] (data !! site)
           ∧ is_Some (hostnames (requests entry) !! hostname)
           ∧ naming hostname = Some name).
Proof.
  revert state. induction domains as [|domain domains IH]; intros state;
    cbn [foldl].
  - split; [by left|]. intros [?|[Hin _]]; [done|].
    by apply not_elem_of_nil in Hin.
  - rewrite IH. cbv zeta. rewrite reach_entries_member, elem_of_cons.
    split.
    + intros [[?|[-> ?]]|[? ?]]; [by left|right..]; split; auto.
    + intros [?|[[->|?] ?]]; [by left; left|left; right|right]; split; auto.
Qed.

Lemma reach_domains_nonEmpty (domains : list string) (data : MetricsData)
    (state : AggregatedData.t * CollectedData.t) :
  Notions.nonEmptySets (reach state.2) →
  Notions.nonEmptySets
    (reach (foldl (λ state domain,
                     let entries := default [] (data !! domain) in
                     foldl (processEntry getDomain domain trackersInfo
                              companiesInfo) state entries)
                  state domains).2).
Proof.
  revert state. induction domains as [|domain domains IH]; intros state Hsets;
    [done|].
  cbn [foldl]. apply IH. cbv zeta. by apply reach_entries_nonEmpty.
Qed.

Lemma reach_counts (data : MetricsData) :
  reach initializeCollectedData = ∅ →
  Notions.countsContacts naming data
    (size <$> reach (processAllDomains getDomain (objectKeys data) data
                       trackersInfo companiesInfo initializeAggregatedData
                       initializeCollectedData).2).
Proof.
  intros Hinit name. unfold processAllDomains.
  set (final := foldl _ _ _).
  assert (Hmember : ∀ site,
    site ∈ Notions.sitesOf (reach final.2) name
    ↔ Notions.contacts naming data name site).
  { intros site. unfold final. rewrite reach_domains_member.
    cbn [snd]. rewrite Hinit. unfold Notions.sitesOf at 1.
    rewrite lookup_empty. cbn [default from_option]. split.
    - intros [Hin|[Hin (entry & hostname & Hentry & Hh & Hname)]];
        [by apply not_elem_of_empty in Hin|].
      apply elem_of_objectKeys in Hin as [entries Hentries].
      rewrite Hentries in Hentry. by exists entries, entry, hostname.
    - intros (entries & entry & hostname & Hentries & Hentry & Hh & Hname).
      right. split; [apply elem_of_objectKeys; by rewrite Hentries|].
      exists entry, hostname. by rewrite Hentries. }
  assert (Hsets : Notions.nonEmptySets (reach final.2)).
  { apply reach_domains_nonEmpty. cbn [snd]. rewrite Hinit.
    intros ? ?. by rewrite lookup_empty. }
  rewrite lookup_fmap. unfold Notions.sitesOf in Hmember.
  destruct (reach final.2 !! name) as [sites|] eqn:Hsites; cbn.
  - exists sites. split; [done|]. split; [|exact Hmember].
    split.
    + pose proof (Hsets name sites Hsites) as Hne.
      assert (Hsize : size sites ≠ 0%nat).
      { apply size_non_empty_iff. intros Hempty. apply Hne.
        by apply leibniz_equiv. }
      lia.
    + rewrite <-(size_dom (D:=gset string) data).
      apply subseteq_size. intros site Hsite.
      apply Hmember in Hsite as (entries & _ & _ & Hentries & _).
      apply elem_of_dom. by rewrite Hentries.
  - intros domain Hcontact. apply Hmember in Hcontact.
    by apply not_elem_of_empty in Hcontact.
Qed.

End ReachMaps.

Section ReachOfStatistics.

Variable getDomain : string → option string.
Variable trackersInfo : TrackersData.t.
Variable companiesInfo : CompaniesData.t.

Lemma tally_websites (nameFor : string → option string)
    (entries : list (string * Qc)) (domain : string)
    (tally : gmap string Qc) (websites : gmap string (gset string)) :
  (foldl (λ acc entry,
            match nameFor entry.1 with
            | Some name =>
                if decide (name = EmptyString) then acc
                else (addCount acc.1 name entry.2,
                      addWebsite acc.2 name domain)
            | None => acc
            end)
         (tally, websites) entries).2
  = foldl (Notions.reachStep (λ hostname, JsString.truthy (nameFor hostname))
             domain)
          websites entries.*1.
Proof.
  revert tally websites.
  induction entries as [|[hostname count] entries IH]; intros tally websites;
    [done|].
  cbn [foldl fmap list_fmap fst snd]. unfold Notions.reachStep at 2.
  destruct (nameFor hostname) as [name|]; cbn [JsString.truthy]; [|apply IH].
  case_decide; apply IH.
Qed.

Lemma trackers_reach_entry (domain : string)
    (state : AggregatedData.t * CollectedData.t) (entry : Metrics) :
  CollectedData.trackersWebsitesData
    (processEntry getDomain domain trackersInfo companiesInfo state entry).2
  = foldl (Notions.reachStep
             (λ hostname,
                JsString.truthy (trackerNameFor getDomain trackersInfo hostname))
             domain)
          (CollectedData.trackersWebsitesData state.2)
          (objectKeys (hostnames (requests entry))).
Proof.
  unfold processEntry, objectTruthy, processEtldPlus1Data,
    processHostnameData.
  cbn [fst snd CollectedData.trackersWebsitesData].
  unfold processTrackers. apply tally_websites.
Qed.

Lemma companies_reach_entry (domain : string)
    (state : AggregatedData.t * CollectedData.t) (entry : Metrics) :
  CollectedData.companiesWebsitesData
    (processEntry getDomain domain trackersInfo companiesInfo state entry).2
  = foldl (Notions.reachStep
             (λ hostname,
                JsString.truthy
                  (companyNameFor getDomain trackersInfo companiesInfo
                     hostname))
             domain)
          (CollectedData.companiesWebsitesData state.2)
          (objectKeys (hostnames (requests entry))).
Proof.
  unfold processEntry, objectTruthy, processEtldPlus1Data,
    processHostnameData.
  cbn [fst snd CollectedData.companiesWebsitesData].
  unfold processCompanies. apply tally_websites.
Qed.

Lemma etldPlus1_reach_entry (domain : string)
    (state : AggregatedData.t * CollectedData.t) (entry : Metrics) :
  CollectedData.etldPlus1WebsitesData
    (processEntry getDomain domain trackersInfo companiesInfo state entry).2
  = foldl (Notions.reachStep
             (λ hostname, JsString.truthy (getDomain hostname)) domain)
          (CollectedData.etldPlus1WebsitesData state.2)
          (objectKeys (hostnames (requests entry))).
Proof. reflexivity. Qed.


End ReachOfStatistics.

(** ** Report assembly *)

(** The detected environment is one of the four known ones, and [baseline]
    when there is no domain. *)
Theorem determineTestEnvironment_known (data : MetricsData) :
  determineTestEnvironment data
    ∈ [TestEnvironment.None; TestEnvironment.Baseline; TestEnvironment.DNS;
       TestEnvironment.Extension]
  ∧ (data = ∅ → determineTestEnvironment data = TestEnvironment.Baseline).
Proof.
  split.
  - unfold determineTestEnvironment.
    destruct (objectKeys data) as [|firstDomain ?]; [set_solver|].
    destruct (JsString.truthy _) as [env|]; [|set_solver].
    repeat case_decide; set_solver.
  - intros ->. unfold determineTestEnvironment, objectKeys.
    by rewrite map_to_list_empty.
Qed.

Section ReportAssembly.

Variable getDomain : string → option string.
Variable basename : string → string.
Variable trackersInfo : TrackersData.t.
Variable companiesInfo : CompaniesData.t.

Lemma foldl_insert_list_to_map {V} (entries : list (string * V)) :
  foldl (λ (m : gmap string V) entry, <[entry.1 := entry.2]> m) ∅ entries
  = list_to_map (reverse entries).
Proof.
  induction entries as [|entry entries IH] using rev_ind; [done|].
  rewrite foldl_app, reverse_app. cbn [foldl reverse rev_append app].
  by rewrite IH.
Qed.

Lemma generateReportResults_loop (allData : list MetricsData)
    (commonDomains : gset string) (inputFiles : list string) :
  generateReportResults getDomain basename allData commonDomains inputFiles
    trackersInfo companiesInfo
  = foldl (Notions.reportStep getDomain basename trackersInfo companiesInfo
             allData commonDomains)
          (Ok ∅) (imap (λ i file, (i, file)) inputFiles).
Proof. reflexivity. Qed.

Lemma reportStep_thrown (e : JsError) (allData : list MetricsData)
    (commonDomains : gset string) (indexed : list (nat * string)) :
  foldl (Notions.reportStep getDomain basename trackersInfo companiesInfo
           allData commonDomains)
        (Throw e) indexed
  = Throw e.
Proof. induction indexed as [|? ? IH]; [done|]. cbn [foldl]. apply IH. Qed.

Lemma reportStep_from (allData : list MetricsData)
    (commonDomains : gset string) (inputFiles : list string) (k : nat)
    (reportResultsMap : gmap string ReportResult.t) :
  (k ≤ length allData)%nat →
  foldl (Notions.reportStep getDomain basename trackersInfo companiesInfo
           allData commonDomains)
        (Ok reportResultsMap) (imap (λ i file, ((k + i)%nat, file)) inputFiles)
  = if decide (k + length inputFiles ≤ length allData)%nat
    then Ok (foldl (λ (m : gmap string ReportResult.t) entry,
                      <[entry.1 := entry.2]> m)
                   reportResultsMap
                   (zip_with
                      (λ file data,
                         (basename file,
                          Notions.reportOf getDomain trackersInfo
                            companiesInfo commonDomains data))
                      inputFiles (drop k allData)))
    else Throw (TypeError "Cannot convert undefined or null to object").
Proof.
  revert k reportResultsMap.
  induction inputFiles as [|file inputFiles IH]; intros k reportResultsMap Hk.
  - cbn [imap foldl length zip_with]. rewrite decide_True by lia. done.
  - rewrite imap_cons. cbn [foldl]. unfold Notions.reportStep at 2.
    cbn [fst snd]. rewrite Nat.add_0_r.
    destruct (allData !! k) as [data|] eqn:Hdata.
    + pose proof (lookup_lt_Some _ _ _ Hdata) as Hlt.
      rewrite (imap_ext _ (λ i file, ((S k + i)%nat, file)))
        by (intros; simpl; f_equal; lia).
      rewrite IH by lia. cbn [length].
      rewrite (drop_S _ _ _ Hdata). cbn [zip_with foldl fst snd].
      destruct (decide (S k + length inputFiles ≤ length allData)%nat).
      * rewrite decide_True by lia. reflexivity.
      * rewrite decide_False by lia. reflexivity.
    + pose proof (proj1 (lookup_ge_None _ _) Hdata) as Hge.
      rewrite reportStep_thrown.
      cbn [length]. rewrite decide_False by lia. reflexivity.
Qed.


Lemma computeStatistics_siteCount (data : MetricsData) :
  ReportResult.siteCount
    (computeStatistics getDomain data trackersInfo companiesInfo)
  = size data.
Proof.
  unfold computeStatistics, computeStatisticsFor, assembleResult.
  cbn [ReportResult.siteCount].
  by rewrite length_objectKeys.
Qed.

(** All the reports of a run are over the same sites: every report covers
    exactly the common domains. *)
Theorem reports_cover_common_domains (allData : list MetricsData)
    (inputFiles : list string) (results : gmap string ReportResult.t)
    (name : string) (report : ReportResult.t) :
  generateReport getDomain basename allData inputFiles trackersInfo
    companiesInfo = Ok results →
  results !! name = Some report →
  ∃ commonDomains,
    findCommonDomains allData = Ok commonDomains
    ∧ dom (ReportResult.domainsData report) = commonDomains
    ∧ ReportResult.siteCount report = size commonDomains.
Proof.
  unfold generateReport.
  destruct (findCommonDomains allData) as [commonDomains|] eqn:Hcommon;
    [|done].
  rewrite generateReportResults_loop.
  rewrite (reportStep_from allData commonDomains inputFiles 0) by lia.
  cbn [Nat.add drop]. case_decide; [|done].
  rewrite foldl_insert_list_to_map.
  intros [= <-] Hreport. exists commonDomains. split; [done|].
  apply elem_of_list_to_map_2 in Hreport. rewrite elem_of_reverse in Hreport.
  apply list_elem_of_lookup in Hreport as [i Hi].
  apply lookup_zip_with_Some in Hi as (file & data & [= -> ->] & _ & Hdata).
  assert (Hin : data ∈ allData) by (by eapply list_elem_of_lookup_2).
  pose proof (filtered_domains _ _ _ Hcommon Hin) as Hdom.
  unfold Notions.reportOf. split.
  - exact Hdom.
  - change (ReportResult.siteCount (ReportResult.setType ?r _))
      with (ReportResult.siteCount r).
    rewrite computeStatistics_siteCount, <-(size_dom (D:=gset string)).
    by rewrite Hdom.
Qed.

End ReportAssembly.

Lemma reports_cover_common_domains_witness :
  ∃ results report,
    generateReport Samples.getDomain id [Samples.twoDomains]
      ["baseline.json"] Samples.noTrackers Samples.noCompanies = Ok results
    ∧ results !! "baseline.json" = Some report
    ∧ ReportResult.siteCount report = 1%nat.
Proof.
  destruct (generateReport Samples.getDomain id [Samples.twoDomains]
              ["baseline.json"] Samples.noTrackers Samples.noCompanies)
    as [results|] eqn:Hresults; [|by vm_compute in Hresults].
  destruct (results !! "baseline.json") as [report|] eqn:Hreport.
  - exists results, report. split; [done|]. split; [done|].
    destruct (reports_cover_common_domains Samples.getDomain id
                Samples.noTrackers Samples.noCompanies _ _ _ _ _
                Hresults Hreport) as (common & Hcommon & _ & ->).
    assert (Hc : findCommonDomains [Samples.twoDomains]
                 = Ok {[ "example.com" ]}) by (by vm_compute).
    rewrite Hc in Hcommon. injection Hcommon as <-. by vm_compute.
  - exfalso. revert Hreport. injection Hresults as <-. by vm_compute.
Defined.

(** ** Further properties of the run averager *)

Section AveragerMore.

(** An averaged mapping never holds a zero or negative value, and its
    values have two decimals. *)
Theorem averaged_values_positive (runs : list Metrics) (out : Metrics)
    (key : string) (average : Qc) :
  computeAverageMetrics runs = Ok out →
  hostnames (requests out) !! key = Some average
  ∨ etldPlus1s (requests out) !! key = Some average →
  0 < average ∧ toFixed 2 average = average.
Proof.
  intros Hout Hkey.
  destruct (computeAverageMetrics_maps runs out Hout) as [Hh He].
  unfold Spec.hostnamesOf, Spec.etldPlus1sOf in Hh, He.
  rewrite Hh, He in Hkey.
  change (λ m key, hostnames (requests m) !! key)
    with (λ m key, Spec.hostnamesOf m !! key) in Hkey.
  change (λ m key, etldPlus1s (requests m) !! key)
    with (λ m key, Spec.etldPlus1sOf m !! key) in Hkey.
  change (λ m, hostnames (requests m)) with Spec.hostnamesOf in Hkey.
  change (λ m, etldPlus1s (requests m)) with Spec.etldPlus1sOf in Hkey.
  rewrite !computeAveragesForKeys_lookup in Hkey.
  destruct Hkey as [Hkey|Hkey]; case_decide; simplify_eq;
    (split; [done|]); unfold Spec.keyAverage; apply toFixed_idem.
Qed.

Lemma averaged_values_positive_witness :
  ∃ out average,
    computeAverageMetrics Samples.threeRuns = Ok out
    ∧ hostnames (requests out) !! "tracker.com" = Some average
    ∧ 0 < average ∧ toFixed 2 average = average.
Proof.
  destruct (computeAverageMetrics_total Samples.threeRuns) as [out Hout];
    [discriminate|].
  destruct (hostnames (requests out) !! "tracker.com") as [average|] eqn:Hkey.
  - exists out, average. split; [done|]. split; [done|].
    apply (averaged_values_positive Samples.threeRuns out "tracker.com"
             average Hout).
    by left.
  - exfalso. revert Hkey. injection Hout as <-. by vm_compute.
Defined.

Lemma sumQc_Permutation (values values' : list Qc) :
  values ≡ₚ values' → sumQc values = sumQc values'.
Proof.
  induction 1 as [|x l l' _ IH|x y l|l l' l'' _ IH1 _ IH2].
  - done.
  - by rewrite !sumQc_cons, IH.
  - rewrite !sumQc_cons. ring.
  - congruence.
Qed.

(** Whole numbers add up to the same sum in every order. *)
Lemma sum_Permutation (values values' : list Qc) :
  values ≡ₚ values' →
  Forall Spec.wholeNumber values →
  (Z.of_nat (length values) ≤ 2 ^ 20)%Z →
  sum values = sum values'.
Proof.
  intros Hperm Hwhole Hlen.
  destruct (sum_whole values Hwhole Hlen) as [-> _].
  destruct (sum_whole values') as [-> _].
  - by rewrite <-Hperm.
  - by rewrite <-(Permutation_length Hperm).
  - by apply sumQc_Permutation.
Qed.

Lemma meanOfDefined_Permutation (values values' : list Qc) :
  values ≡ₚ values' →
  Forall Spec.wholeNumber values →
  (Z.of_nat (length values) ≤ 2 ^ 20)%Z →
  Spec.meanOfDefined values = Spec.meanOfDefined values'.
Proof.
  intros Hperm Hwhole Hlen. unfold Spec.meanOfDefined.
  rewrite (sum_Permutation _ _ Hperm Hwhole Hlen), (Permutation_length Hperm).
  destruct values as [|v values], values' as [|v' values']; try done.
  - by apply Permutation_nil_cons in Hperm.
  - symmetry in Hperm. by apply Permutation_nil_cons in Hperm.
Qed.

Lemma calculateAverage_Permutation (runs runs' : list Metrics)
    (field : Metrics → Qc) :
  runs ≡ₚ runs' →
  Forall (λ m, Spec.wholeNumber (field m)) runs →
  (Z.of_nat (length runs) ≤ 2 ^ 20)%Z →
  calculateAverage runs (λ m, Some (field m))
  = calculateAverage runs' (λ m, Some (field m)).
Proof.
  intros Hperm Hwhole Hlen. rewrite !calculateAverage_mean, !omap_Some.
  apply meanOfDefined_Permutation.
  - by apply fmap_Permutation.
  - by apply Forall_fmap.
  - by rewrite length_fmap.
Qed.

Lemma wholeNumber_0 : Spec.wholeNumber 0.
Proof. exists 0%nat. split; [qc_compute|done]. Qed.

Lemma keyAverage_Permutation (runs runs' : list Metrics)
    (mapping : Metrics → gmap string Qc) (key : string) :
  runs ≡ₚ runs' →
  Forall (λ m, map_Forall (λ _ v, Spec.wholeNumber v) (mapping m)) runs →
  (Z.of_nat (length runs) ≤ 2 ^ 20)%Z →
  Spec.keyAverage runs mapping key = Spec.keyAverage runs' mapping key.
Proof.
  intros Hperm Hwhole Hlen. unfold Spec.keyAverage.
  rewrite (sum_Permutation _ ((λ m, default 0 (mapping m !! key)) <$> runs')),
    (Permutation_length Hperm); [done|by apply fmap_Permutation| |].
  - apply Forall_fmap. eapply list.Forall_impl; [exact Hwhole|].
    intros m Hm. cbn. destruct (mapping m !! key) as [v|] eqn:Hv.
    + by apply (Hm key v).
    + apply wholeNumber_0.
  - by rewrite length_fmap.
Qed.

Lemma averaged_map_Permutation (runs runs' : list Metrics)
    (mapping : Metrics → gmap string Qc) :
  runs ≡ₚ runs' →
  Forall (λ m, map_Forall (λ _ v, Spec.wholeNumber v) (mapping m)) runs →
  (Z.of_nat (length runs) ≤ 2 ^ 20)%Z →
  computeAveragesForKeys runs (collectUniqueKeys runs mapping)
    (λ m key, mapping m !! key)
  = computeAveragesForKeys runs' (collectUniqueKeys runs' mapping)
      (λ m key, mapping m !! key).
Proof.
  intros Hperm Hwhole Hlen. apply map_eq. intros key.
  rewrite !computeAveragesForKeys_lookup.
  by rewrite (keyAverage_Permutation runs runs' mapping key Hperm Hwhole Hlen).
Qed.

(** The averaged request counters and name mappings do not depend on the
    order of the runs when the runs hold whole numbers, as page loads count
    them: whole numbers add up exactly.  Averages of fractional values, such
    as load times, can depend on it: doubles are added in the order of the
    runs. *)
Theorem averages_independent_of_run_order (runs runs' : list Metrics)
    (out out' : Metrics) :
  runs ≡ₚ runs' →
  Forall (λ m, Spec.wholeCounters (requests m)) runs →
  Forall (λ m, map_Forall (λ _ v, Spec.wholeNumber v) (Spec.hostnamesOf m))
    runs →
  Forall (λ m, map_Forall (λ _ v, Spec.wholeNumber v) (Spec.etldPlus1sOf m))
    runs →
  (Z.of_nat (length runs) ≤ 2 ^ 20)%Z →
  computeAverageMetrics runs = Ok out →
  computeAverageMetrics runs' = Ok out' →
  requests out = requests out'
  ∧ ∃ times times',
      times ≡ₚ times'
      ∧ Spec.meanOfDefined times ≠ Spec.meanOfDefined times'.
Proof.
  intros Hperm Hwhole Hhosts Hetlds Hlen Hout Hout'. split.
  - pose proof (averaged_map_Permutation runs runs' Spec.hostnamesOf Hperm
                  Hhosts Hlen) as Hh.
    pose proof (averaged_map_Permutation runs runs' Spec.etldPlus1sOf Hperm
                  Hetlds Hlen) as He.
    destruct runs as [|first rest] eqn:Hruns; [done|].
    destruct runs' as [|first' rest'] eqn:Hruns'; [done|].
    rewrite <-Hruns, <-Hruns' in *.
    rewrite Hruns in Hout at 1. rewrite Hruns' in Hout' at 1.
    unfold computeAverageMetrics in Hout, Hout'.
    rewrite <-Hruns in Hout. rewrite <-Hruns' in Hout'.
    injection Hout as <-. injection Hout' as <-.
    cbn [requests].
    unfold computeHostnameAverages, computeEtldPlusOneAverages.
    cbv zeta. unfold Spec.hostnamesOf, Spec.etldPlus1sOf in Hh, He.
    rewrite Hh, He.
    rewrite (calculateAverage_Permutation runs runs'
               (λ m, totalRequests (requests m)) Hperm),
      (calculateAverage_Permutation runs runs'
         (λ m, blockedRequests (requests m)) Hperm),
      (calculateAverage_Permutation runs runs'
         (λ m, notBlockedRequests (requests m)) Hperm),
      (calculateAverage_Permutation runs runs'
         (λ m, thirdPartyRequests (requests m)) Hperm),
      (calculateAverage_Permutation runs runs'
         (λ m, thirdPartyBlockedRequests (requests m)) Hperm),
      (calculateAverage_Permutation runs runs'
         (λ m, thirdPartyNotBlockedRequests (requests m)) Hperm);
      try done.
    all: eapply list.Forall_impl; [exact Hwhole|].
    all: intros m (? & ? & ? & ? & ? & ?); assumption.
  - exists [decimal 1 197; decimal 1 24; decimal 1 411; decimal 1 47],
      [decimal 1 197; decimal 1 411; decimal 1 24; decimal 1 47].
    split; [apply perm_skip, perm_swap|].
    intros Heq. apply (f_equal this) in Heq. vm_compute in Heq.
    discriminate Heq.
Qed.

Lemma roundingRuns_whole_maps (mapping : Metrics → gmap string Qc) :
  mapping = Spec.hostnamesOf ∨ mapping = Spec.etldPlus1sOf →
  Forall (λ m, map_Forall (λ _ v, Spec.wholeNumber v) (mapping m))
    Samples.roundingRuns.
Proof.
  intros [-> | ->]; repeat constructor; apply map_Forall_empty.
Defined.

Lemma averages_independent_of_run_order_witness :
  ∃ out out',
    Samples.roundingRuns ≡ₚ reverse Samples.roundingRuns
    ∧ computeAverageMetrics Samples.roundingRuns = Ok out
    ∧ computeAverageMetrics (reverse Samples.roundingRuns) = Ok out'
    ∧ requests out = requests out'.
Proof.
  assert (Hperm : Samples.roundingRuns ≡ₚ reverse Samples.roundingRuns)
    by (symmetry; apply reverse_Permutation).
  destruct (computeAverageMetrics_total Samples.roundingRuns) as [out Hout];
    [discriminate|].
  destruct (computeAverageMetrics_total (reverse Samples.roundingRuns))
    as [out' Hout']; [discriminate|].
  exists out, out'. split; [done|]. split; [done|]. split; [done|].
  apply (averages_independent_of_run_order _ _ _ _ Hperm roundingRuns_whole
           (roundingRuns_whole_maps _ (or_introl eq_refl))
           (roundingRuns_whole_maps _ (or_intror eq_refl))
           ltac:(by vm_compute) Hout Hout').
Defined.

Lemma sumQc_bounds (values : list Qc) (lo hi : Qc) :
  Forall (λ v, lo ≤ v ∧ v ≤ hi) values →
  lo * ofNat (length values) ≤ sumQc values
  ∧ sumQc values ≤ hi * ofNat (length values).
Proof.
  induction 1 as [|v values [Hlo Hhi] _ [IHlo IHhi]].
  - rewrite sumQc_nil. change (ofNat (length [])) with (Qc_of_Z 0).
    rewrite Z2Qc_inj_0, !Qcmult_0_r. split; apply Qcle_refl.
  - rewrite sumQc_cons. cbn [length].
    change (S (length values)) with (1 + length values)%nat.
    rewrite ofNat_add. change (ofNat 1) with (Qc_of_Z 1). rewrite Z2Qc_inj_1.
    rewrite !Qcmult_plus_distr_r, !Qcmult_1_r.
    split; by apply Qcplus_le_compat.
Qed.

(** A whole number is a double, and has no decimals to round. *)
Lemma wholeNumber_fixed (x : Qc) :
  Spec.wholeNumber x → round64 x = x ∧ toFixed 2 x = x.
Proof.
  intros (k & -> & Hk).
  assert (Hsmall : (Z.abs (Z.of_nat k) < 2 ^ 53)%Z).
  { rewrite Z.abs_eq by lia.
    assert (H : (2 ^ 32 < 2 ^ 53)%Z) by (by vm_compute). lia. }
  split; [by apply round64_integer|].
  unfold ofNat. apply Qc_is_canon. unfold toFixed. rewrite this_Q2Qc.
  rewrite toFixedQ_two, decimalQ_two, this_Qc_of_Z.
  rewrite (roundHalfAway_proper _ (inject_Z (Z.of_nat k * 100)))
    by (by rewrite inject_Z_mult).
  rewrite roundHalfAway_inject_Z.
  assert (Hk100 : (inject_Z (Z.of_nat k * 100) / 100 == inject_Z (Z.of_nat k))%Q)
    by (rewrite inject_Z_mult; field).
  rewrite Hk100. by apply round64Q_integer.
Qed.

(** The average of whole numbers lies between the least and the greatest of
    them: the average number of requests of the runs of a domain is between
    the counts of its runs. *)
Theorem calculateAverage_bounds (metrics : list Metrics)
    (selector : Metrics → option Qc) (lo hi : Qc) :
  (∀ m v, m ∈ metrics → selector m = Some v →
          Spec.wholeNumber v ∧ lo ≤ v ∧ v ≤ hi) →
  (∃ m v, m ∈ metrics ∧ selector m = Some v) →
  (Z.of_nat (length metrics) ≤ 2 ^ 20)%Z →
  Spec.wholeNumber lo → Spec.wholeNumber hi →
  lo ≤ calculateAverage metrics selector
  ∧ calculateAverage metrics selector ≤ hi.
Proof.
  intros Hbounds (m0 & v0 & Hm0 & Hv0) Hlen Hlo Hhi.
  rewrite calculateAverage_mean.
  assert (Hall : Forall (λ v, Spec.wholeNumber v ∧ lo ≤ v ∧ v ≤ hi)
                   (omap selector metrics)).
  { apply list.Forall_forall. intros v Hv.
    apply list_elem_of_omap in Hv as (m & Hm & Hsel). by eapply Hbounds. }
  assert (Hne : omap selector metrics ≠ []).
  { intros Hnil. assert (Hin : v0 ∈ omap selector metrics).
    { apply list_elem_of_omap. by exists m0. }
    rewrite Hnil in Hin. by apply not_elem_of_nil in Hin. }
  assert (Hshort : (Z.of_nat (length (omap selector metrics)) ≤ 2 ^ 20)%Z).
  { pose proof (length_filter (λ m, is_Some (selector m)) metrics) as Hf.
    rewrite <-valid_values, length_fmap. lia. }
  destruct (sum_whole (omap selector metrics)) as [Hsum _];
    [eapply list.Forall_impl; [exact Hall|]; by intros v [? _]|done|].
  destruct (sumQc_bounds (omap selector metrics) lo hi) as [Hlow Hhigh];
    [eapply list.Forall_impl; [exact Hall|]; by intros v [_ ?]|].
  destruct (omap selector metrics) as [|v values] eqn:Hvalues; [done|].
  unfold Spec.meanOfDefined. rewrite Hsum.
  set (n := length (v :: values)) in *.
  assert (Hn : 0 < ofNat n) by (apply ofNat_pos; unfold n; cbn [length]; lia).
  assert (Hn0 : ofNat n ≠ 0) by (by apply not_symmetry, Qclt_not_eq).
  destruct (wholeNumber_fixed lo Hlo) as [Hlo1 Hlo2].
  destruct (wholeNumber_fixed hi Hhi) as [Hhi1 Hhi2].
  split.
  - rewrite <-Hlo2 at 1. apply toFixed_mono.
    rewrite <-Hlo1 at 1. apply round64_mono.
    apply Qcmult_lt_0_le_reg_r with (ofNat n); [done|].
    replace (sumQc (v :: values) / ofNat n * ofNat n)
      with (sumQc (v :: values)) by (by field).
    exact Hlow.
  - rewrite <-Hhi2 at 1. apply toFixed_mono.
    rewrite <-Hhi1 at 1. apply round64_mono.
    apply Qcmult_lt_0_le_reg_r with (ofNat n); [done|].
    replace (sumQc (v :: values) / ofNat n * ofNat n)
      with (sumQc (v :: values)) by (by field).
    exact Hhigh.
Qed.

Lemma calculateAverage_bounds_witness :
  Qc_of_Z 0
    ≤ calculateAverage Samples.roundingRuns
        (λ m, Some (totalRequests (requests m)))
  ∧ calculateAverage Samples.roundingRuns
      (λ m, Some (totalRequests (requests m)))
    ≤ Qc_of_Z 1.
Proof.
  apply (calculateAverage_bounds Samples.roundingRuns
           (λ m, Some (totalRequests (requests m)))
           (Qc_of_Z 0) (Qc_of_Z 1)).
  - intros m v Hm Hv. injection Hv as <-.
    apply list.Forall_forall with (x := m) (l := Samples.roundingRuns);
      [|exact Hm].
    repeat constructor;
      first [apply (wholeNumber_num 0); by vm_compute
            |apply (wholeNumber_num 1); by vm_compute
            |by vm_compute].
  - exists (Samples.withCounts Samples.baseMetric (Samples.num 1)
              (Samples.num 1) (Samples.num 0) (Samples.num 0) (Samples.num 0)
              (Samples.num 0)), (Samples.num 1).
    split; [apply list_elem_of_here|reflexivity].
  - by vm_compute.
  - apply (wholeNumber_num 0). by vm_compute.
  - apply (wholeNumber_num 1). by vm_compute.
Defined.

(** Averaging is monotone: when every run has a value for two fields and
    the first is never above the second, so are their averages; in
    particular the average of values that are not negative is not
    negative. *)
Theorem calculateAverage_monotone (metrics : list Metrics)
    (lower upper : Metrics → Qc) :
  Forall (λ m, lower m ≤ upper m) metrics →
  calculateAverage metrics (λ m, Some (lower m))
  ≤ calculateAverage metrics (λ m, Some (upper m))
  ∧ (Forall (λ m, 0 ≤ lower m) metrics →
     0 ≤ calculateAverage metrics (λ m, Some (lower m))).
Proof.
  intros Hall. destruct (decide (metrics = [])) as [->|Hne].
  { split; [apply Qcle_refl|]. intros _. apply Qcle_refl. }
  rewrite !calculateAverage_required by done. split.
  - by apply averaged_le.
  - intros Hpos.
    assert (Hzero : toFixed 2 (divide (sum ((λ _, 0) <$> metrics))
                                 (ofNat (length metrics))) = 0).
    { rewrite sum_zero, divide_0; [apply toFixed_0|].
      by apply list.Forall_forall. }
    rewrite <-Hzero. by apply (averaged_le metrics (λ _, 0) lower).
Qed.

Lemma calculateAverage_monotone_witness :
  Forall (λ m, thirdPartyRequests (requests m) ≤ totalRequests (requests m))
    Samples.roundingRuns
  ∧ calculateAverage Samples.roundingRuns
      (λ m, Some (thirdPartyRequests (requests m)))
    ≤ calculateAverage Samples.roundingRuns
        (λ m, Some (totalRequests (requests m))).
Proof.
  assert (Hall : Forall (λ m, thirdPartyRequests (requests m)
                              ≤ totalRequests (requests m))
                   Samples.roundingRuns).
  { repeat constructor; by vm_compute. }
  split; [exact Hall|].
  exact (proj1 (calculateAverage_monotone Samples.roundingRuns
                  (λ m, thirdPartyRequests (requests m))
                  (λ m, totalRequests (requests m)) Hall)).
Defined.

End AveragerMore.

(** ** The metrics store *)

Section Store.

Lemma storeMetrics_lookup (metrics : Metrics) (domain domain' : string)
    (existing : MetricsData) :
  MetricsStore.storeMetrics metrics domain existing !! domain'
  = if decide (domain = domain')
    then Some (default [] (existing !! domain) ++ [metrics])
    else existing !! domain'.
Proof.
  unfold MetricsStore.storeMetrics.
  destruct (existing !! domain) as [entries|] eqn:Hdomain; case_decide;
    subst; by rewrite ?lookup_insert_eq, ?lookup_insert_ne.
Qed.

Lemma stored_from (stored : list (string * Metrics)) (existing : MetricsData)
    (domain : string) :
  foldl (λ store entry, MetricsStore.storeMetrics entry.2 entry.1 store)
        existing stored !! domain
  = match (filter (λ entry, entry.1 = domain) stored).*2 with
    | [] => existing !! domain
    | added => Some (default [] (existing !! domain) ++ added)
    end.
Proof.
  revert existing. induction stored as [|[d m] stored IH]; intros existing;
    [done|].
  cbn [foldl fst snd]. rewrite IH, filter_cons, storeMetrics_lookup.
  cbn [fst]. destruct (decide (d = domain)) as [->|Hne].
  - rewrite fmap_cons. cbn [snd default from_option id].
    destruct ((filter _ stored).*2) as [|m' added]; [done|].
    by rewrite <-app_assoc.
  - done.
Qed.

Lemma filter_absent (stored : list (string * Metrics)) (domain : string) :
  domain ∉ stored.*1 → filter (λ entry, entry.1 = domain) stored = [].
Proof.
  induction stored as [|[d m] stored IH]; [done|].
  rewrite fmap_cons, not_elem_of_cons. cbn [fst]. intros [Hne Hrest].
  rewrite filter_cons. cbn [fst]. rewrite decide_False by done. by apply IH.
Qed.

(** The store holds, for each domain, the records stored for it in the
    order of storing, and no domain without record; storing once per domain
    leaves exactly one entry per domain. *)
Theorem stored_entries (stored : list (string * Metrics)) (domain : string) :
  let store :=
    foldl (λ store entry, MetricsStore.storeMetrics entry.2 entry.1 store)
          (∅ : MetricsData) stored in
  (store !! domain
   = match (filter (λ entry, entry.1 = domain) stored).*2 with
     | [] => None
     | added => Some added
     end)
  ∧ (NoDup stored.*1 →
     ∀ entries, store !! domain = Some entries → length entries = 1%nat).
Proof.
  cbv zeta.
  assert (Hlookup :
    foldl (λ store entry, MetricsStore.storeMetrics entry.2 entry.1 store)
          (∅ : MetricsData) stored !! domain
    = match (filter (λ entry, entry.1 = domain) stored).*2 with
      | [] => None
      | added => Some added
      end).
  { rewrite stored_from, lookup_empty. by destruct (_.*2). }
  split; [exact Hlookup|].
  intros Hnodup entries. rewrite Hlookup. clear Hlookup.
  induction stored as [|[d m] stored IH]; [done|].
  rewrite fmap_cons in Hnodup. apply NoDup_cons in Hnodup as [Hfresh Hnodup].
  rewrite filter_cons. cbn [fst] in *.
  destruct (decide (d = domain)) as [->|Hne]; [|by apply IH].
  rewrite fmap_cons. cbn [snd].
  rewrite (filter_absent stored domain Hfresh). by intros [= <-].
Qed.

End Store.

Lemma stored_entries_witness :
  NoDup [("a.com", Samples.baseMetric); ("b.com", Samples.baseMetric)].*1
  ∧ ∀ entries,
      foldl (λ store entry, MetricsStore.storeMetrics entry.2 entry.1 store)
            (∅ : MetricsData)
            [("a.com", Samples.baseMetric); ("b.com", Samples.baseMetric)]
        !! "b.com" = Some entries →
      length entries = 1%nat.
Proof.
  assert (Hnodup : NoDup [("a.com", Samples.baseMetric);
                          ("b.com", Samples.baseMetric)].*1).
  { cbn [fmap list_fmap fst]. apply NoDup_cons. split; [set_solver|].
    apply NoDup_singleton. }
  split; [exact Hnodup|].
  exact (proj2 (stored_entries _ "b.com") Hnodup).
Defined.

(** ** The treemap of a report *)

Section TreemapProperties.

#[local] Instance descending_total : Total Treemap.descending.
Proof. intros a b. unfold Treemap.descending. lia. Qed.

(** The items of the treemap are the entries of the chosen reach map whose
    count exceeds the threshold, none lost and none twice, from the most
    contacted to the least. *)
Theorem treemap_items (report : ReportResult.t)
    (type : Treemap.VisualizationType) (threshold : Qc) :
  let rawData := Treemap.getRawDataForVisualizationType report type in
  let treemap :=
    Treemap.transformReportResultForTreemap report type threshold in
  Treemap.rootName treemap = "root"
  ∧ Sorted Treemap.descending (Treemap.children treemap)
  ∧ NoDup (Treemap.name <$> Treemap.children treemap)
  ∧ ∀ name count,
      Treemap.mkHostnameData name count ∈ Treemap.children treemap
      ↔ rawData !! name = Some count ∧ threshold < ofNat count.
Proof.
  cbv zeta. unfold Treemap.transformReportResultForTreemap,
    Treemap.createHierarchicalStructure.
  cbn [Treemap.rootName Treemap.children].
  set (rawData := Treemap.getRawDataForVisualizationType report type).
  set (items := (λ entry : string * nat, Treemap.mkHostnameData entry.1 entry.2)
                  <$> map_to_list rawData).
  split; [done|]. split; [apply Sorted_merge_sort; apply _|].
  split.
  - rewrite merge_sort_Permutation.
    assert (Hnames : NoDup (Treemap.name <$> items)).
    { unfold items. rewrite <-list_fmap_compose.
      apply NoDup_fst_map_to_list. }
    revert Hnames. generalize items. clear. intros items.
    induction items as [|item items IH]; [done|].
    rewrite fmap_cons, NoDup_cons. intros [Hfresh Hnodup].
    rewrite filter_cons. case_decide; [|by apply IH].
    rewrite fmap_cons. apply NoDup_cons. split; [|by apply IH].
    intros Hin. apply Hfresh.
    apply list_elem_of_fmap in Hin as (other & -> & Hother).
    apply list_elem_of_filter in Hother as [_ Hother].
    apply list_elem_of_fmap. by exists other.
  - intros name count.
    rewrite merge_sort_Permutation, list_elem_of_filter.
    cbn [Treemap.value]. unfold items. rewrite list_elem_of_fmap. split.
    + intros [Hlt ([n c] & [= -> ->] & Hin)].
      by apply elem_of_map_to_list in Hin.
    + intros [Hlookup Hlt]. split; [done|]. exists (name, count).
      split; [done|]. by apply elem_of_map_to_list.
Qed.

Lemma string_length_app (s1 s2 : string) :
  String.length (s1 +:+ s2) = (String.length s1 + String.length s2)%nat.
Proof. induction s1 as [|c s1 IH]; [done|]. simpl. by f_equal. Qed.

Lemma substringFromStart_length (maxLength : nat) (text : string) :
  String.length (Treemap.substringFromStart maxLength text)
  = (maxLength `min` String.length text)%nat.
Proof.
  revert text. induction maxLength as [|n IH]; intros [|c text]; cbn;
    [done..|]. by rewrite IH.
Qed.

Lemma substringFromStart_prefix (maxLength : nat) (text : string) :
  ∃ rest, text = Treemap.substringFromStart maxLength text +:+ rest.
Proof.
  revert text. induction maxLength as [|n IH]; intros [|c text].
  - by exists EmptyString.
  - by exists (String c text).
  - by exists EmptyString.
  - destruct (IH text) as [rest Hrest]. exists rest.
    change (String c text
            = String c (Treemap.substringFromStart n text +:+ rest)).
    by f_equal.
Qed.

(** A text of at most [maxLength] characters is kept; a longer one is cut
    to its first [maxLength] characters followed by three dots. *)
Theorem getTruncatedText_cut (text : string) (maxLength : nat) :
  ((String.length text ≤ maxLength)%nat →
   Treemap.getTruncatedText text maxLength = text)
  ∧ ((maxLength < String.length text)%nat →
     String.length (Treemap.getTruncatedText text maxLength)
     = (maxLength + 3)%nat
     ∧ ∃ kept dropped,
         text = kept +:+ dropped
         ∧ String.length kept = maxLength
         ∧ Treemap.getTruncatedText text maxLength = kept +:+ "...").
Proof.
  unfold Treemap.getTruncatedText. split; intros Hlength.
  - rewrite decide_False by lia. done.
  - rewrite decide_True by done. split.
    + rewrite string_length_app, substringFromStart_length. cbn. lia.
    + destruct (substringFromStart_prefix maxLength text) as [rest Hrest].
      exists (Treemap.substringFromStart maxLength text), rest.
      split; [done|]. split; [|done].
      rewrite substringFromStart_length. lia.
Qed.

End TreemapProperties.

Lemma getTruncatedText_cut_witness :
  (20 < String.length "a-very-long-tracker-name.example.com")%nat
  ∧ Treemap.getTruncatedText "a-very-long-tracker-name.example.com" 20
    = "a-very-long-tracker-..."
  ∧ String.length
      (Treemap.getTruncatedText "a-very-long-tracker-name.example.com" 20)
    = 23%nat.
Proof.
  assert (Hlong : (20 < String.length "a-very-long-tracker-name.example.com")%nat)
    by (cbn; lia).
  split; [exact Hlong|]. split; [reflexivity|].
  exact (proj1 (proj2 (getTruncatedText_cut
                         "a-very-long-tracker-name.example.com" 20) Hlong)).
Defined.

Lemma determineTestEnvironment_known_witness :
  determineTestEnvironment ∅ = TestEnvironment.Baseline.
Proof. exact (proj2 (determineTestEnvironment_known ∅) eq_refl). Defined.

(** ** The summary of a page load and the runs of a domain *)

Import PuppeteerRunner DomainRuns.

Section RunSummary.

Variable parse : string → option string * option string.

Lemma collectStats_snoc (dcl lt : Qc) (l : list RequestInfo) (x : RequestInfo) :
  collectStats parse dcl lt (l ++ [x])
  = countRequest parse (collectStats parse dcl lt l) x.
Proof. unfold collectStats. by rewrite foldl_app. Qed.

Lemma filter_snoc {A} (P : A → Prop) `{!∀ x, Decision (P x)}
    (l : list A) (x : A) :
  filter P (l ++ [x]) = filter P l ++ (if decide (P x) then [x] else []).
Proof.
  rewrite filter_app. f_equal.
Qed.

Lemma ofNat_S (n : nat) : ofNat (S n) = ofNat n + 1.
Proof. replace (S n) with (n + 1)%nat by lia. by rewrite ofNat_add. Qed.

Lemma counted_snoc (l : list RequestInfo) (x : RequestInfo) :
  Notions.counted (l ++ [x])
  = Notions.counted l ++ (if isAdGuardResource x then [] else [x]).
Proof.
  unfold Notions.counted. rewrite filter_snoc.
  destruct (isAdGuardResource x); by case_decide.
Qed.

Lemma letThrough_snoc (l : list RequestInfo) (x : RequestInfo) :
  Notions.letThrough (l ++ [x])
  = Notions.letThrough l
    ++ (if isAdGuardResource x || isBlocked x then [] else [x]).
Proof.
  unfold Notions.letThrough. rewrite counted_snoc.
  destruct (isAdGuardResource x); cbn [orb].
  - by rewrite app_nil_r, app_nil_r.
  - rewrite filter_snoc. destruct (isBlocked x); by case_decide.
Qed.

Lemma length_snoc_filter {A} (P : A → Prop) `{!∀ x, Decision (P x)}
    (l : list A) (x : A) :
  ofNat (length (filter P (l ++ [x])))
  = if decide (P x) then ofNat (length (filter P l)) + 1
    else ofNat (length (filter P l)).
Proof.
  rewrite filter_snoc, length_app.
  destruct (decide (P x)); cbn [length].
  - by rewrite Nat.add_1_r, ofNat_S.
  - by rewrite Nat.add_0_r.
Qed.

Lemma countRequest_invariant (acc : PuppeteerResults) (x : RequestInfo) :
  Spec.requestsInvariant (resultRequests acc) →
  Spec.requestsInvariant (resultRequests (countRequest parse acc x)).
Proof.
  intros (Hsum & Hthird & Hle). unfold countRequest, Spec.requestsInvariant.
  destruct (isAdGuardResource x); [done|].
  destruct (isBlocked x), (thirdParty x);
    cbn [resultRequests totalRequests blockedRequests notBlockedRequests
         thirdPartyRequests thirdPartyBlockedRequests
         thirdPartyNotBlockedRequests];
    rewrite <-?Hsum, <-?Hthird; (split; [ring|split; [ring|]]).
  all: rewrite ?Hsum, ?Hthird.
  all: try (apply Qcplus_le_compat; [exact Hle|apply Qcle_refl]).
  all: (rewrite <-(Qcplus_0_r (thirdPartyRequests _));
        apply Qcplus_le_compat; [exact Hle|done]).
Qed.

Lemma collectStats_invariant (dcl lt : Qc) (l : list RequestInfo) :
  Spec.requestsInvariant (resultRequests (collectStats parse dcl lt l)).
Proof.
  induction l as [|x l IH] using rev_ind.
  - split; [qc_compute|]. split; [qc_compute|]. apply Qcle_refl.
  - rewrite collectStats_snoc. by apply countRequest_invariant.
Qed.


(** The six counters of a page load count the captured requests:
    resources of AdGuard are left out of all of them, every other request is
    counted once in the total and once as blocked or as let through, and the
    third-party counters count the third-party requests among these. *)
Theorem collected_counters_count_requests (dcl lt : Qc)
    (captured : list RequestInfo) :
  let r := resultRequests (collectStats parse dcl lt captured) in
  let counted := Notions.counted captured in
  let letThrough := Notions.letThrough captured in
  totalRequests r = ofNat (length counted)
  ∧ blockedRequests r
    = ofNat (length (filter (λ entry, isBlocked entry = true) counted))
  ∧ notBlockedRequests r = ofNat (length letThrough)
  ∧ thirdPartyRequests r
    = ofNat (length (filter (λ entry, thirdParty entry = true) counted))
  ∧ thirdPartyBlockedRequests r
    = ofNat (length (filter (λ entry, thirdParty entry = true)
                       (filter (λ entry, isBlocked entry = true) counted)))
  ∧ thirdPartyNotBlockedRequests r
    = ofNat (length (filter (λ entry, thirdParty entry = true) letThrough)).
Proof.
  cbv zeta. induction captured as [|x l IH] using rev_ind.
  - repeat split; qc_compute.
  - destruct IH as (Ht & Hb & Hn & Htp & Htb & Htn).
    rewrite collectStats_snoc, counted_snoc, letThrough_snoc.
    unfold countRequest.
    destruct (isAdGuardResource x); cbn [orb].
    { rewrite !app_nil_r. done. }
    rewrite !filter_snoc.
    destruct (isBlocked x) eqn:Hblocked, (thirdParty x) eqn:Hthird;
      cbn [resultRequests totalRequests blockedRequests notBlockedRequests
           thirdPartyRequests thirdPartyBlockedRequests
           thirdPartyNotBlockedRequests];
      repeat case_decide; try done;
      rewrite ?filter_snoc, ?Hthird; repeat case_decide; try done;
      rewrite ?app_nil_r, ?length_app; cbn [length];
      rewrite ?Nat.add_1_r, ?ofNat_S, Ht, Hb, Hn, Htp, Htb, Htn; done.
Qed.

Lemma occurrences_snoc (keyOf : RequestInfo → option string)
    (l : list RequestInfo) (x : RequestInfo) (counts : gmap string Qc) :
  (∀ key, counts !! key = Notions.occurrences keyOf l key) →
  ∀ key,
    match keyOf x with
    | Some name => increment counts name
    | None => counts
    end !! key = Notions.occurrences keyOf (l ++ [x]) key.
Proof.
  intros Hcounts key. unfold Notions.occurrences. rewrite filter_snoc.
  destruct (keyOf x) as [name|] eqn:Hkey.
  - unfold increment. destruct (decide (name = key)) as [->|Hne].
    + rewrite lookup_insert_eq, Hcounts. case_decide; [|done].
      rewrite length_app. cbn [length]. rewrite Nat.add_1_r.
      unfold Notions.occurrences.
      destruct (length (filter _ l)) as [|n] eqn:Hlen; f_equal.
      * qc_compute.
      * cbn [orZero]. by rewrite (ofNat_S (S n)).
    + rewrite lookup_insert_ne by done. case_decide; [congruence|].
      rewrite app_nil_r. apply Hcounts.
  - case_decide; [done|]. rewrite app_nil_r. apply Hcounts.
Qed.

(** The two name maps of a page load hold, for each hostname and each
    registrable domain, the number of requests let through whose URL parses
    to it; a name that no such request has is absent, so every recorded
    count is at least one. Blocked requests and resources of AdGuard never
    reach the maps. *)
Theorem collected_names_count_let_through (dcl lt : Qc)
    (captured : list RequestInfo) (name : string) :
  let r := resultRequests (collectStats parse dcl lt captured) in
  let letThrough := Notions.letThrough captured in
  hostnames r !! name
  = Notions.occurrences
      (λ entry, JsString.truthy (parse (requestUrl entry)).1) letThrough name
  ∧ etldPlus1s r !! name
    = Notions.occurrences
        (λ entry, JsString.truthy (parse (requestUrl entry)).2) letThrough name.
Proof.
  cbv zeta. revert name. induction captured as [|x l IH] using rev_ind.
  - intros name. split; reflexivity.
  - intros name. rewrite collectStats_snoc, letThrough_snoc.
    unfold countRequest.
    destruct (isAdGuardResource x); cbn [orb].
    { rewrite app_nil_r. apply IH. }
    destruct (isBlocked x);
      cbn [resultRequests hostnames etldPlus1s].
    { rewrite app_nil_r. apply IH. }
    split.
    + apply (occurrences_snoc
               (λ entry, JsString.truthy (parse (requestUrl entry)).1)).
      intros key. apply IH.
    + apply (occurrences_snoc
               (λ entry, JsString.truthy (parse (requestUrl entry)).2)).
      intros key. apply IH.
Qed.


(** The bytes of a page load are the reported sizes of the counted
    requests, an unreported size counting as zero; the third-party bytes are
    those of the third-party requests, and lie between zero and the total
    when no size is negative. *)
Theorem collected_bytes (dcl lt : Qc) (captured : list RequestInfo) :
  let results := collectStats parse dcl lt captured in
  let counted := Notions.counted captured in
  let size := λ entry, orZero (encodedDataLength entry) in
  resultTotalBytes results = sumQc (size <$> counted)
  ∧ resultThirdPartyBytes results
    = sumQc (size <$> filter (λ entry, thirdParty entry = true) counted)
  ∧ (Forall (λ entry, 0 ≤ size entry) counted →
     0 ≤ resultThirdPartyBytes results
     ∧ resultThirdPartyBytes results ≤ resultTotalBytes results).
Proof.
  cbv zeta. induction captured as [|x l IH] using rev_ind.
  - split; [qc_compute|]. split; [qc_compute|]. intros _. by split.
  - destruct IH as (Htotal & Hthird & Hle).
    rewrite collectStats_snoc, counted_snoc. unfold countRequest.
    destruct (isAdGuardResource x).
    { rewrite !app_nil_r. done. }
    rewrite filter_snoc, Forall_app, Forall_singleton.
    destruct (thirdParty x) eqn:Hthird';
      destruct (isBlocked x);
      cbn [resultTotalBytes resultThirdPartyBytes];
      case_decide; try done;
      rewrite ?app_nil_r, ?fmap_app, ?fmap_cons, ?fmap_nil, ?sumQc_snoc,
        Htotal, Hthird;
      (split; [done|]); (split; [done|]);
      intros [Hall Hx]; destruct (Hle Hall) as [H0 Hle'];
      rewrite <-Htotal, <-Hthird.
    + split; [|by apply Qcplus_le_compat].
      rewrite <-(Qcplus_0_r 0). by apply Qcplus_le_compat.
    + split; [|by apply Qcplus_le_compat].
      rewrite <-(Qcplus_0_r 0). by apply Qcplus_le_compat.
    + split; [done|]. rewrite <-(Qcplus_0_r (resultThirdPartyBytes _)).
      by apply Qcplus_le_compat.
    + split; [done|]. rewrite <-(Qcplus_0_r (resultThirdPartyBytes _)).
      by apply Qcplus_le_compat.
Qed.

Lemma wholeUpTo_succ (bound : Z) (x : Qc) :
  Spec.wholeUpTo bound x → Spec.wholeUpTo (bound + 1) (x + 1).
Proof.
  intros (k & -> & Hk). exists (S k). split; [by rewrite ofNat_S|lia].
Qed.

Lemma wholeUpTo_le (bound bound' : Z) (x : Qc) :
  (bound ≤ bound')%Z → Spec.wholeUpTo bound x → Spec.wholeUpTo bound' x.
Proof. intros Hle (k & -> & Hk). exists k. split; [done|lia]. Qed.

Lemma countRequest_whole (acc : PuppeteerResults) (x : RequestInfo)
    (bound : Z) :
  Spec.countersUpTo bound (resultRequests acc) →
  Spec.countersUpTo (bound + 1) (resultRequests (countRequest parse acc x)).
Proof.
  intros (Ht & Hb & Hn & Htp & Htb & Htn). unfold countRequest.
  assert (Hle : (bound ≤ bound + 1)%Z) by lia.
  destruct (isAdGuardResource x).
  { repeat split; by eapply wholeUpTo_le. }
  destruct (isBlocked x), (thirdParty x);
    cbn [resultRequests totalRequests blockedRequests notBlockedRequests
         thirdPartyRequests thirdPartyBlockedRequests
         thirdPartyNotBlockedRequests];
    repeat split;
    first [by apply wholeUpTo_succ | by eapply wholeUpTo_le].
Qed.

Lemma collectStats_whole (dcl lt : Qc) (l : list RequestInfo) :
  Spec.countersUpTo (Z.of_nat (length l))
    (resultRequests (collectStats parse dcl lt l)).
Proof.
  induction l as [|x l IH] using rev_ind.
  - repeat split; exists 0%nat; (split; [qc_compute|done]).
  - rewrite collectStats_snoc, length_app, Nat2Z.inj_add. cbn [length].
    by apply countRequest_whole.
Qed.

Lemma extracted_runs (clock : nat → string) (url domain env : string)
    (loads : list (Qc * Qc * list RequestInfo)) (m : Metrics) :
  m ∈ imap (λ i results,
              extractMetricsFromPuppeteer (clock i) results url domain env)
           ((λ load, collectStats parse load.1.1 load.1.2 load.2) <$> loads) →
  ∃ load, load ∈ loads
          ∧ requests m
            = resultRequests (collectStats parse load.1.1 load.1.2 load.2).
Proof.
  intros Hm. apply elem_of_lookup_imap in Hm as (i & results & -> & Hresults).
  rewrite list_lookup_fmap in Hresults.
  destruct (loads !! i) as [load|] eqn:Hload; [|done].
  injection Hresults as <-. exists load. split; [|done].
  by eapply list_elem_of_lookup_2.
Qed.

Lemma extracted_invariant (clock : nat → string) (url domain env : string)
    (loads : list (Qc * Qc * list RequestInfo)) :
  Forall (λ m, Spec.requestsInvariant (requests m))
    (imap (λ i results,
             extractMetricsFromPuppeteer (clock i) results url domain env)
          ((λ load, collectStats parse load.1.1 load.1.2 load.2) <$> loads)).
Proof.
  apply list.Forall_forall. intros m Hm.
  apply extracted_runs in Hm as (load & _ & ->).
  apply collectStats_invariant.
Qed.

Lemma extracted_whole (clock : nat → string) (url domain env : string)
    (loads : list (Qc * Qc * list RequestInfo)) :
  Forall (λ load, (Z.of_nat (length load.2) ≤ 2 ^ 32)%Z) loads →
  Forall (λ m, Spec.wholeCounters (requests m))
    (imap (λ i results,
             extractMetricsFromPuppeteer (clock i) results url domain env)
          ((λ load, collectStats parse load.1.1 load.1.2 load.2) <$> loads)).
Proof.
  intros Hsmall. apply list.Forall_forall. intros m Hm.
  apply extracted_runs in Hm as (load & Hload & ->).
  rewrite list.Forall_forall in Hsmall. specialize (Hsmall load Hload).
  destruct (collectStats_whole load.1.1 load.1.2 load.2)
    as (Ht & Hb & Hn & Htp & Htb & Htn).
  repeat split; by eapply wholeUpTo_le.
Qed.

(** The runs of a domain end in exactly one new entry of the metrics
    file, appended to the entries the domain had: it carries the URL, the
    domain and the environment of the call and the time of the first run;
    its averaged counters keep [thirdPartyRequests <= totalRequests], and,
    written with two decimals, the two sums of the invariant up to one
    hundredth. *)
Theorem domain_runs_store_their_average (clock : nat → string)
    (url domain env : string) (loads : list (Qc * Qc * list RequestInfo))
    (existing : MetricsData) :
  loads ≠ [] →
  ∃ out,
    processDomainPuppeteer clock url domain env
      ((λ load, collectStats parse load.1.1 load.1.2 load.2) <$> loads)
      existing
    = <[domain := default [] (existing !! domain) ++ [out]]> existing
    ∧ MetricsCollector.url out = url
    ∧ MetricsCollector.domain out = domain
    ∧ testEnv out = env
    ∧ measureTime out = clock 0%nat
    ∧ thirdPartyRequests (requests out) ≤ totalRequests (requests out)
    ∧ ((Z.of_nat (length loads) ≤ 2 ^ 20)%Z →
       Forall (λ load, (Z.of_nat (length load.2) ≤ 2 ^ 32)%Z) loads →
       Spec.withinOneHundredth
         (blockedRequests (requests out)) (notBlockedRequests (requests out))
         (totalRequests (requests out))
       ∧ Spec.withinOneHundredth
           (thirdPartyBlockedRequests (requests out))
           (thirdPartyNotBlockedRequests (requests out))
           (thirdPartyRequests (requests out))).
Proof.
  intros Hne. unfold processDomainPuppeteer.
  pose proof (extracted_invariant clock url domain env loads) as Hinv.
  pose proof (extracted_whole clock url domain env loads) as Hwhole.
  set (runs := imap _ _) in *.
  assert (Hlength : length runs = length loads)
    by (subst runs; by rewrite length_imap, length_fmap).
  assert (Hruns : runs ≠ []).
  { intros Hnil. rewrite Hnil in Hlength. by destruct loads. }
  destruct (computeAverageMetrics_total runs Hruns) as [out Hout].
  exists out. rewrite Hout.
  split.
  { unfold MetricsStore.storeMetrics. by destruct (existing !! domain). }
  assert (Hfirst : ∃ first rest, runs = first :: rest
            ∧ MetricsCollector.url first = url
            ∧ MetricsCollector.domain first = domain
            ∧ testEnv first = env ∧ measureTime first = clock 0%nat).
  { subst runs. destruct loads as [|load loads]; [done|].
    rewrite fmap_cons. cbn [imap]. eexists _, _. by split. }
  destruct Hfirst as (first & rest & Hfr & Hurl & Hdom & Henv & Htime).
  assert (Hhead : MetricsCollector.url out = url
            ∧ MetricsCollector.domain out = domain
            ∧ testEnv out = env ∧ measureTime out = clock 0%nat).
  { rewrite Hfr in Hout. injection Hout as <-. done. }
  destruct Hhead as (-> & -> & -> & ->). do 4 (split; [done|]).
  rewrite !(averaged_counter runs out _ Hout) by tauto.
  split.
  - apply (averaged_le runs (λ m, thirdPartyRequests (requests m))
             (λ m, totalRequests (requests m)) Hruns).
    eapply list.Forall_impl; [exact Hinv|].
    intros m (_ & _ & Hle). exact Hle.
  - intros Hlen Hsmall. specialize (Hwhole Hsmall).
    rewrite <-Hlength in Hlen. split.
    + apply (rounded_parts_near_whole runs
               (λ m, blockedRequests (requests m))
               (λ m, notBlockedRequests (requests m))
               (λ m, totalRequests (requests m)) Hruns Hlen).
      * eapply list.Forall_impl; [exact Hinv|]. by intros m (Hsum & _ & _).
      * eapply list.Forall_impl; [exact Hwhole|]. by intros m (_ & ? & _).
      * eapply list.Forall_impl; [exact Hwhole|]. by intros m (_ & _ & ? & _).
      * eapply list.Forall_impl; [exact Hwhole|]. by intros m (? & _).
    + apply (rounded_parts_near_whole runs
               (λ m, thirdPartyBlockedRequests (requests m))
               (λ m, thirdPartyNotBlockedRequests (requests m))
               (λ m, thirdPartyRequests (requests m)) Hruns Hlen).
      * eapply list.Forall_impl; [exact Hinv|]. by intros m (_ & Hsum & _).
      * eapply list.Forall_impl; [exact Hwhole|].
        by intros m (_ & _ & _ & _ & ? & _).
      * eapply list.Forall_impl; [exact Hwhole|].
        by intros m (_ & _ & _ & _ & _ & ?).
      * eapply list.Forall_impl; [exact Hwhole|].
        by intros m (_ & _ & _ & ? & _).
Qed.

End RunSummary.

Lemma collected_bytes_witness :
  let results :=
    PuppeteerRunner.collectStats CapturedSamples.parse 0 0
      CapturedSamples.captured in
  PuppeteerRunner.resultTotalBytes results = Samples.num 100
  ∧ 0 ≤ PuppeteerRunner.resultThirdPartyBytes results
  ∧ PuppeteerRunner.resultThirdPartyBytes results
    ≤ PuppeteerRunner.resultTotalBytes results.
Proof.
  cbv zeta.
  destruct (collected_bytes CapturedSamples.parse 0 0 CapturedSamples.captured)
    as (Htotal & _ & Hle).
  split; [rewrite Htotal; qc_compute|].
  apply Hle. repeat constructor; by vm_compute.
Defined.

Lemma domain_runs_store_their_average_witness :
  CapturedSamples.loads ≠ []
  ∧ ∃ out,
      DomainRuns.processDomainPuppeteer CapturedSamples.clock
        "https://example.com" "example.com" "baseline"
        ((λ load, PuppeteerRunner.collectStats CapturedSamples.parse
                    load.1.1 load.1.2 load.2) <$> CapturedSamples.loads)
        ∅
      = {[ "example.com" := [out] ]}
      ∧ measureTime out = "2024-01-01T00:00:00.000Z"
      ∧ thirdPartyRequests (requests out) ≤ totalRequests (requests out)
      ∧ Spec.withinOneHundredth
          (blockedRequests (requests out)) (notBlockedRequests (requests out))
          (totalRequests (requests out)).
Proof.
  split; [discriminate|].
  destruct (domain_runs_store_their_average CapturedSamples.parse
              CapturedSamples.clock "https://example.com" "example.com"
              "baseline" CapturedSamples.loads ∅)
    as (out & Hstored & _ & _ & _ & Htime & Hle & Hnear); [discriminate|].
  exists out. split; [exact Hstored|]. split; [exact Htime|].
  split; [exact Hle|].
  apply Hnear; [by vm_compute|]. repeat constructor; by vm_compute.
Defined.
